(** * Clause-Lab: the rule-based clause extractor (services/ruleBasedExtractor)

    A shallow embedding of the extraction engine: JavaScript strings as lists
    of UTF-16 code units, the regular expressions of the source as syntax trees
    run by a backtracking matcher that follows the ECMAScript matcher
    (continuations, greedy and lazy quantifiers, capture groups, lookahead and
    lookbehind), and the functions of the source on top of them. *)

From Stdlib Require Import String Ascii.
From Stdlib Require Import List NArith ZArith Bool Arith Lia.
From Stdlib Require Import Floats.SpecFloat.
Import ListNotations.

Set Implicit Arguments.
Set Warnings "-comment-terminator-in-string".
Local Open Scope N_scope.

(** ** JavaScript strings *)

(** A string is its sequence of UTF-16 code units ([charCodeAt]). *)
Definition char := N.
Definition jstring := list char.

(** String literals of the source, written as Rocq strings. *)
Definition js (s : string) : jstring :=
  map N_of_ascii (list_ascii_of_string s).

Definition ch (a : ascii) : char := N_of_ascii a.

Definition LF : char := 10.
Definition CR : char := 13.
Definition SP : char := 32.

Fixpoint jstring_eqb (a b : jstring) : bool :=
  match a, b with
  | [], [] => true
  | x :: a', y :: b' => (x =? y) && jstring_eqb a' b'
  | _, _ => false
  end.

(** [WhiteSpace] and [LineTerminator] of ECMAScript: what [trim] strips
    and what the class [\s] contains. *)
Definition isWhiteSpace (c : char) : bool :=
  ((9 <=? c) && (c <=? 13)) || (c =? 32) || (c =? 160) || (c =? 5760)
  || ((8192 <=? c) && (c <=? 8202)) || (c =? 8232) || (c =? 8233)
  || (c =? 8239) || (c =? 8287) || (c =? 12288) || (c =? 65279).

Fixpoint trimStart (s : jstring) : jstring :=
  match s with
  | c :: s' => if isWhiteSpace c then trimStart s' else s
  | [] => []
  end.

Definition trimEnd (s : jstring) : jstring := rev (trimStart (rev s)).

Definition trim (s : jstring) : jstring := trimEnd (trimStart s).

(** [s.split(sep)] for a one-character separator string. *)
Fixpoint splitChar (sep : char) (s : jstring) : list jstring :=
  match s with
  | [] => [[]]
  | c :: s' =>
      if c =? sep then [] :: splitChar sep s'
      else match splitChar sep s' with
           | l :: ls => (c :: l) :: ls
           | [] => [[c]]
           end
  end.

(** [parts.join(sep)]. *)
Fixpoint join (sep : jstring) (parts : list jstring) : jstring :=
  match parts with
  | [] => []
  | [p] => p
  | p :: ps => p ++ sep ++ join sep ps
  end.

(** [s.startsWith(p)] and [s.includes(p)]. *)
Fixpoint startsWith (p s : jstring) : bool :=
  match p, s with
  | [], _ => true
  | x :: p', y :: s' => (x =? y) && startsWith p' s'
  | _ :: _, [] => false
  end.

Fixpoint includes (s p : jstring) : bool :=
  startsWith p s ||
  match s with
  | [] => false
  | _ :: s' => includes s' p
  end.

(** [s.split(sep)] for a separator string: the text is cut at each
    occurrence of [sep], found from left to right; with the empty separator
    the pieces are the code units. [skip] counts the characters of a
    separator that are still to pass, [cur] is the piece in progress. *)
Fixpoint splitStringFrom (sep : jstring) (skip : nat) (cur s : jstring)
    : list jstring :=
  match s with
  | [] => [rev cur]
  | c :: s' =>
      match skip with
      | S skip' => splitStringFrom sep skip' cur s'
      | O =>
          if startsWith sep s
          then rev cur :: splitStringFrom sep (length sep - 1)%nat [] s'
          else splitStringFrom sep 0%nat (c :: cur) s'
      end
  end.

Definition splitString (sep s : jstring) : list jstring :=
  match sep with
  | [] => map (fun c => [c]) s
  | _ :: _ => splitStringFrom sep 0%nat [] s
  end.

(** [s.indexOf(c)] for a one-character needle; [None] stands for -1. *)
Fixpoint indexOfChar (c : char) (s : jstring) : option nat :=
  match s with
  | [] => None
  | x :: s' => if x =? c then Some 0%nat else option_map S (indexOfChar c s')
  end.

(** [s.substring(a, b)] with [a <= b] and [s.substring(a)]. *)
Definition substring (a b : nat) (s : jstring) : jstring :=
  firstn (b - a) (skipn a s).
Definition substringFrom (a : nat) (s : jstring) : jstring := skipn a s.

(** ASCII case mapping. Under the [i] flag without the [u] flag a pattern
    character or class member below 128 is matched by its two ASCII cases
    only: [Canonicalize] never maps a code unit of 128 or more to one below
    128. *)
Definition asciiUpper (c : char) : char :=
  if (97 <=? c) && (c <=? 122) then c - 32 else c.
Definition asciiLower (c : char) : char :=
  if (65 <=? c) && (c <=? 90) then c + 32 else c.

(** ** Regular expressions *)

(** A character class: ranges of code units, complemented when [cc_neg]. *)
Record cclass := { cc_neg : bool; cc_ranges : list (char * char) }.

Inductive regex :=
| Eps
| Chr (cs : cclass)
| Seq (a b : regex)
| Alt (a b : regex)
| Rep (lo : nat) (hi : option nat) (greedy : bool) (a : regex)
| Grp (n : nat) (a : regex)
| Look (ahead positive : bool) (a : regex)
| Bol
| Eol.

(** A regular expression literal: its pattern and its [i] flag. The [s] flag
    is taken at the translation of [.]; [g] selects the operation. *)
Record RegExp := { source : regex; ignoreCase : bool }.

(** The capture groups of a pattern, left to right. *)
Fixpoint groups (r : regex) : list nat :=
  match r with
  | Eps | Chr _ | Bol | Eol => []
  | Seq a b | Alt a b => groups a ++ groups b
  | Rep _ _ _ a | Look _ _ a => groups a
  | Grp n a => n :: groups a
  end.

(** The matcher state: the input split at the current position (the part
    before it reversed) and the captures set so far. *)
Record mstate := {
  before : jstring;
  after : jstring;
  caps : list (nat * option jstring)
}.

Definition cont := mstate -> option mstate.

Definition pos (x : mstate) : nat := length (before x).

Definition remaining (fwd : bool) (x : mstate) : nat :=
  if fwd then length (after x) else length (before x).

Fixpoint getCap (n : nat) (cs : list (nat * option jstring)) : option jstring :=
  match cs with
  | [] => None
  | (m, v) :: cs' => if Nat.eqb m n then v else getCap n cs'
  end.

Definition setCap (n : nat) (v : jstring) (x : mstate) : mstate :=
  {| before := before x; after := after x; caps := (n, Some v) :: caps x |}.

Definition resetCaps (gs : list nat) (x : mstate) : mstate :=
  {| before := before x; after := after x;
     caps := map (fun g => (g, None)) gs ++ caps x |}.

Definition withCaps (cs : list (nat * option jstring)) (x : mstate) : mstate :=
  {| before := before x; after := after x; caps := cs |}.

Definition step (fwd : bool) (x : mstate) : option (char * mstate) :=
  if fwd then
    match after x with
    | c :: s => Some (c, {| before := c :: before x; after := s; caps := caps x |})
    | [] => None
    end
  else
    match before x with
    | c :: p => Some (c, {| before := p; after := c :: after x; caps := caps x |})
    | [] => None
    end.

(** The input between two states of one match, whichever comes first. *)
Definition between (x y : mstate) : jstring :=
  if Nat.leb (pos x) (pos y)
  then firstn (pos y - pos x) (after x)
  else firstn (pos x - pos y) (after y).

Definition inRanges (rs : list (char * char)) (c : char) : bool :=
  existsb (fun r => (fst r <=? c) && (c <=? snd r)) rs.

Definition cmatch (ic : bool) (cs : cclass) (c : char) : bool :=
  xorb (cc_neg cs)
       (inRanges (cc_ranges cs) c
        || (ic && (inRanges (cc_ranges cs) (asciiUpper c)
                   || inRanges (cc_ranges cs) (asciiLower c)))).

(** [RepeatMatcher]: [m] matches one iteration. An iteration that starts with
    the minimum at zero has to move; [fuel] bounds the minimum plus the input
    left in the direction of the match, so at zero no iteration can follow. *)
Fixpoint repLoop (m : cont -> cont) (gs : list nat) (greedy : bool) (k : cont)
    (fuel lo : nat) (hi : option nat) (x : mstate) {struct fuel} : option mstate :=
  match hi with
  | Some O => k x
  | _ =>
    match fuel with
    | O => if Nat.eqb lo 0 then k x else None
    | S fuel' =>
      let d := fun y =>
        if Nat.eqb lo 0 && Nat.eqb (pos y) (pos x) then None
        else repLoop m gs greedy k fuel' (Nat.pred lo) (option_map Nat.pred hi) y in
      let xr := resetCaps gs x in
      if negb (Nat.eqb lo 0) then m d xr
      else if greedy then
        match m d xr with Some z => Some z | None => k x end
      else
        match k x with Some z => Some z | None => m d xr end
    end
  end.

(** The backtracking matcher in continuation-passing style. [fwd] is the
    direction: lookbehind matches its pattern backward. *)
Fixpoint rmatch (ic fwd : bool) (r : regex) (k : cont) (x : mstate)
    {struct r} : option mstate :=
  match r with
  | Eps => k x
  | Chr cs =>
      match step fwd x with
      | Some (c, y) => if cmatch ic cs c then k y else None
      | None => None
      end
  | Seq a b =>
      if fwd then rmatch ic fwd a (rmatch ic fwd b k) x
      else rmatch ic fwd b (rmatch ic fwd a k) x
  | Alt a b =>
      match rmatch ic fwd a k x with
      | Some z => Some z
      | None => rmatch ic fwd b k x
      end
  | Rep lo hi g a =>
      repLoop (rmatch ic fwd a) (groups a) g k (lo + remaining fwd x) lo hi x
  | Grp n a => rmatch ic fwd a (fun y => k (setCap n (between x y) y)) x
  | Look ahead positive a =>
      match rmatch ic ahead a Some x with
      | Some y => if positive then k (withCaps (caps y) x) else None
      | None => if positive then None else k x
      end
  | Bol => match before x with [] => k x | _ => None end
  | Eol => match after x with [] => k x | _ => None end
  end.

(** One attempt at a position: the state at the end of the match. *)
Definition matchAt (R : RegExp) (pre suf : jstring) : option mstate :=
  rmatch (ignoreCase R) true (source R) Some
         {| before := pre; after := suf; caps := [] |}.

Definition matchLen (pre : jstring) (y : mstate) : nat := pos y - length pre.

Definition matched (pre suf : jstring) (y : mstate) : jstring :=
  firstn (matchLen pre y) suf.

(** The first match at or after a position, scanning to the right:
    the text before it (reversed), the text from it on, the end state. *)
Fixpoint searchFrom (R : RegExp) (pre suf : jstring) {struct suf}
    : option (jstring * jstring * mstate) :=
  match matchAt R pre suf with
  | Some y => Some (pre, suf, y)
  | None =>
      match suf with
      | [] => None
      | c :: suf' => searchFrom R (c :: pre) suf'
      end
  end.

(** [R.test(s)] for a pattern without the [g] flag. *)
Definition test (R : RegExp) (s : jstring) : bool :=
  match searchFrom R [] s with Some _ => true | None => false end.

(** [s.match(R)] for a pattern without the [g] flag: the whole match and the
    captures. *)
Definition matchFirst (R : RegExp) (s : jstring)
    : option (jstring * list (nat * option jstring)) :=
  match searchFrom R [] s with
  | Some (pre, suf, y) => Some (matched pre suf y, caps y)
  | None => None
  end.

(** [s.match(R)] for a pattern with the [g] flag: all the matches, each
    search starting where the last match ended, one further after an empty
    match. [skip] counts the characters of the last match still to pass. *)
Fixpoint matchLoop (R : RegExp) (skip : nat) (pre suf : jstring) {struct suf}
    : list jstring :=
  match skip with
  | S n =>
      match suf with
      | c :: suf' => matchLoop R n (c :: pre) suf'
      | [] => []
      end
  | O =>
      match matchAt R pre suf with
      | Some y =>
          matched pre suf y ::
          match suf with
          | c :: suf' => matchLoop R (matchLen pre y - 1) (c :: pre) suf'
          | [] => []
          end
      | None =>
          match suf with
          | c :: suf' => matchLoop R 0 (c :: pre) suf'
          | [] => []
          end
      end
  end.

Definition matchAll (R : RegExp) (s : jstring) : list jstring :=
  matchLoop R 0 [] s.

(** A replacement string: literal text and [$n] references. *)
Inductive repl := Lit (s : jstring) | Ref (n : nat).

Definition expand (tpl : list repl) (cs : list (nat * option jstring)) : jstring :=
  flat_map (fun t => match t with
                     | Lit s => s
                     | Ref n => match getCap n cs with Some v => v | None => [] end
                     end) tpl.

(** [s.replace(R, tpl)] for a pattern with the [g] flag. *)
Fixpoint replaceLoop (R : RegExp) (tpl : list repl) (skip : nat)
    (pre suf : jstring) {struct suf} : jstring :=
  match skip with
  | S n =>
      match suf with
      | c :: suf' => replaceLoop R tpl n (c :: pre) suf'
      | [] => []
      end
  | O =>
      match matchAt R pre suf with
      | Some y =>
          expand tpl (caps y) ++
          match suf with
          | c :: suf' =>
              if Nat.eqb (matchLen pre y) 0
              then c :: replaceLoop R tpl 0 (c :: pre) suf'
              else replaceLoop R tpl (matchLen pre y - 1) (c :: pre) suf'
          | [] => []
          end
      | None =>
          match suf with
          | c :: suf' => c :: replaceLoop R tpl 0 (c :: pre) suf'
          | [] => []
          end
      end
  end.

Definition replaceAll (R : RegExp) (tpl : list repl) (s : jstring) : jstring :=
  replaceLoop R tpl 0 [] s.

(** [s.split(R)]: the pieces between the matches and, after each piece but
    the last, the captures of the match that ended it ([None] is
    [undefined]). No match is tried at the end of the input, and an empty
    match where the current piece starts is passed over. [cur] is the current
    piece, reversed. *)
Fixpoint splitLoop (R : RegExp) (skip : nat) (cur pre suf : jstring)
    {struct suf} : list (option jstring) :=
  match suf with
  | [] => [Some (rev cur)]
  | c :: suf' =>
      match skip with
      | S n => splitLoop R n cur (c :: pre) suf'
      | O =>
          match matchAt R pre suf with
          | None => splitLoop R 0 (c :: cur) (c :: pre) suf'
          | Some y =>
              match matchLen pre y, cur with
              | O, [] => splitLoop R 0 [c] (c :: pre) suf'
              | O, _ :: _ =>
                  Some (rev cur) ::
                  map (fun g => getCap g (caps y)) (groups (source R)) ++
                  splitLoop R 0 [c] (c :: pre) suf'
              | S n, _ =>
                  Some (rev cur) ::
                  map (fun g => getCap g (caps y)) (groups (source R)) ++
                  splitLoop R n [] (c :: pre) suf'
              end
          end
      end
  end.

Definition splitRe (R : RegExp) (s : jstring) : list (option jstring) :=
  match s with
  | [] => match matchAt R [] [] with Some _ => [] | None => [Some []] end
  | _ => splitLoop R 0 [] [] s
  end.

(** ** Writing the patterns of the source *)

Declare Scope regex_scope.
Delimit Scope regex_scope with re.
Bind Scope regex_scope with regex.
Infix "+>" := Seq (at level 41, right associativity) : regex_scope.
Infix "<|>" := Alt (at level 42, right associativity) : regex_scope.
Local Open Scope string_scope.
Local Open Scope list_scope.
Local Open Scope N_scope.
Local Open Scope regex_scope.

Definition one (a : ascii) : char * char := (ch a, ch a).
Definition rg (a b : ascii) : char * char := (ch a, ch b).
Definition cls (rs : list (char * char)) : regex :=
  Chr {| cc_neg := false; cc_ranges := rs |}.
Definition ncls (rs : list (char * char)) : regex :=
  Chr {| cc_neg := true; cc_ranges := rs |}.
Definition c1 (a : ascii) : regex := cls [one a].

Fixpoint lit (s : string) : regex :=
  match s with
  | EmptyString => Eps
  | String a EmptyString => c1 a
  | String a s' => c1 a +> lit s'
  end.

(** [\s], [\d], [\w], [\n], [.] and [.] under the [s] flag. *)
Definition wsRanges : list (char * char) :=
  [(9, 13); (32, 32); (160, 160); (5760, 5760); (8192, 8202); (8232, 8233);
   (8239, 8239); (8287, 8287); (12288, 12288); (65279, 65279)]%N.
Definition wordRanges : list (char * char) :=
  [rg "a" "z"; rg "A" "Z"; rg "0" "9"; one "_"].
Definition ws : regex := cls wsRanges.
Definition dg : regex := cls [rg "0" "9"].
Definition nl : regex := cls [(LF, LF)].
Definition dot : regex := ncls [(10, 10); (13, 13); (8232, 8233)]%N.
Definition dotAll : regex := ncls [].

Definition star (a : regex) : regex := Rep 0 None true a.
Definition plus (a : regex) : regex := Rep 1 None true a.
Definition opt (a : regex) : regex := Rep 0 (Some 1%nat) true a.
Definition lazyStar (a : regex) : regex := Rep 0 None false a.
Definition lazyPlus (a : regex) : regex := Rep 1 None false a.
Definition rep (lo hi : nat) (a : regex) : regex := Rep lo (Some hi) true a.
Definition atLeast (lo : nat) (a : regex) : regex := Rep lo None true a.
Definition ahead (a : regex) : regex := Look true true a.
Definition notAhead (a : regex) : regex := Look true false a.
Definition behind (a : regex) : regex := Look false true a.

Definition re (r : regex) : RegExp := {| source := r; ignoreCase := false |}.
Definition rei (r : regex) : RegExp := {| source := r; ignoreCase := true |}.

(** The roman numerals of the source,
    [I{1,3}|IV|VI{0,3}|IX|XI{0,3}|XIV|XV|XVI{0,3}|XIX|XX[IVX]*], and their
    lower-case form. *)
Definition romanU : regex :=
  rep 1 3 (c1 "I") <|> lit "IV" <|> (c1 "V" +> rep 0 3 (c1 "I")) <|> lit "IX"
  <|> (c1 "X" +> rep 0 3 (c1 "I")) <|> lit "XIV" <|> lit "XV"
  <|> (lit "XV" +> rep 0 3 (c1 "I")) <|> lit "XIX"
  <|> (lit "XX" +> star (cls [one "I"; one "V"; one "X"])).
Definition romanL : regex :=
  rep 1 3 (c1 "i") <|> lit "iv" <|> (c1 "v" +> rep 0 3 (c1 "i")) <|> lit "ix"
  <|> (c1 "x" +> rep 0 3 (c1 "i")) <|> lit "xiv" <|> lit "xv"
  <|> (lit "xv" +> rep 0 3 (c1 "i")) <|> lit "xix"
  <|> (lit "xx" +> star (cls [one "i"; one "v"; one "x"])).

Definition upper : regex := cls [rg "A" "Z"].
Definition lower : regex := cls [rg "a" "z"].
Definition ivx : regex := cls [one "I"; one "V"; one "X"].

(** A split by a pattern without capture groups yields pieces only; with
    groups, [splitRe] keeps the captures among them. *)
Definition splitText (R : RegExp) (s : jstring) : list jstring :=
  flat_map (fun p => match p with Some t => [t] | None => [] end) (splitRe R s).

(** ** Numbers *)

(** A JavaScript number is an IEEE 754 binary64 value. *)
Definition number := spec_float.
Definition prec : Z := 53.
Definition emax : Z := 1024.
Definition ofNat (n : nat) : number := binary_normalize prec emax (Z.of_nat n) 0 false.
Definition fdiv : number -> number -> number := SFdiv prec emax.
Definition fmul : number -> number -> number := SFmul prec emax.
Definition fadd : number -> number -> number := SFadd prec emax.
(** [a >= b], [a > b]: false when either side is NaN. *)
Definition fge (a b : number) : bool := SFleb b a.
Definition fgt (a b : number) : bool := SFltb b a.
(** The decimal literal [n / 10^k] of the source: the nearest double. *)
Definition decimal (n : nat) (d : nat) : number := fdiv (ofNat n) (ofNat d).
Definition zero : number := S754_zero false.
Definition unity : number := ofNat 1.

(** ** The text normalizer *)

(** The callback of [map] in [normalizeText]. *)
Definition normalizeChar (code : char) : char :=
  if ((9 <=? code) && (code <=? 13) && negb (code =? 10) && negb (code =? 13))
     || (code =? 32) || (code =? 160) || (code =? 5760)
     || ((8192 <=? code) && (code <=? 8202))
     || (code =? 8239) || (code =? 8287) || (code =? 12288) || (code =? 65279)
  then SP else code.

(** "/ +/g" *)
Definition reSpaces : RegExp := re (plus (c1 " ")).

Definition normalizeText (text : jstring) : jstring :=
  match text with
  | [] => text
  | _ =>
      let result := map normalizeChar text in
      let result := replaceAll reSpaces [Lit (js " ")] result in
      let result := join [LF] (map trim (splitChar LF result)) in
      trim result
  end.

(** The patterns of [removePageNumbers], in the order of the source. *)
Definition digits14 : regex := rep 1 4 dg.

(** "/\n\s*(\d{1,4})\s*\n(?!\s*\d+\.)/g" *)
Definition rePage1 : RegExp :=
  re (nl +> star ws +> Grp 1 digits14 +> star ws +> nl
      +> notAhead (star ws +> plus dg +> c1 ".")).
(** "/\.\s*\n\s*(\d{1,4})\s*\n/g" *)
Definition rePage2 : RegExp :=
  re (c1 "." +> star ws +> nl +> star ws +> Grp 1 digits14 +> star ws +> nl).
(** "/\n\s*(\d{1,4})\s*\n\s*\n\s*(THIS|WHEREAS|BETWEEN|PARTIES)/gi" *)
Definition rePage3 : RegExp :=
  rei (nl +> star ws +> Grp 1 digits14 +> star ws +> nl +> star ws +> nl
       +> star ws
       +> Grp 2 (lit "THIS" <|> lit "WHEREAS" <|> lit "BETWEEN" <|> lit "PARTIES")).
(** "/\n\s*Page\s+\d+(\s+of\s+\d+)?\s*\n/gi" *)
Definition rePage4 : RegExp :=
  rei (nl +> star ws +> lit "Page" +> plus ws +> plus dg
       +> opt (Grp 1 (plus ws +> lit "of" +> plus ws +> plus dg))
       +> star ws +> nl).
(** "/\n\s*[\[\(]\d{1,4}[\]\)]\s*\n/g" *)
Definition rePage5 : RegExp :=
  re (nl +> star ws +> cls [one "["; one "("] +> digits14
      +> cls [one "]"; one ")"] +> star ws +> nl).
(** "/\n\s*-\s*\d{1,4}\s*-\s*\n/g" *)
Definition rePage6 : RegExp :=
  re (nl +> star ws +> c1 "-" +> star ws +> digits14 +> star ws +> c1 "-"
      +> star ws +> nl).
(** "/\n\s*(\d{1,4})\s*\n(?=\s*[A-Z]{2,})/g" *)
Definition rePage7 : RegExp :=
  re (nl +> star ws +> Grp 1 digits14 +> star ws +> nl
      +> ahead (star ws +> atLeast 2 upper)).
(** "/\n{3,}/g" *)
Definition reNewlines : RegExp := re (atLeast 3 nl).

Definition nlnl : jstring := [LF; LF].

Definition removePageNumbers (text : jstring) : jstring :=
  let cleaned := replaceAll rePage1 [Lit nlnl] text in
  let cleaned := replaceAll rePage2 [Lit (ch "." :: nlnl)] cleaned in
  let cleaned := replaceAll rePage3 [Lit nlnl; Ref 2] cleaned in
  let cleaned := replaceAll rePage4 [Lit nlnl] cleaned in
  let cleaned := replaceAll rePage5 [Lit nlnl] cleaned in
  let cleaned := replaceAll rePage6 [Lit nlnl] cleaned in
  let cleaned := replaceAll rePage7 [Lit nlnl] cleaned in
  let cleaned := replaceAll reNewlines [Lit nlnl] cleaned in
  cleaned.

(** ** The numbering schema registry *)

Record NumberingSchema := {
  mainClause : jstring;
  subClause1 : jstring;
  subClause2 : jstring;
  subClause3 : option jstring
}.

(** A table of the source is an object literal, [Record<string, RegExp>],
    read with [patterns[key] || null]. Beside the keys written in it, the
    object has the properties that it inherits from [Object.prototype]. *)
Definition prototypeKeys : list string :=
  [ "constructor"; "hasOwnProperty"; "isPrototypeOf"; "propertyIsEnumerable";
    "toLocaleString"; "toString"; "valueOf";
    "__defineGetter__"; "__defineSetter__"; "__lookupGetter__"; "__lookupSetter__";
    "__proto__" ].

Definition isPrototypeKey (key : jstring) : bool :=
  existsb (jstring_eqb key) (map js prototypeKeys).

(** What the lookup gives when it is not [null]: the value written in the
    table, or the value of [Object.prototype] under the key. The inherited
    values are built-in functions and, under "__proto__", the prototype
    itself: they are truthy, they are no regular expressions, and they have
    neither a [test] method nor a [Symbol.split] method. *)
Inductive entry (A : Type) :=
| Own (v : A)
| Inherited (key : jstring).
Arguments Own {A} v.
Arguments Inherited {A} key.

Fixpoint lookup {A : Type} (key : jstring) (table : list (string * A))
    : option (entry A) :=
  match table with
  | [] => if isPrototypeKey key then Some (Inherited key) else None
  | (k, v) :: table' => if jstring_eqb (js k) key then Some (Own v) else lookup key table'
  end.

(** [String(f)] for a built-in function [f]. The text is left to the runtime
    within the syntax [function name() { [native code] }]: the words
    "function", "native" and "code" in this order, and after each of them
    what the runtime writes. *)
Record FunctionText := {
  afterFunction : jstring;
  afterNative : jstring;
  afterCode : jstring
}.

Definition functionString (f : FunctionText) : jstring :=
  js "function" ++ afterFunction f ++ js "native" ++ afterNative f
  ++ js "code" ++ afterCode f.

(** The table of [getSchemaRegex]: the header patterns. *)
Definition schemaRegexTable : list (string * RegExp) :=
  [ ("numeric", re (Bol +> Grp 1 (plus dg) +> c1 "." +> plus ws));
    ("numeric-paren", re (Bol +> Grp 1 (plus dg) +> c1 ")" +> plus ws));
    ("decimal", re (Bol +> Grp 1 (plus dg +> c1 "." +> plus dg) +> plus ws));
    ("alpha-upper", re (Bol +> Grp 1 upper +> c1 "." +> plus ws));
    ("alpha-lower", re (Bol +> Grp 1 lower +> c1 "." +> plus ws));
    ("alpha-lower-paren", re (Bol +> Grp 1 lower +> c1 ")" +> plus ws));
    ("roman-upper", re (Bol +> Grp 1 romanU +> c1 "." +> plus ws));
    ("roman-lower", re (Bol +> Grp 1 romanL +> c1 "." +> plus ws));
    ("roman-upper-paren", re (Bol +> Grp 1 romanU +> c1 ")" +> plus ws));
    ("roman-lower-paren", re (Bol +> Grp 1 romanL +> c1 ")" +> plus ws));
    ("paren-numeric", re (Bol +> c1 "(" +> Grp 1 (plus dg) +> c1 ")" +> plus ws));
    ("paren-alpha", re (Bol +> c1 "(" +> Grp 1 lower +> c1 ")" +> plus ws));
    ("paren-roman-upper", re (Bol +> c1 "(" +> Grp 1 romanU +> c1 ")" +> plus ws));
    ("paren-roman-lower", re (Bol +> c1 "(" +> Grp 1 romanL +> c1 ")" +> plus ws));
    ("section", rei (Bol +> lit "Section" +> plus ws +> Grp 1 (plus dg) +> c1 "."));
    ("section-decimal",
      rei (Bol +> lit "Section" +> plus ws +> Grp 1 (plus dg) +> c1 "." +> notAhead dg));
    ("article",
      rei (Bol +> (lit "Article" <|> lit "ARTICLE") +> plus ws
           +> Grp 1 (plus ivx <|> plus dg)));
    ("decimal-zero", re (Bol +> Grp 1 (plus dg) +> lit ".0" +> plus ws));
    ("decimal-triple",
      re (Bol +> Grp 1 (plus dg +> c1 "." +> plus dg +> c1 "." +> plus dg) +> plus ws)) ].

Definition getSchemaRegex (schemaType : jstring) : option (entry RegExp) :=
  lookup schemaType schemaRegexTable.

(** The common head of the split patterns,
    [(?:\n\s*|(?<=\.\s{1,3})|(?<=;\s{1,3}))], and the one of the two section
    patterns, which adds [(?<=\s{2,})]. *)
Definition boundary : regex :=
  (nl +> star ws) <|> behind (c1 "." +> rep 1 3 ws) <|> behind (c1 ";" +> rep 1 3 ws).
Definition boundarySection : regex :=
  (nl +> star ws) <|> behind (c1 "." +> rep 1 3 ws) <|> behind (c1 ";" +> rep 1 3 ws)
  <|> behind (atLeast 2 ws).

(** The table of [getSchemaSplitRegex]: each pattern is the boundary followed
    by a lookahead on the clause marker. *)
Definition schemaSplitTable : list (string * RegExp) :=
  [ ("numeric", re (boundary +> ahead (plus dg +> c1 "." +> plus ws +> upper)));
    ("numeric-paren", re (boundary +> ahead (plus dg +> c1 ")" +> plus ws +> upper)));
    ("decimal",
      re (boundary +> ahead (plus dg +> c1 "." +> plus dg +> plus ws +> upper)));
    ("alpha-upper", re (boundary +> ahead (upper +> c1 "." +> plus ws +> upper)));
    ("alpha-lower", re (boundary +> ahead (lower +> c1 "." +> plus ws +> upper)));
    ("alpha-lower-paren", re (boundary +> ahead (lower +> c1 ")" +> plus ws +> upper)));
    ("roman-upper",
      re (boundary +> ahead (Grp 1 romanU +> c1 "." +> plus ws +> upper)));
    ("roman-lower", re (boundary +> ahead (Grp 1 romanL +> c1 "." +> plus ws)));
    ("roman-upper-paren",
      re (boundary +> ahead (Grp 1 romanU +> c1 ")" +> plus ws +> upper)));
    ("roman-lower-paren", re (boundary +> ahead (Grp 1 romanL +> c1 ")" +> plus ws)));
    ("paren-numeric", re (boundary +> ahead (c1 "(" +> plus dg +> c1 ")" +> plus ws)));
    ("paren-alpha", re (boundary +> ahead (c1 "(" +> lower +> c1 ")" +> plus ws)));
    ("paren-roman-upper",
      re (boundary +> ahead (c1 "(" +> Grp 1 romanU +> c1 ")" +> plus ws)));
    ("paren-roman-lower",
      re (boundary +> ahead (c1 "(" +> Grp 1 romanL +> c1 ")" +> plus ws)));
    ("section",
      rei (boundarySection +> ahead (lit "Section" +> plus ws +> plus dg +> c1 ".")));
    ("section-decimal",
      rei (boundarySection
           +> ahead (lit "Section" +> plus ws +> plus dg +> c1 "." +> notAhead dg)));
    ("article",
      re (boundary
          +> ahead ((lit "Article" <|> lit "ARTICLE") +> plus ws +> (plus ivx <|> plus dg))));
    ("decimal-zero", re (boundary +> ahead (plus dg +> lit ".0" +> plus ws +> upper))) ].

Definition getSchemaSplitRegex (schemaType : jstring) : option (entry RegExp) :=
  lookup schemaType schemaSplitTable.

(** ** Records of the engine *)

Record ExtractedClause := {
  clause_type : jstring;
  clause_text : jstring;
  clause_no : jstring;
  preferred_position : jstring;
  party_role : jstring;
  complexity : Z;
  balance : Z;
  matched_from_repository : bool;
  similarity_score : number
}.

(** The fields of a repository [Clause] that the engine reads. *)
Module Repo.
Record Clause := {
  id : jstring;
  clause_type : jstring;
  clause_text : jstring
}.
End Repo.

Record RepositoryMatch := {
  clauseType : jstring;
  score : number;
  matchedClauseId : jstring
}.

(** [new Set(words)]: the distinct elements, in the order of insertion. *)
Definition has (set : list jstring) (w : jstring) : bool :=
  existsb (jstring_eqb w) set.

Fixpoint addAll (set words : list jstring) : list jstring :=
  match words with
  | [] => set
  | w :: words' => addAll (if has set w then set else set ++ [w]) words'
  end.

Definition newSet (words : list jstring) : list jstring := addAll [] words.

(** "/[^\w\s]/g", then "/\s+/" and "/\s+/g" *)
Definition rePunct : RegExp :=
  re (ncls (wordRanges ++ wsRanges)).
Definition reWs : RegExp := re (plus ws).

(** The result of an extraction that may stop on a [TypeError]. *)
Inductive outcome (A : Type) :=
| Returned (a : A)
| Threw.
Arguments Returned {A} a.
Arguments Threw {A}.

Section Extractor.

(** [String.prototype.toLowerCase], with the case tables of the runtime. *)
Variable toLowerCase : jstring -> jstring.

(** The text that the runtime gives for the built-in function that
    [Object.prototype] has under a key. *)
Variable functionText : jstring -> FunctionText.

(** *** Similarity *)

Definition similarityWords (text : jstring) : list jstring :=
  filter (fun w => Nat.ltb 2 (length w))
         (splitText reWs (replaceAll rePunct [Lit (js " ")] (toLowerCase text))).

Definition jaccard (set1 set2 : list jstring) : number :=
  if Nat.eqb (length set1) 0 || Nat.eqb (length set2) 0 then zero
  else
    let intersection := newSet (filter (has set2) set1) in
    let union := newSet (set1 ++ set2) in
    fdiv (ofNat (length intersection)) (ofNat (length union)).

Definition calculateTextSimilarity (text1 text2 : jstring) : number :=
  let words1 := newSet (similarityWords text1) in
  let words2 := newSet (similarityWords text2) in
  jaccard words1 words2.

Definition getNGrams (n : nat) (text : jstring) : list jstring :=
  let normalized :=
    trim (replaceAll reWs [Lit (js " ")]
            (replaceAll rePunct [Lit (js " ")] (toLowerCase text))) in
  let words := filter (fun w => Nat.ltb 0 (length w)) (splitChar SP normalized) in
  newSet (map (fun i => join [SP] (firstn n (skipn i words)))
              (seq 0 (S (length words) - n))).

Definition calculateNGramSimilarity (text1 text2 : jstring) (n : nat) : number :=
  let ngrams1 := getNGrams n text1 in
  let ngrams2 := getNGrams n text2 in
  jaccard ngrams1 ngrams2.

(** *** The repository matcher *)

Definition isGenericType (t : jstring) : bool :=
  jstring_eqb t (js "General Clause") || jstring_eqb t (js "Other").

(** [combinedScore] in the loop of [matchClauseFromRepository]:
    "(wordSimilarity * 0.4) + (ngramSimilarity * 0.6)" *)
Definition combinedScore (clauseText : jstring) (repoClause : Repo.Clause) : number :=
  let wordSimilarity := calculateTextSimilarity clauseText (Repo.clause_text repoClause) in
  let ngramSimilarity := calculateNGramSimilarity clauseText (Repo.clause_text repoClause) 3 in
  fadd (fmul wordSimilarity (decimal 4 10)) (fmul ngramSimilarity (decimal 6 10)).

(** One turn of the loop of [matchClauseFromRepository]. *)
Definition matchStep (clauseText : jstring) (threshold : number)
    (bestMatch : option RepositoryMatch) (repoClause : Repo.Clause)
    : option RepositoryMatch :=
  if Nat.ltb (length (Repo.clause_text repoClause)) 50 then bestMatch
  else if isGenericType (Repo.clause_type repoClause) then bestMatch
  else
    let combined := combinedScore clauseText repoClause in
    if fge combined threshold
       && match bestMatch with
          | None => true
          | Some b => fgt combined (score b)
          end
    then Some {| clauseType := Repo.clause_type repoClause;
                 score := combined;
                 matchedClauseId := Repo.id repoClause |}
    else bestMatch.

Definition matchClauseFromRepository (clauseText : jstring)
    (repositoryClauses : list Repo.Clause) (threshold : number)
    : option RepositoryMatch :=
  match repositoryClauses with
  | [] => None
  | _ => fold_left (matchStep clauseText threshold) repositoryClauses None
  end.

(** [groupClausesByType]: a [Map] keeps its keys in the order of insertion. *)
Fixpoint groupInsert (clause : Repo.Clause)
    (grouped : list (jstring * list Repo.Clause)) : list (jstring * list Repo.Clause) :=
  match grouped with
  | [] => [(Repo.clause_type clause, [clause])]
  | (t, existing) :: grouped' =>
      if jstring_eqb t (Repo.clause_type clause)
      then (t, existing ++ [clause]) :: grouped'
      else (t, existing) :: groupInsert clause grouped'
  end.

Definition groupClausesByType (clauses : list Repo.Clause)
    : list (jstring * list Repo.Clause) :=
  fold_left (fun grouped clause => groupInsert clause grouped) clauses [].

(** [score] in the inner loop of [findBestClauseTypeMatch]:
    "(wordSim * 0.35) + (ngramSim * 0.65)" *)
Definition typeScore (clauseText : jstring) (repoClause : Repo.Clause) : number :=
  let wordSim := calculateTextSimilarity clauseText (Repo.clause_text repoClause) in
  let ngramSim := calculateNGramSimilarity clauseText (Repo.clause_text repoClause) 2 in
  fadd (fmul wordSim (decimal 35 100)) (fmul ngramSim (decimal 65 100)).

(** The inner loop of [findBestClauseTypeMatch], on [(maxScore, bestClauseId)]. *)
Definition typeScoreStep (clauseText : jstring) (acc : number * jstring)
    (repoClause : Repo.Clause) : number * jstring :=
  if Nat.ltb (length (Repo.clause_text repoClause)) 30 then acc
  else
    let score := typeScore clauseText repoClause in
    if fgt score (fst acc) then (score, Repo.id repoClause) else acc.

(** The outer loop of [findBestClauseTypeMatch]. *)
Definition typeMatchStep (clauseText : jstring) (threshold : number)
    (bestMatch : option RepositoryMatch) (group : jstring * list Repo.Clause)
    : option RepositoryMatch :=
  let '(clauseType, clauses) := group in
  if isGenericType clauseType then bestMatch
  else
    let '(maxScore, bestClauseId) :=
      fold_left (typeScoreStep clauseText) clauses (zero, []) in
    if fge maxScore threshold
       && match bestMatch with
          | None => true
          | Some b => fgt maxScore (score b)
          end
    then Some {| clauseType := clauseType; score := maxScore;
                 matchedClauseId := bestClauseId |}
    else bestMatch.

Definition findBestClauseTypeMatch (clauseText : jstring)
    (repositoryClauses : list Repo.Clause) (threshold : number)
    : option RepositoryMatch :=
  fold_left (typeMatchStep clauseText threshold)
            (groupClausesByType repositoryClauses) None.

(** *** The miscellaneous-section expander *)

Definition commonClauseTypes : list string :=
  [ "Document Name"; "Parties"; "Agreement Date"; "Effective Date";
    "Expiration Date"; "Renewal Term"; "Notice Period"; "Governing Law";
    "Most Favored Nation"; "Competitive Restriction"; "Non-Compete";
    "Exclusivity"; "No-Solicit"; "Non-Disparagement"; "Termination";
    "Rofr/Rofo/Rofn"; "Change of Control"; "Anti-Assignment";
    "Revenue/Profit Sharing"; "Price Restrictions"; "Minimum Commitment";
    "Volume Restriction"; "Ip Ownership"; "License Grant"; "Source Code Escrow";
    "Post-Termination Services"; "Audit Rights"; "Liability Cap";
    "Liquidated Damages"; "Warranty Duration"; "Insurance";
    "Covenant Not To Sue"; "Third Party Beneficiary"; "Indemnification";
    "Confidentiality"; "Force Majeure"; "Payment Terms"; "Dispute Resolution";
    "Severability"; "Amendment"; "Modification"; "Waiver"; "Entire Agreement";
    "Counterparts" ].

Definition isMiscellaneousOrGeneralSection (clauseNo : jstring) : bool :=
  let lower := toLowerCase clauseNo in
  includes lower (js "miscellaneous") || includes lower (js "general").

(** A type or [null]; as a condition, [null] and the empty string are false. *)
Definition truthy (t : option jstring) : bool :=
  match t with
  | Some (_ :: _) => true
  | _ => false
  end.

Definition detectMiscellaneousSubclauseType (text : jstring) : option jstring :=
  let lowerText := toLowerCase text in
  let inc := fun k : string => includes lowerText (js k) in
  if inc "governing law" || (inc "state" && inc "laws")
     || (inc "construed" && inc "laws") || inc "governed by the laws"
  then Some (js "Governing Law")
  else if inc "counterpart" then Some (js "Counterparts")
  else if inc "amended" || inc "modified" || inc "amendment" || inc "modification"
  then Some (js "Modification")
  else if inc "entire agreement" || inc "entire understanding"
          || (inc "constitutes the entire" && inc "agreement")
  then Some (js "Entire Agreement")
  else if inc "severability" || inc "severable" || (inc "invalid" && inc "provision")
          || (inc "unenforceable" && inc "provision")
  then Some (js "Severability")
  else if inc "waiver" || inc "waive" then Some (js "Waiver")
  else if inc "notice" && (inc "shall be" || inc "given") then Some (js "Notice Period")
  else if inc "assignment" || inc "assign" then Some (js "Anti-Assignment")
  else if inc "successors" && inc "assigns" then Some (js "Anti-Assignment")
  else None.

(** "/(?=(?:Section\s+)?\d+\.\d+[\s.:])/gi" *)
Definition reSectionDecimal : RegExp :=
  rei (ahead (opt (lit "Section" +> plus ws) +> plus dg +> c1 "." +> plus dg
              +> cls (wsRanges ++ [one "."; one ":"]))).
(** "/(?=\([a-z0-9]\)\s+)/gi" *)
Definition reParen : RegExp :=
  rei (ahead (c1 "(" +> cls [rg "a" "z"; rg "0" "9"] +> c1 ")" +> plus ws)).
(** "/\n\s*\n/" *)
Definition reBlankLine : RegExp := re (nl +> star ws +> nl).
(** "/^(?:Section\s+)?(\d+\.\d+)[\s.:]+(.+)$/si" *)
Definition reSubRef : RegExp :=
  rei (Bol +> opt (lit "Section" +> plus ws) +> Grp 1 (plus dg +> c1 "." +> plus dg)
       +> plus (cls (wsRanges ++ [one "."; one ":"])) +> Grp 2 (plus dotAll) +> Eol).

(** The body of the loop of [extractSubclausesFromMiscellaneous]: what one
    sub-block pushes. *)
Definition subclauseOf (parentClauseNo : jstring)
    (repositoryClauses : list Repo.Clause) (subBlock : jstring)
    : list ExtractedClause :=
  let trimmedSub := trim subBlock in
  if Nat.ltb (length trimmedSub) 30 then []
  else
    let subclauseType := detectMiscellaneousSubclauseType trimmedSub in
    let subclauseType :=
      if negb (truthy subclauseType) && Nat.ltb 0 (length repositoryClauses) then
        match findBestClauseTypeMatch trimmedSub repositoryClauses (decimal 12 100) with
        | Some repoMatch =>
            if fgt (score repoMatch) (decimal 15 100)
            then Some (clauseType repoMatch) else subclauseType
        | None => subclauseType
        end
      else subclauseType in
    match subclauseType with
    | Some ((_ :: _) as subclauseType) =>
        let subclauseText :=
          match matchFirst reSubRef trimmedSub with
          | Some (whole, _) => whole
          | None => trimmedSub
          end in
        [ {| clause_type := subclauseType;
             clause_no := parentClauseNo;
             clause_text := normalizeText subclauseText;
             preferred_position := js "Standard legal position for " ++ subclauseType;
             party_role := js "Neutral";
             complexity := 5;
             balance := 0;
             matched_from_repository := false;
             similarity_score := zero |} ]
    | _ => []
    end.

Definition longerThan (n : nat) (b : jstring) : bool := Nat.ltb n (length (trim b)).

Definition extractSubclausesFromMiscellaneous (parentClauseNo blockText : jstring)
    (repositoryClauses : list Repo.Clause) : list ExtractedClause :=
  let subBlocks := filter (longerThan 20) (splitText reSectionDecimal blockText) in
  let subBlocks :=
    if Nat.ltb (length subBlocks) 2
    then filter (longerThan 20) (splitText reParen blockText)
    else subBlocks in
  let subBlocks :=
    if Nat.ltb (length subBlocks) 2
    then filter (longerThan 30) (splitText reBlankLine blockText)
    else subBlocks in
  flat_map (subclauseOf parentClauseNo repositoryClauses) subBlocks.

(** *** The schema detector *)

(** A candidate of [detectNumberingSchema]: [{ regex, type, splitRegex }]. *)
Record candidate := {
  cand_regex : RegExp;
  cand_type : jstring;
  cand_splitRegex : RegExp
}.

(** The array [patterns] of [detectNumberingSchema], in its order:
    roman numerals before an upper-case title, [Section N.], [Article N],
    [ARTICLE] with a roman numeral, a number before an upper-case title. *)
Definition patterns : list candidate :=
  [ {| cand_regex :=
         re (nl +> star ws +> Grp 1 romanU +> c1 "." +> plus ws +> upper
             +> cls (rg "A" "Z" :: wsRanges));
       cand_type := js "roman";
       cand_splitRegex :=
         re (nl +> star ws +> ahead (Grp 1 romanU +> c1 "." +> plus ws +> upper)) |};
    {| cand_regex := rei (nl +> star ws +> lit "Section" +> plus ws +> Grp 1 (plus dg) +> c1 ".");
       cand_type := js "section";
       cand_splitRegex :=
         rei (nl +> star ws +> ahead (lit "Section" +> plus ws +> plus dg +> c1 ".")) |};
    {| cand_regex := rei (nl +> star ws +> lit "Article" +> plus ws +> Grp 1 (plus dg));
       cand_type := js "article";
       cand_splitRegex :=
         rei (nl +> star ws +> ahead (lit "Article" +> plus ws +> plus dg)) |};
    {| cand_regex := re (nl +> star ws +> lit "ARTICLE" +> plus ws +> Grp 1 (plus ivx));
       cand_type := js "article-roman";
       cand_splitRegex :=
         re (nl +> star ws +> ahead (lit "ARTICLE" +> plus ws +> plus ivx)) |};
    {| cand_regex :=
         re (nl +> star ws +> Grp 1 (plus dg) +> c1 "." +> plus ws +> upper
             +> atLeast 3 (cls (rg "A" "Z" :: wsRanges)));
       cand_type := js "numeric";
       cand_splitRegex :=
         re (nl +> star ws +> ahead (plus dg +> c1 "." +> plus ws +> upper +> upper)) |} ].

(** [patterns[0]] *)
Definition firstPattern : candidate :=
  match patterns with
  | p :: _ => p
  | [] => {| cand_regex := re Eps; cand_type := []; cand_splitRegex := re Eps |}
  end.

(** [text.match(p.regex)] with the [g] flag, counted. *)
Definition countMatches (p : candidate) (text : jstring) : nat :=
  length (matchAll (cand_regex p) text).

(** The loop of [detectNumberingSchema] on [(bestPattern, maxCount)]. *)
Definition detectStep (text : jstring) (acc : candidate * nat) (p : candidate)
    : candidate * nat :=
  let count := countMatches p text in
  if Nat.ltb (snd acc) count then (p, count) else acc.

(** The result [{ pattern, type }] as a pair. *)
Definition detectNumberingSchema (text : jstring) : RegExp * jstring :=
  let '(bestPattern, maxCount) := fold_left (detectStep text) patterns (firstPattern, 0%nat) in
  let bestPattern := if Nat.ltb maxCount 2 then firstPattern else bestPattern in
  (cand_splitRegex bestPattern, cand_type bestPattern).

(** *** The clause-number parser *)

(** A group of a match that took part in it. *)
Definition group (n : nat) (m : jstring * list (nat * option jstring)) : jstring :=
  match getCap n (snd m) with
  | Some v => v
  | None => []
  end.

Definition numberHead : regex := plus dg <|> plus ivx <|> upper.
Definition titleEnd : regex := (c1 "." +> star ws) <|> (nl +> star ws).

(** "/^((?:\d+|[IVX]+|[A-Z])\.\s*[^\n.]+?)(?:\.\s*|\n\s*)(.+)$/s" *)
Definition reNumberedWithTitle : RegExp :=
  re (Bol +> Grp 1 (numberHead +> c1 "." +> star ws +> lazyPlus (ncls [(LF, LF); one "."]))
      +> titleEnd +> Grp 2 (plus dotAll) +> Eol).
(** "/^((?:Section|Article|ARTICLE|Clause)\s+(?:\d+|[IVX]+)\.?\s*[^\n.]*?)(?:\.\s*|\n\s*)(.+)$/si" *)
Definition reSectionTitle : RegExp :=
  rei (Bol
       +> Grp 1 ((lit "Section" <|> lit "Article" <|> lit "ARTICLE" <|> lit "Clause")
                 +> plus ws +> (plus dg <|> plus ivx) +> opt (c1 ".") +> star ws
                 +> lazyStar (ncls [(LF, LF); one "."]))
       +> titleEnd +> Grp 2 (plus dotAll) +> Eol).
(** "/^((?:\d+|[IVX]+|[A-Z])\.)\s*(.+)$/s" *)
Definition reSimpleNumber : RegExp :=
  re (Bol +> Grp 1 (numberHead +> c1 ".") +> star ws +> Grp 2 (plus dotAll) +> Eol).
(** "/^([A-Z][A-Z\s]{3,50})(?:\.\s*|\n\s*)(.+)$/s" *)
Definition reAllCapsTitle : RegExp :=
  re (Bol +> Grp 1 (upper +> rep 3 50 (cls (rg "A" "Z" :: wsRanges)))
      +> titleEnd +> Grp 2 (plus dotAll) +> Eol).

(** The result [{ clause_no, body_text }] as a pair. *)
Definition parseClauseNumber (block : jstring) : jstring * jstring :=
  let trimmed := trim block in
  match matchFirst reNumberedWithTitle trimmed with
  | Some numberedWithTitleMatch =>
      (trim (group 1 numberedWithTitleMatch), trim (group 2 numberedWithTitleMatch))
  | None =>
  match matchFirst reSectionTitle trimmed with
  | Some sectionMatch => (trim (group 1 sectionMatch), trim (group 2 sectionMatch))
  | None =>
  match matchFirst reSimpleNumber trimmed with
  | Some simpleNumberMatch =>
      let number := group 1 simpleNumberMatch in
      let tail := group 2 simpleNumberMatch in
      let untitled := (number, trim tail) in
      match indexOfChar LF tail with
      | Some firstLineEnd =>
          if Nat.ltb 0 firstLineEnd && Nat.ltb firstLineEnd 100 then
            let firstLine := trim (substring 0 firstLineEnd tail) in
            let rest := trim (substringFrom firstLineEnd tail) in
            if Nat.ltb (length firstLine) 80 && Nat.ltb 0 (length rest)
            then (number ++ js " " ++ firstLine, rest)
            else untitled
          else untitled
      | None => untitled
      end
  | None =>
  match matchFirst reAllCapsTitle trimmed with
  | Some allCapsMatch => (trim (group 1 allCapsMatch), trim (group 2 allCapsMatch))
  | None => ([], trimmed)
  end end end end.

(** *** The header-title heuristic *)

(** The object [mappings] of [cleanTitle], in the order of its keys. *)
Definition mappings : list (string * string) :=
  [ ("indemnity", "Indemnification"); ("indemnification", "Indemnification");
    ("limitation of liability", "Liability Cap"); ("liability", "Liability Cap");
    ("confidentiality", "Confidentiality"); ("proprietary", "Confidentiality");
    ("termination", "Termination"); ("term", "Termination");
    ("force majeure", "Force Majeure"); ("intellectual property", "Ip Ownership");
    ("ip", "Ip Ownership"); ("ownership", "Ip Ownership");
    ("warranty", "Warranty Duration"); ("guarantee", "Warranty Duration");
    ("payment", "Payment Terms"); ("fee", "Payment Terms");
    ("non-compete", "Non-Compete"); ("noncompete", "Non-Compete");
    ("governing law", "Governing Law"); ("law", "Governing Law");
    ("assignment", "Anti-Assignment"); ("transfer", "Anti-Assignment");
    ("notice", "Notice Period"); ("most favored nation", "Most Favored Nation");
    ("exclusivity", "Exclusivity"); ("solicit", "No-Solicit");
    ("disparage", "Non-Disparagement"); ("rofr", "Rofr/Rofo/Rofn");
    ("rofo", "Rofr/Rofo/Rofn"); ("refusal", "Rofr/Rofo/Rofn");
    ("change of control", "Change of Control"); ("revenue", "Revenue/Profit Sharing");
    ("profit", "Revenue/Profit Sharing"); ("sharing", "Revenue/Profit Sharing");
    ("commitment", "Minimum Commitment"); ("restriction", "Volume Restriction");
    ("license", "License Grant"); ("escrow", "Source Code Escrow");
    ("audit", "Audit Rights"); ("liquidated", "Liquidated Damages");
    ("insurance", "Insurance"); ("effective", "Effective Date");
    ("expiration", "Expiration Date"); ("renewal", "Renewal Term") ].

Definition cleanTitle (title : jstring) : jstring :=
  let trimmed := trim title in
  if Nat.ltb 50 (length trimmed) then substring 0 47 trimmed ++ js "..."
  else
    let lower := toLowerCase trimmed in
    match find (fun kv => includes lower (js (fst kv))) mappings with
    | Some (_, value) => js value
    | None => trimmed
    end.

Definition headStart : regex := plus dg <|> upper <|> plus ivx.
Definition notLineEnd : regex := ncls [(LF, LF); one "."].

(** "/^([0-9]+|[A-Z]|[IVX]+)\.\s+([A-Z][A-Za-z\s,\/\(\)]{3,100})(?:\n|\.|\s{2,}|$|(?=\s+[0-9]+\.[0-9]+))/" *)
Definition reNumberedHeader : RegExp :=
  re (Bol +> Grp 1 headStart +> c1 "." +> plus ws
      +> Grp 2 (upper
                +> rep 3 100 (cls ([rg "A" "Z"; rg "a" "z"] ++ wsRanges
                                   ++ [one ","; one "/"; one "("; one ")"])))
      +> (nl <|> c1 "." <|> atLeast 2 ws <|> Eol
          <|> ahead (plus ws +> plus dg +> c1 "." +> plus dg))).
(** "/^([0-9]+|[A-Z]|[IVX]+)\.\s+([^\n.]+)(?:\n|\.|$)/" *)
Definition reSimpleNumbered : RegExp :=
  re (Bol +> Grp 1 headStart +> c1 "." +> plus ws +> Grp 2 (plus notLineEnd)
      +> (nl <|> c1 "." <|> Eol)).
(** "/^(?:Section|Article|Clause)\s+[0-9A-ZIVX]+\.?\s*([^\n.]+)?(?:\n|\.|$)/i" *)
Definition reSectionHeader : RegExp :=
  rei (Bol +> (lit "Section" <|> lit "Article" <|> lit "Clause") +> plus ws
       +> plus (cls [rg "0" "9"; rg "A" "Z"; one "I"; one "V"; one "X"])
       +> opt (c1 ".") +> star ws +> opt (Grp 1 (plus notLineEnd))
       +> (nl <|> c1 "." <|> Eol)).
(** "/^([A-Z\s]{4,})(?:\n|$)/" *)
Definition reAllCapsHeader : RegExp :=
  re (Bol +> Grp 1 (atLeast 4 (cls (rg "A" "Z" :: wsRanges))) +> (nl <|> Eol)).

Definition titleLength (potTitle : jstring) : bool :=
  Nat.ltb 2 (length potTitle) && Nat.ltb (length potTitle) 100.

(** The second, third and fourth attempts of [parseHeader]: the title each
    returns, if it does. *)
Definition simpleNumberedTitle (block : jstring) : option jstring :=
  match matchFirst reSimpleNumbered block with
  | Some simpleNumberedMatch =>
      let potTitle := trim (group 2 simpleNumberedMatch) in
      if titleLength potTitle then Some (cleanTitle potTitle) else None
  | None => None
  end.

Definition sectionTitle (block : jstring) : option jstring :=
  match matchFirst reSectionHeader block with
  | Some sectionMatch =>
      match getCap 1 (snd sectionMatch) with
      | Some ((_ :: _) as title) =>
          let potTitle := trim title in
          if titleLength potTitle then Some (cleanTitle potTitle) else None
      | _ => None
      end
  | None => None
  end.

Definition allCapsTitle (block : jstring) : option jstring :=
  match matchFirst reAllCapsHeader block with
  | Some allCapsMatch => Some (cleanTitle (group 1 allCapsMatch))
  | None => None
  end.

(** The field [title] of the result of [parseHeader]; its field [text] is
    the block itself. *)
Definition parseHeader (block : jstring) : option jstring :=
  match matchFirst reNumberedHeader block with
  | Some numberedHeaderMatch => Some (cleanTitle (group 2 numberedHeaderMatch))
  | None =>
  match simpleNumberedTitle block with
  | Some title => Some title
  | None =>
  match sectionTitle block with
  | Some title => Some title
  | None => allCapsTitle block
  end end end.

(** *** The keyword scan *)

Definition detectClauseType (text : jstring) : option jstring :=
  let lowercaseText := toLowerCase text in
  let first200Chars := trim (substring 0 200 lowercaseText) in
  let veryEarly := substring 0 50 lowercaseText in
  let early := fun k : string => includes veryEarly (js k) in
  let inc := fun k : string => includes first200Chars (js k) in
  if early "between" && early "party" then Some (js "Parties")
  else if early "agreement" && (early "made" || early "dated") then Some (js "Document Name")
  else if inc "confidential" || inc "proprietary" then Some (js "Confidentiality")
  else if inc "liability" || inc "cap" || inc "uncapped" then Some (js "Liability Cap")
  else if inc "indemnif" then Some (js "Indemnification")
  else if inc "terminat" then Some (js "Termination")
  else if inc "payment" || inc "fee" || inc "royalty" then Some (js "Payment Terms")
  else if inc "intellectual" || inc "ipr" || inc "ownership" then Some (js "Ip Ownership")
  else if inc "law" || inc "jurisdiction" then Some (js "Governing Law")
  else if inc "arbitration" || inc "dispute" then Some (js "Dispute Resolution")
  else if inc "notice" then Some (js "Notice Period")
  else if inc "force majeure" then Some (js "Force Majeure")
  else if inc "severability" || inc "invalid" then Some (js "Severability")
  else if inc "assignment" || inc "transfer" then Some (js "Anti-Assignment")
  else if inc "warranty" || inc "guarantee" then Some (js "Warranty Duration")
  else if inc "favored nation" then Some (js "Most Favored Nation")
  else if inc "non-compete" || inc "noncompete" then Some (js "Non-Compete")
  else if inc "exclusiv" then Some (js "Exclusivity")
  else if inc "non-disparage" || inc "nondisparage" then Some (js "Non-Disparagement")
  else if inc "solicit" then Some (js "No-Solicit")
  else if inc "change of control" then Some (js "Change of Control")
  else if inc "first refusal" || inc "rofr" then Some (js "Rofr/Rofo/Rofn")
  else if inc "revenue share" || inc "profit share" then Some (js "Revenue/Profit Sharing")
  else if inc "price restriction" then Some (js "Price Restrictions")
  else if inc "minimum commitment" || inc "commits to purchase"
  then Some (js "Minimum Commitment")
  else if inc "volume restriction" then Some (js "Volume Restriction")
  else if inc "license" || inc "grant" then Some (js "License Grant")
  else if inc "escrow" then Some (js "Source Code Escrow")
  else if inc "audit" then Some (js "Audit Rights")
  else if inc "liquidated damages" then Some (js "Liquidated Damages")
  else if inc "insurance" then Some (js "Insurance")
  else if inc "covenant not to sue" then Some (js "Covenant Not To Sue")
  else if inc "third party beneficiary" then Some (js "Third Party Beneficiary")
  else if inc "effective date" then Some (js "Effective Date")
  else if inc "expiration date" then Some (js "Expiration Date")
  else if inc "renewal term" then Some (js "Renewal Term")
  else if Nat.ltb (length text) 1500 then
    option_map js
      (find (fun type => includes lowercaseText (toLowerCase (js type))) commonClauseTypes)
  else None.

(** *** The extraction *)

(** "/\n\s*(?=[IVX]+\.\s+[A-Z][A-Z])/g" *)
Definition romanCapsRegex : RegExp :=
  re (nl +> star ws +> ahead (plus ivx +> c1 "." +> plus ws +> upper +> upper)).
(** "/\n\s*(?=(?:Section|Article|ARTICLE)\s+\d+\.)/gi" *)
Definition sectionRegex : RegExp :=
  rei (nl +> star ws
       +> ahead ((lit "Section" <|> lit "Article" <|> lit "ARTICLE") +> plus ws
                 +> plus dg +> c1 ".")).
(** "/\n\s*(?=\d+\.\s+[A-Z][A-Z])/g" *)
Definition numericCapsRegex : RegExp :=
  re (nl +> star ws +> ahead (plus dg +> c1 "." +> plus ws +> upper +> upper)).
(** The header pattern used when the schema has none:
    "/^(I{1,3}|IV|VI{0,3}|IX|XI{0,3}|XIV|XV|XVI{0,3}|XIX|XX[IVX]*)\.\s+[A-Z]/" *)
Definition defaultHeaderRegex : RegExp :=
  re (Bol +> Grp 1 romanU +> c1 "." +> plus ws +> upper).
(** "/Agreement between.*Page\s+\d+\s+of\s+\d+.*\(01\/2021 v[^\)]*\)/gi" *)
Definition pageNoiseRegex : RegExp :=
  rei (lit "Agreement between" +> star dot +> lit "Page" +> plus ws +> plus dg
       +> plus ws +> lit "of" +> plus ws +> plus dg +> star dot +> lit "(01/2021 v"
       +> star (ncls [one ")"]) +> c1 ")").
(** "/shall|hereby|party|agreement/i" *)
Definition legalWordsRegex : RegExp :=
  rei (lit "shall" <|> lit "hereby" <|> lit "party" <|> lit "agreement").

(** [s.split('\n')[0]] *)
Definition firstLineOf (s : jstring) : jstring := hd [] (splitChar LF s).

(** [String(v)] for the value [v] that [Object.prototype] has under a key:
    the prototype itself under "__proto__", a built-in function otherwise. *)
Definition inheritedString (key : jstring) : jstring :=
  if jstring_eqb key (js "__proto__") then js "[object Object]"
  else functionString (functionText key).

(** [cleanedText.split(splitRegex)]: a value that is no regular expression
    has no [Symbol.split] method, and its String conversion is the
    separator. *)
Definition splitBy (splitRegex : entry RegExp) (cleanedText : jstring)
    : list (option jstring) :=
  match splitRegex with
  | Own splitRegex => splitRe splitRegex cleanedText
  | Inherited key => map Some (splitString (inheritedString key) cleanedText)
  end.

(** [mainHeaderRegex.test(firstLine)]: a [TypeError] when the value has no
    [test] method. *)
Definition testBy (mainHeaderRegex : entry RegExp) (firstLine : jstring) : outcome bool :=
  match mainHeaderRegex with
  | Own mainHeaderRegex => Returned (test mainHeaderRegex firstLine)
  | Inherited _ => Threw
  end.

(** The choice between the schema of the caller and the detected one:
    [(splitRegex, mainHeaderRegex, schemaType)]. *)
Definition chooseSchema (userSchema : option NumberingSchema) (cleanedText : jstring)
    : option (entry RegExp) * option (entry RegExp) * jstring :=
  let detected :=
    let '(pattern, type) := detectNumberingSchema cleanedText in
    (Some (Own pattern), None, type) in
  match userSchema with
  | Some u =>
      if negb (jstring_eqb (mainClause u) (js "none"))
      then (getSchemaSplitRegex (mainClause u), getSchemaRegex (mainClause u), mainClause u)
      else detected
  | None => detected
  end.

(** The split by the pattern of the schema; the first piece is removed when a
    header pattern is known at this point and the first line of the piece does
    not match it. A piece that is [undefined] cannot be trimmed. *)
Definition primarySplit (splitRegex mainHeaderRegex : option (entry RegExp))
    (cleanedText : jstring) : outcome (list (option jstring)) :=
  match splitRegex with
  | None => Returned []
  | Some splitRegex =>
      let initialBlocks := splitBy splitRegex cleanedText in
      match mainHeaderRegex with
      | Some mainHeaderRegex =>
          if Nat.ltb 1 (length initialBlocks) then
            match initialBlocks with
            | Some first :: rest =>
                let firstBlock := trim first in
                let firstLine := firstLineOf firstBlock in
                match testBy mainHeaderRegex firstLine with
                | Returned isHeader =>
                    if negb isHeader then Returned rest else Returned initialBlocks
                | Threw => Threw
                end
            | None :: _ => Threw
            | [] => Returned initialBlocks
            end
          else Returned initialBlocks
      | None => Returned initialBlocks
      end
  end.

(** The alternative patterns, tried when fewer than three blocks were found. *)
Definition alternativeSplit (cleanedText : jstring)
    (initialBlocks : list (option jstring)) (schemaType : jstring)
    : list (option jstring) * jstring :=
  if Nat.ltb (length initialBlocks) 3 then
    let altBlocks := splitRe romanCapsRegex cleanedText in
    if Nat.leb 3 (length altBlocks) then (altBlocks, js "roman-upper")
    else
      let altBlocks := splitRe sectionRegex cleanedText in
      if Nat.leb 3 (length altBlocks) then (altBlocks, js "section")
      else
        let altBlocks := splitRe numericCapsRegex cleanedText in
        if Nat.leb 3 (length altBlocks) then (altBlocks, js "numeric")
        else (initialBlocks, schemaType)
  else (initialBlocks, schemaType).

(** [blocks[blocks.length - 1] += more] *)
Fixpoint appendToLast (blocks : list jstring) (more : jstring) : list jstring :=
  match blocks with
  | [] => []
  | [b] => [b ++ more]
  | b :: blocks' => b :: appendToLast blocks' more
  end.

(** The loop that merges the pieces into blocks: a piece starts a block when
    its first line is a main header or no block exists yet. *)
Fixpoint mergeBlocks (mainHeaderRegex : RegExp) (initialBlocks : list (option jstring))
    (blocks : list jstring) : outcome (list jstring) :=
  match initialBlocks with
  | [] => Returned blocks
  | None :: _ => Threw
  | Some block :: rest =>
      let trimmed := trim block in
      if Nat.ltb (length trimmed) 10 then mergeBlocks mainHeaderRegex rest blocks
      else
        let firstLine := firstLineOf trimmed in
        let isMainSection := test mainHeaderRegex firstLine in
        if isMainSection || Nat.eqb (length blocks) 0
        then mergeBlocks mainHeaderRegex rest (blocks ++ [trimmed])
        else mergeBlocks mainHeaderRegex rest (appendToLast blocks (nlnl ++ trimmed))
  end.

(** The same loop when [mainHeaderRegex] is an inherited value: the first
    piece of 10 characters or more reaches [mainHeaderRegex.test], which is
    not a function; until then nothing is pushed. *)
Fixpoint mergeUntested (initialBlocks : list (option jstring)) : outcome (list jstring) :=
  match initialBlocks with
  | [] => Returned []
  | None :: _ => Threw
  | Some block :: rest =>
      let trimmed := trim block in
      if Nat.ltb (length trimmed) 10 then mergeUntested rest
      else Threw
  end.

Definition mergeBy (mainHeaderRegex : entry RegExp)
    (initialBlocks : list (option jstring)) : outcome (list jstring) :=
  match mainHeaderRegex with
  | Own mainHeaderRegex => mergeBlocks mainHeaderRegex initialBlocks []
  | Inherited _ => mergeUntested initialBlocks
  end.

(** The blocks of a document: [extractClausesRuleBased] up to the loop over
    the blocks. *)
Definition documentBlocks (documentText : jstring) (userSchema : option NumberingSchema)
    : outcome (list jstring) :=
  let cleanedText := removePageNumbers documentText in
  let '(splitRegex, mainHeaderRegex, schemaType) := chooseSchema userSchema cleanedText in
  match primarySplit splitRegex mainHeaderRegex cleanedText with
  | Threw => Threw
  | Returned initialBlocks =>
      let '(initialBlocks, schemaType) :=
        alternativeSplit cleanedText initialBlocks schemaType in
      let mainHeaderRegex :=
        match mainHeaderRegex with
        | Some h => h
        | None =>
            match getSchemaRegex schemaType with
            | Some h => h
            | None => Own defaultHeaderRegex
            end
        end in
      mergeBy mainHeaderRegex initialBlocks
  end.

(** The clause pushed for a block that is not expanded. *)
Definition mainClauseOf (detectedType clause_no body_text : jstring)
    (matchedFromRepo : bool) (similarityScore : number) : ExtractedClause :=
  {| clause_type := detectedType;
     clause_no := clause_no;
     clause_text := normalizeText body_text;
     preferred_position := js "Standard legal position for " ++ detectedType;
     party_role := js "Neutral";
     complexity := 5;
     balance := 0;
     matched_from_repository := matchedFromRepo;
     similarity_score := similarityScore |}.

(** The type decision for a block: [(detectedType, matchedFromRepo,
    similarityScore)] before the test [if (detectedType)]. *)
Definition classifyBlock (repositoryClauses : list Repo.Clause) (cleanedBlock : jstring)
    : option jstring * bool * number :=
  let title := parseHeader cleanedBlock in
  let detectedType := if truthy title then title else detectClauseType cleanedBlock in
  let '(detectedType, matchedFromRepo, similarityScore) :=
    if Nat.ltb 0 (length repositoryClauses) then
      match findBestClauseTypeMatch cleanedBlock repositoryClauses (decimal 12 100) with
      | Some repoMatch =>
          if negb (truthy detectedType)
             || match detectedType with
                | Some t => jstring_eqb t (js "General Clause")
                | None => false
                end
             || fgt (score repoMatch) (decimal 2 10)
          then (Some (clauseType repoMatch), true, score repoMatch)
          else (detectedType, false, zero)
      | None => (detectedType, false, zero)
      end
    else (detectedType, false, zero) in
  let detectedType :=
    if negb (truthy detectedType)
       && (Nat.ltb 100 (length cleanedBlock) || test legalWordsRegex cleanedBlock)
    then Some (js "General Clause")
    else detectedType in
  (detectedType, matchedFromRepo, similarityScore).

(** What the loop over the blocks pushes for a block that is long enough and
    not seen before; [None] when it pushes nothing and does not record the
    block. *)
Definition clausesOfBlock (repositoryClauses : list Repo.Clause)
    (trimmedBlock : jstring) : option (list ExtractedClause) :=
  let cleanedBlock := trim (replaceAll pageNoiseRegex [] trimmedBlock) in
  if Nat.ltb (length cleanedBlock) 20 then None
  else
    let '(clause_no, body_text) := parseClauseNumber cleanedBlock in
    let '(detectedType, matchedFromRepo, similarityScore) :=
      classifyBlock repositoryClauses cleanedBlock in
    match detectedType with
    | Some ((_ :: _) as detectedType) =>
        let main :=
          mainClauseOf detectedType clause_no body_text matchedFromRepo similarityScore in
        if isMiscellaneousOrGeneralSection clause_no then
          let extractedSubclauses :=
            extractSubclausesFromMiscellaneous clause_no cleanedBlock repositoryClauses in
          if Nat.ltb 0 (length extractedSubclauses) then Some extractedSubclauses
          else Some [main]
        else Some [main]
    | _ => None
    end.

(** One turn of the loop over the blocks, on [(clauses, seenTexts)]. *)
Definition blockStep (repositoryClauses : list Repo.Clause)
    (st : list ExtractedClause * list jstring) (block : jstring)
    : list ExtractedClause * list jstring :=
  let '(clauses, seenTexts) := st in
  let trimmedBlock := trim block in
  if Nat.ltb (length trimmedBlock) 30 then st
  else if has seenTexts trimmedBlock then st
  else
    match clausesOfBlock repositoryClauses trimmedBlock with
    | Some pushed => (clauses ++ pushed, addAll seenTexts [trimmedBlock])
    | None => st
    end.

Definition extractClausesRuleBased (documentText : jstring)
    (repositoryClauses : list Repo.Clause) (userSchema : option NumberingSchema)
    : outcome (list ExtractedClause) :=
  match documentBlocks documentText userSchema with
  | Threw => Threw
  | Returned blocks =>
      Returned (fst (fold_left (blockStep repositoryClauses) blocks ([], [])))
  end.

End Extractor.

(** ** The clause analysis *)

(** The object that [analyzeClauseRuleBased] returns, one shape per action;
    [NoAnalysis] is the empty object. *)
Inductive Analysis :=
| Risks (risks : list string)
| Compliance (status : string) (findings recommendations : list string)
| Improvements (improvements : list string)
| Balance (score : number) (explanation : string)
| Alternatives (alternatives : list string)
| NoAnalysis.

Section Analyzer.

Variable toLowerCase : jstring -> jstring.

(** [risks.push(line)] under a condition. *)
Definition pushIf (cond : bool) (line : string) (risks : list string) : list string :=
  if cond then risks ++ [line] else risks.

Definition analyzeClauseRuleBased (clauseText action : jstring) : Analysis :=
  let lowercaseText := toLowerCase clauseText in
  let inc := fun k : string => includes lowercaseText (js k) in
  if jstring_eqb action (js "analyze") then
    let risks := [] in
    let risks :=
      pushIf (inc "indemnif")
        "Broad indemnification obligations detected. Check for reciprocity." risks in
    let risks :=
      pushIf (inc "liability" && negb (inc "cap"))
        "No clear liability cap found in this text." risks in
    let risks :=
      pushIf (inc "sole discretion" || inc "sole option")
        "One-sided discretionary power found." risks in
    let risks :=
      pushIf (inc "consequential damages")
        "Exclusion of consequential damages should be mutual." risks in
    let risks :=
      pushIf (inc "automatic renewal" || inc "evergreen")
        "Automatic renewal clause detected. Monitor expiration dates." risks in
    let risks :=
      if Nat.eqb (length risks) 0 then
        risks ++ [ "Standard Clause Review: No high-risk keywords detected in this snippet.";
                   "Note: Rule-based analysis is less comprehensive than AI." ]
      else risks in
    Risks risks
  else if jstring_eqb action (js "compliance") then
    Compliance "warning"
      [ "Rule-based engine cannot perform full playbook comparison." ]
      [ "Manually compare this clause against your uploaded playbook rules." ]
  else if jstring_eqb action (js "improve") then
    Improvements
      [ "Ensure all defined terms are used consistently.";
        "Consider adding a 'reasonableness' standard to discretionary actions.";
        "Be specific about timelines (e.g., 'within 30 days' instead of 'promptly')." ]
  else if jstring_eqb action (js "balance") then
    let '(score, explanation) :=
      if inc "at its sole option" || inc "sole discretion" then
        (ofNat 3, "This clause favors the party with discretionary power.")
      else if inc "mutual" then
        (zero, "This clause is mutual, which is generally considered balanced.")
      else
        (zero, "This clause appears to be relatively balanced based on standard keyword analysis.") in
    Balance score explanation
  else if jstring_eqb action (js "alternatives") then
    Alternatives
      [ "Alternative 1: [Standard mutual version of the clause]";
        "Alternative 2: [Version with limited liability cap]" ]
  else NoAnalysis.

End Analyzer.

(** ** The page that calls the extraction *)

(** [normalizeClauseText] of the extractor page: the same steps as
    [normalizeText]. *)
Definition normalizeClauseText (text : jstring) : jstring :=
  match text with
  | [] => text
  | _ =>
      let result := map normalizeChar text in
      let result := replaceAll reSpaces [Lit (js " ")] result in
      let result := join [LF] (map trim (splitChar LF result)) in
      trim result
  end.

(** ** What a match is *)

(** The relation that the matcher computes, without the order in which it
    tries the alternatives: [sem ic fwd r x y] when [r] can take the state
    [x] to the state [y]. *)
Fixpoint iter (n : nat) (R : mstate -> mstate -> Prop) (x y : mstate) : Prop :=
  match n with
  | O => y = x
  | S n' => exists z, R x z /\ iter n' R z y
  end.

Definition repCount (lo : nat) (hi : option nat) (n : nat) : Prop :=
  match hi with
  | Some h => (Nat.min lo h <= n /\ n <= h)%nat
  | None => (lo <= n)%nat
  end.

Fixpoint sem (ic fwd : bool) (r : regex) (x y : mstate) {struct r} : Prop :=
  match r with
  | Eps => y = x
  | Chr cs => exists c, step fwd x = Some (c, y) /\ cmatch ic cs c = true
  | Seq a b =>
      exists z, if fwd then sem ic fwd a x z /\ sem ic fwd b z y
                else sem ic fwd b x z /\ sem ic fwd a z y
  | Alt a b => sem ic fwd a x y \/ sem ic fwd b x y
  | Rep lo hi _ a =>
      exists n, repCount lo hi n
                /\ iter n (fun u v => sem ic fwd a (resetCaps (groups a) u) v) x y
  | Grp n a => exists z, sem ic fwd a x z /\ y = setCap n (between x z) z
  | Look ahead true a => exists z, sem ic ahead a x z /\ y = withCaps (caps z) x
  | Look ahead false a => rmatch ic ahead a Some x = None /\ y = x
  | Bol => before x = [] /\ y = x
  | Eol => after x = [] /\ y = x
  end.

(** The whole input of a state, and the text [w] between two states of a
    match in the direction [fwd]. *)
Definition whole (x : mstate) : jstring := rev (before x) ++ after x.

Definition moved (fwd : bool) (x y : mstate) (w : jstring) : Prop :=
  if fwd then after x = w ++ after y /\ before y = rev w ++ before x
  else before x = rev w ++ before y /\ after y = w ++ after x.

(** A lower bound on the length of what a pattern consumes. *)
Fixpoint minLen (r : regex) : nat :=
  match r with
  | Eps | Bol | Eol | Look _ _ _ => 0
  | Chr _ => 1
  | Seq a b => minLen a + minLen b
  | Alt a b => Nat.min (minLen a) (minLen b)
  | Rep lo hi _ a =>
      match hi with Some h => Nat.min lo h | None => lo end * minLen a
  | Grp _ a => minLen a
  end.

Definition mentions (n : nat) (r : regex) : bool := existsb (Nat.eqb n) (groups r).

(** A group that is set in every match of the pattern. *)
Fixpoint defines (n : nat) (r : regex) : bool :=
  match r with
  | Grp m a => Nat.eqb m n || defines n a
  | Seq a b =>
      (defines n a && negb (mentions n b)) || (defines n b && negb (mentions n a))
  | Alt a b => defines n a && defines n b
  | Look _ true a => defines n a
  | _ => false
  end.

Definition definesAll (R : RegExp) : bool :=
  forallb (fun g => defines g (source R)) (groups (source R)).

(** A pattern that matches at the start of the input only, and one whose
    matches end at the end of the input. *)
Fixpoint startsAtBol (r : regex) : bool :=
  match r with
  | Bol => true
  | Seq a _ => startsAtBol a
  | _ => false
  end.

Fixpoint endsAtEol (r : regex) : bool :=
  match r with
  | Eol => true
  | Seq _ b => endsAtEol b
  | _ => false
  end.

(** The group that closes a pattern (before a final [$], if any), a lower
    bound on what the pattern consumes before that group and one on what the
    group holds. *)
Fixpoint finalGroup (r : regex) : option nat :=
  match r with
  | Grp g _ => Some g
  | Seq (Grp g _) Eol => Some g
  | Seq _ b => finalGroup b
  | _ => None
  end.

Fixpoint minBeforeFinal (r : regex) : nat :=
  match r with
  | Seq (Grp _ _) Eol => 0
  | Seq a b => minLen a + minBeforeFinal b
  | _ => 0
  end.

Fixpoint minFinal (r : regex) : nat :=
  match r with
  | Grp _ a => minLen a
  | Seq (Grp _ a) Eol => minLen a
  | Seq _ b => minFinal b
  | _ => 0
  end.

(** [v] is a part of [s]; every capture is a part of [s]. *)
Definition within (s v : jstring) : Prop := exists a b, s = a ++ v ++ b.

Definition capsWithin (s : jstring) (cs : list (nat * option jstring)) : Prop :=
  forall n v, getCap n cs = Some v -> within s v.

(** ** Measures on texts *)

Definition trimmedLength (s : jstring) : nat := length (trim s).

(** A String value of ECMAScript has at most [2 ^ 53 - 1] elements. *)
Definition isString (s : jstring) : Prop := (Z.of_nat (length s) < 2 ^ 53)%Z.

(** The characters of the pieces of a text, and a separator after each. *)
Definition weight (l : list jstring) : nat :=
  list_sum (map (fun p => S (length p)) l).

(** The pieces of a split that are not [undefined]. *)
Definition texts (l : list (option jstring)) : list jstring :=
  flat_map (fun p => match p with Some t => [t] | None => [] end) l.

(** The characters of a text that are not white space, in their order. *)
Definition solid (s : jstring) : jstring :=
  filter (fun c => negb (isWhiteSpace c)) s.

(** No three line feeds in a row, [n] of them having just been read. *)
Fixpoint shortRuns (n : nat) (s : jstring) : bool :=
  match s with
  | [] => true
  | c :: s' => if (c =? LF)%N then Nat.ltb n 2 && shortRuns (S n) s' else shortRuns 0 s'
  end.

(** The class of [\n]. *)
Definition newlineClass : cclass := {| cc_neg := false; cc_ranges := [(LF, LF)] |}.

Definition allWhite (s : jstring) : bool := forallb isWhiteSpace s.

(** [t] can stand for [s] in any text without making its trimmed form
    longer. *)
Definition shrinks (s t : jstring) : Prop :=
  forall a b, (trimmedLength (a ++ t ++ b) <= trimmedLength (a ++ s ++ b))%nat.

(** The result of a replacement of all matches: the text outside the
    matches is kept, each match [m] gives way to a text [r] with [Q m r]. *)
Inductive Rewritten (Q : jstring -> jstring -> Prop) : jstring -> jstring -> Prop :=
| rw_nil : Rewritten Q [] []
| rw_keep c s t : Rewritten Q s t -> Rewritten Q (c :: s) (c :: t)
| rw_match m r s t : Q m r -> Rewritten Q s t -> Rewritten Q (m ++ s) (r ++ t).

(** A match of [R] somewhere and its replacement by [tpl]. *)
Definition replaces (R : RegExp) (tpl : list repl) (m r : jstring) : Prop :=
  exists pre suf y,
    matchAt R pre suf = Some y /\ m = matched pre suf y /\ r = expand tpl (caps y).

(** [s.replace(/ +/g, ' ')] written out: a space after a space is dropped.
    [inRun] tells that the character before was a space. *)
Fixpoint collapseFrom (inRun : bool) (s : jstring) : jstring :=
  match s with
  | [] => []
  | c :: s' =>
      if c =? SP then
        if inRun then collapseFrom true s' else SP :: collapseFrom true s'
      else c :: collapseFrom false s'
  end.

Definition collapseSpaces (s : jstring) : jstring := collapseFrom false s.

(** The length of the run of characters of a class at the head of a text. *)
Fixpoint run (ic : bool) (cs : cclass) (s : jstring) : nat :=
  match s with
  | c :: s' => if cmatch ic cs c then S (run ic cs s') else 0
  | [] => 0
  end.

(** ** Notions used to state the properties *)

(** Pieces of a text: none of them [undefined], each a part of the text. *)
Definition pieces (s : jstring) (l : list (option jstring)) : Prop :=
  Forall (fun p => exists t, p = Some t /\ within s t) l.

(** The class of [/ +/] and the state [n] characters further. *)
Definition spaceClass : cclass := {| cc_neg := false; cc_ranges := [one " "] |}.

Definition advance (n : nat) (x : mstate) : mstate :=
  {| before := rev (firstn n (after x)) ++ before x;
     after := skipn n (after x);
     caps := caps x |}.

(** The third stage of [normalizeText]: every line trimmed. *)
Definition lineTrim (s : jstring) : jstring := join [LF] (map trim (splitChar LF s)).

(** The normal form of [normalizeText]: no character that it would replace,
    no two spaces in a row, every line trimmed. *)
Definition fixedChars (s : jstring) : Prop := Forall (fun c => normalizeChar c = c) s.

Fixpoint noDouble (s : jstring) : bool :=
  match s with
  | c :: s' =>
      match s' with
      | d :: _ => negb ((c =? SP) && (d =? SP)) && noDouble s'
      | [] => true
      end
  | [] => true
  end.

Definition linesTrimmed (s : jstring) : Prop :=
  Forall (fun p => trim p = p) (splitChar LF s).

Definition noLF (p : jstring) : Prop := Forall (fun c => c <> LF) p.

Definition headSolid (s : jstring) : bool :=
  match s with
  | c :: _ => negb (isWhiteSpace c)
  | [] => true
  end.

(** A clause with a type and a text. *)
Definition filled (c : ExtractedClause) : Prop :=
  clause_type c <> [] /\ clause_text c <> [].

(** The clauses that the loop over the blocks pushes for a block text. *)
Definition pushedFor (toLowerCase : jstring -> jstring) (repo : list Repo.Clause)
    (trimmedBlock : jstring) : list ExtractedClause :=
  match clausesOfBlock toLowerCase repo trimmedBlock with
  | Some pushed => pushed
  | None => []
  end.

(** A block text for which the loop over the blocks pushes clauses. *)
Definition productive (toLowerCase : jstring -> jstring) (repo : list Repo.Clause)
    (trimmedBlock : jstring) : bool :=
  Nat.leb 30 (length trimmedBlock)
  && match clausesOfBlock toLowerCase repo trimmedBlock with
     | Some _ => true
     | None => false
     end.

(** A schema whose identifier is no property name of [Object.prototype];
    the absent schema is one. *)
Definition plainSchema (userSchema : option NumberingSchema) : Prop :=
  match userSchema with
  | Some u => isPrototypeKey (mainClause u) = false
  | None => True
  end.

(** The schema is detected: none is given, or its identifier is "none". *)
Definition detectedSchema (userSchema : option NumberingSchema) : Prop :=
  match userSchema with
  | Some u => mainClause u = js "none"
  | None => True
  end.

(** No alternative pattern cuts the text into three pieces or more. *)
Definition noAlternative (cleanedText : jstring) : Prop :=
  (length (splitRe romanCapsRegex cleanedText) < 3)%nat
  /\ (length (splitRe sectionRegex cleanedText) < 3)%nat
  /\ (length (splitRe numericCapsRegex cleanedText) < 3)%nat.

(** A repository clause that [matchClauseFromRepository] does not skip. *)
Definition eligible (c : Repo.Clause) : Prop :=
  (50 <= length (Repo.clause_text c))%nat /\ isGenericType (Repo.clause_type c) = false.

(** The clauses of a list that have a given type, in their order. *)
Definition ofType (t : jstring) (clauses : list Repo.Clause) : list Repo.Clause :=
  filter (fun c => jstring_eqb t (Repo.clause_type c)) clauses.

(** ** Doubles *)

(** A shift to the right that lost no digit. *)
Definition exactRecord (mrs : shr_record) : Prop :=
  shr_r mrs = false /\ shr_s mrs = false.

(** The least exponent of a double whose digits end at [e]. *)
Definition fexp64 (e : Z) : Z := fexp prec emax e.

(** A normal double [M * 2 ^ E], as a bound. *)
Definition normalBound (M E : Z) : Prop :=
  (2 ^ 52 <= M < 2 ^ 53 /\ -1074 <= E <= 971)%Z.

(** [x] is [+0] or a positive double that is at most [M * 2 ^ E]. *)
Definition below (M E : Z) (x : number) : Prop :=
  x = S754_zero false
  \/ exists m e, x = S754_finite false m e /\ (Zpos m < 2 ^ 53)%Z
                 /\ ((e < E)%Z \/ (e = E /\ (Zpos m <= M)%Z)).

Definition atMostOne (x : number) : Prop := below (2 ^ 52) (-52) x.

(** [0 <= x] and [x <= 1], as the comparisons of the source decide them. *)
Definition inUnitInterval (x : number) : Prop :=
  fge x zero = true /\ fge unity x = true.

(** [+0] or a positive double. *)
Definition positive_or_zero (x : number) : Prop :=
  x = S754_zero false \/ exists m e, x = S754_finite false m e.

(** ** Inputs of the scenarios *)

(** [toLowerCase] on the code units below 128, which is what the runtime
    does on the texts of the scenarios. *)
Definition asciiToLowerCase (s : jstring) : jstring := map asciiLower s.

(** The function texts of V8: [function name() { [native code] }], where the
    function under "constructor" is named [Object] and the others are named
    as their key. *)
Definition v8FunctionText (key : jstring) : FunctionText :=
  {| afterFunction :=
       js " " ++ (if jstring_eqb key (js "constructor") then js "Object" else key)
       ++ js "() { [";
     afterNative := js " ";
     afterCode := js "] }" |}.

Definition numericSchema : NumberingSchema :=
  {| mainClause := js "numeric"; subClause1 := js "none";
     subClause2 := js "none"; subClause3 := None |}.

(** A schema whose identifier is a property name of [Object.prototype]. *)
Definition constructorSchema : NumberingSchema :=
  {| mainClause := js "constructor"; subClause1 := js "none";
     subClause2 := js "none"; subClause3 := None |}.

(** Scenario A of the specification. *)
Definition scenarioA : jstring :=
  js "1. INDEMNITY. Each party shall indemnify the other." ++ [LF]
  ++ js "2. TERM. This agreement lasts one year.".

(** Two numbered clauses with the same body. *)
Definition sameBodies : jstring :=
  js "1. INDEMNITY. Each party shall indemnify the other party fully." ++ [LF]
  ++ js "2. TERM. Each party shall indemnify the other party fully.".

(** A preamble before two roman-numbered sections. *)
Definition preambleText : jstring :=
  js "This Agreement shall bind the parties hereto forever.".
Definition withPreamble : jstring :=
  preambleText ++ [LF]
  ++ js "I. DEFINITIONS AND TERMS. Words shall have meanings." ++ [LF]
  ++ js "II. PAYMENT TERMS. Buyer shall pay.".

(** A preamble before three numbered clauses, and before two. *)
Definition threeNumbered : jstring :=
  preambleText ++ [LF]
  ++ js "1. DEFINITIONS AND TERMS. Words shall have meanings." ++ [LF]
  ++ js "2. PAYMENT TERMS. Buyer shall pay the price." ++ [LF]
  ++ js "3. NOTICES. Notices shall be given in writing.".
Definition twoNumbered : jstring :=
  preambleText ++ [LF]
  ++ js "1. DEFINITIONS AND TERMS. Words shall have meanings." ++ [LF]
  ++ js "2. PAYMENT TERMS. Buyer shall pay.".

(** The pieces of the three numbered clauses. *)
Definition threePieces : list (option jstring) :=
  [ Some (js "1. DEFINITIONS AND TERMS. Words shall have meanings.");
    Some (js "2. PAYMENT TERMS. Buyer shall pay the price.");
    Some (js "3. NOTICES. Notices shall be given in writing.") ].

(** A text with one section header. *)
Definition oneSection : jstring :=
  js "Introduction" ++ [LF] ++ js "Section 1. Scope of the work".

(** Scenario B of the specification: a miscellaneous section. *)
Definition scenarioB : jstring :=
  js "8. MISCELLANEOUS. (a) This Agreement shall be governed by the laws of Delaware. (b) Notices shall be given in writing.".

(** A clause text and a repository with one clause of the same words. *)
Definition paymentText : jstring :=
  js "The buyer shall pay the purchase price within thirty days of the invoice date.".
Definition paymentRepository : list Repo.Clause :=
  [ {| Repo.id := js "c-1"; Repo.clause_type := js "Payment Terms";
       Repo.clause_text :=
         js "The buyer shall pay the purchase price within sixty days of the invoice date." |} ].

(** The clause of [paymentRepository], and one with the text of
    [paymentText]. *)
Definition paymentClause : Repo.Clause :=
  {| Repo.id := js "c-1"; Repo.clause_type := js "Payment Terms";
     Repo.clause_text :=
       js "The buyer shall pay the purchase price within sixty days of the invoice date." |}.
Definition sameTextClause : Repo.Clause :=
  {| Repo.id := js "c-2"; Repo.clause_type := js "Payment Terms";
     Repo.clause_text := paymentText |}.

(** A text with two section headers. *)
Definition twoSections : jstring :=
  js "Terms" ++ [LF] ++ js "Section 1. Scope of the work" ++ [LF]
  ++ js "Section 2. Price of the work".

(** Pieces of a split: a preamble, two numbered clauses, a continuation. *)
Definition numberedPieces : list (option jstring) :=
  [ Some (js "Preamble of the agreement");
    Some (js "1. DEFINITIONS. Words have meanings.");
    Some (js "and this continues the first clause");
    Some (js "2. PAYMENT. The buyer pays the price.") ].
Definition numericHeader : RegExp :=
  re (Bol +> Grp 1 (plus dg) +> c1 "." +> plus ws).

(** * Properties *)

(** ** Soundness of the matcher *)

Section Soundness.

Variable ic : bool.

Lemma repLoop_sound (m : cont -> cont) (S : mstate -> mstate -> Prop) gs greedy k :
  (forall k' x res, m k' x = Some res -> exists y, S x y /\ k' y = Some res) ->
  forall fuel lo hi x res,
    repLoop m gs greedy k fuel lo hi x = Some res ->
    exists n y, repCount lo hi n
                /\ iter n (fun u v => S (resetCaps gs u) v) x y
                /\ k y = Some res.
Proof.
  intros Hm. induction fuel as [|fuel IH]; intros lo hi x res H.
  - simpl in H. destruct hi as [[|h]|].
    + exists 0%nat, x. simpl. repeat split; auto; lia.
    + destruct (Nat.eqb_spec lo 0); [|discriminate].
      exists 0%nat, x. subst. simpl. repeat split; auto; lia.
    + destruct (Nat.eqb_spec lo 0); [|discriminate].
      exists 0%nat, x. subst. simpl. repeat split; auto.
  - assert (Hiter : forall res',
      m (fun y => if Nat.eqb lo 0 && Nat.eqb (pos y) (pos x) then None
                  else repLoop m gs greedy k fuel (Nat.pred lo) (option_map Nat.pred hi) y)
        (resetCaps gs x) = Some res' ->
      hi <> Some 0%nat ->
      exists n y, repCount lo hi n
                  /\ iter n (fun u v => S (resetCaps gs u) v) x y /\ k y = Some res').
    { intros res' Hr Hhi. apply Hm in Hr. destruct Hr as (z & Hz & Hd).
      destruct (Nat.eqb lo 0 && Nat.eqb (pos z) (pos x)); [discriminate|].
      apply IH in Hd. destruct Hd as (n & y & Hc & Hi & Hk).
      exists (Datatypes.S n), y. split; [|split; [exists z; auto|exact Hk]].
      destruct hi as [h|]; simpl in *; [|lia].
      destruct h; [congruence|]. simpl in Hc. lia. }
    assert (Hzero : lo = 0%nat -> k x = Some res ->
      exists n y, repCount lo hi n
                  /\ iter n (fun u v => S (resetCaps gs u) v) x y /\ k y = Some res).
    { intros -> Hk. exists 0%nat, x. split; [|split; [reflexivity|exact Hk]].
      destruct hi; simpl; lia. }
    simpl in H. destruct hi as [[|h]|].
    + exists 0%nat, x. simpl. repeat split; auto; lia.
    + destruct (Nat.eqb_spec lo 0) as [E|E]; simpl in H.
      * destruct greedy.
        -- match type of H with match ?t with _ => _ end = _ => destruct t eqn:Ht end.
           ++ inversion H; subst. apply Hiter; [exact Ht|discriminate].
           ++ apply Hzero; assumption.
        -- destruct (k x) eqn:Hk.
           ++ inversion H; subst. apply Hzero; congruence.
           ++ apply Hiter; [exact H|discriminate].
      * apply Hiter; [exact H|discriminate].
    + destruct (Nat.eqb_spec lo 0) as [E|E]; simpl in H.
      * destruct greedy.
        -- match type of H with match ?t with _ => _ end = _ => destruct t eqn:Ht end.
           ++ inversion H; subst. apply Hiter; [exact Ht|discriminate].
           ++ apply Hzero; assumption.
        -- destruct (k x) eqn:Hk.
           ++ inversion H; subst. apply Hzero; congruence.
           ++ apply Hiter; [exact H|discriminate].
      * apply Hiter; [exact H|discriminate].
Qed.

Lemma rmatch_sound r : forall fwd k x res,
  rmatch ic fwd r k x = Some res ->
  exists y, sem ic fwd r x y /\ k y = Some res.
Proof.
  induction r as [|cs|a IHa b IHb|a IHa b IHb|lo hi g a IHa|n a IHa|ah positive a IHa| |];
    intros fwd k x res H; simpl in H.
  - exists x. simpl. auto.
  - destruct (step fwd x) as [[c y]|] eqn:Hs; [|discriminate].
    destruct (cmatch ic cs c) eqn:Hc; [|discriminate].
    exists y. split; [exists c; auto|exact H].
  - destruct fwd.
    + apply IHa in H. destruct H as (z & Ha & H).
      apply IHb in H. destruct H as (y & Hb & H).
      exists y. split; [exists z; auto|exact H].
    + apply IHb in H. destruct H as (z & Hb & H).
      apply IHa in H. destruct H as (y & Ha & H).
      exists y. split; [exists z; auto|exact H].
  - destruct (rmatch ic fwd a k x) eqn:Ha.
    + inversion H; subst. apply IHa in Ha. destruct Ha as (y & Hy & Hk).
      exists y. simpl. auto.
    + apply IHb in H. destruct H as (y & Hy & Hk). exists y. simpl. auto.
  - apply (@repLoop_sound (rmatch ic fwd a) (sem ic fwd a)) in H.
    + destruct H as (n & y & Hc & Hi & Hk). exists y. split; [exists n; auto|exact Hk].
    + intros k' x' res'. apply IHa.
  - apply IHa in H. destruct H as (z & Hz & Hk).
    exists (setCap n (between x z) z). split; [exists z; auto|exact Hk].
  - destruct (rmatch ic ah a Some x) as [z|] eqn:Ha.
    + destruct positive; [|discriminate].
      apply IHa in Ha. destruct Ha as (z' & Hz & Hk). inversion Hk; subst.
      exists (withCaps (caps z) x). split; [exists z; auto|exact H].
    + destruct positive; [discriminate|].
      exists x. simpl. auto.
  - destruct (before x) eqn:Hb; [|discriminate]. exists x. simpl. auto.
  - destruct (after x) eqn:Hb; [|discriminate]. exists x. simpl. auto.
Qed.

End Soundness.

Lemma matchAt_sound R pre suf y :
  matchAt R pre suf = Some y ->
  sem (ignoreCase R) true (source R) {| before := pre; after := suf; caps := [] |} y.
Proof.
  intros H. apply rmatch_sound in H. destruct H as (y' & Hs & Hk).
  inversion Hk; subst. exact Hs.
Qed.

(** ** What a match consumes *)

Lemma moved_refl fwd x : moved fwd x x [].
Proof. destruct fwd; simpl; auto. Qed.

Lemma moved_trans fwd x z y w1 w2 :
  moved fwd x z w1 -> moved fwd z y w2 ->
  moved fwd x y (if fwd then w1 ++ w2 else w2 ++ w1).
Proof.
  destruct fwd; simpl; intros (H1 & H2) (H3 & H4); split.
  - rewrite H1, H3, app_assoc. reflexivity.
  - rewrite H4, H2, rev_app_distr, app_assoc. reflexivity.
  - rewrite H1, H3, rev_app_distr, app_assoc. reflexivity.
  - rewrite H4, H2, app_assoc. reflexivity.
Qed.

Lemma moved_same fwd x x' y y' w :
  before x' = before x -> after x' = after x ->
  before y' = before y -> after y' = after y ->
  moved fwd x y w -> moved fwd x' y' w.
Proof. unfold moved. intros -> -> -> ->. auto. Qed.

Lemma moved_whole fwd x y w : moved fwd x y w -> whole y = whole x.
Proof.
  unfold whole. destruct fwd; simpl; intros (H1 & H2).
  - rewrite H2, H1, rev_app_distr, rev_involutive, <- app_assoc. reflexivity.
  - rewrite H1, H2, rev_app_distr, rev_involutive, <- app_assoc. reflexivity.
Qed.

Lemma moved_pos fwd x y w :
  moved fwd x y w ->
  if fwd then pos y = (length w + pos x)%nat else pos x = (length w + pos y)%nat.
Proof.
  unfold pos. destruct fwd; simpl; intros (H1 & H2).
  - rewrite H2, length_app, length_rev. reflexivity.
  - rewrite H1, length_app, length_rev. reflexivity.
Qed.

Lemma firstn_length_app {A} (w l : list A) : firstn (length w) (w ++ l) = w.
Proof. induction w; simpl; congruence. Qed.

Lemma between_moved fwd x y w : moved fwd x y w -> between x y = w.
Proof.
  intros H. pose proof (@moved_pos _ _ _ _ H) as Hp. unfold between.
  destruct fwd; simpl in H; destruct H as (H1 & H2).
  - rewrite Hp. replace (Nat.leb (pos x) (length w + pos x)) with true
      by (symmetry; apply Nat.leb_le; lia).
    replace (length w + pos x - pos x)%nat with (length w) by lia.
    rewrite H1. apply firstn_length_app.
  - rewrite Hp. destruct w as [|c w].
    + simpl. rewrite Nat.leb_refl, Nat.sub_diag. reflexivity.
    + replace (Nat.leb (length (c :: w) + pos y) (pos y)) with false
        by (symmetry; apply Nat.leb_gt; simpl; lia).
      replace (length (c :: w) + pos y - pos y)%nat with (length (c :: w)) by lia.
      rewrite H2. apply firstn_length_app.
Qed.

Lemma step_moved fwd x c y : step fwd x = Some (c, y) -> moved fwd x y [c].
Proof.
  unfold step. destruct fwd.
  - destruct (after x) eqn:E; [discriminate|]. intros H; inversion H; subst. simpl. auto.
  - destruct (before x) eqn:E; [discriminate|]. intros H; inversion H; subst. simpl. auto.
Qed.

Lemma step_caps fwd x c y : step fwd x = Some (c, y) -> caps y = caps x.
Proof.
  unfold step. destruct fwd.
  - destruct (after x); [discriminate|]. intros H; inversion H; reflexivity.
  - destruct (before x); [discriminate|]. intros H; inversion H; reflexivity.
Qed.

Section Consumption.

Variable ic : bool.

Lemma iter_moved fwd (S : mstate -> mstate -> Prop) gs k :
  (forall x y, S x y -> exists w, moved fwd x y w /\ (k <= length w)%nat) ->
  forall n x y, iter n (fun u v => S (resetCaps gs u) v) x y ->
  exists w, moved fwd x y w /\ (n * k <= length w)%nat.
Proof.
  intros HS. induction n as [|n IH]; intros x y H; simpl in H.
  - subst. exists []. split; [apply moved_refl|simpl; lia].
  - destruct H as (z & Hz & Hi). apply HS in Hz. destruct Hz as (w1 & Hm1 & Hl1).
    apply IH in Hi. destruct Hi as (w2 & Hm2 & Hl2).
    assert (Hm1' : moved fwd x z w1) by (eapply moved_same; eauto).
    pose proof (@moved_trans _ _ _ _ _ _ Hm1' Hm2) as Hm.
    eexists. split; [exact Hm|].
    destruct fwd; rewrite length_app; simpl; lia.
Qed.

Lemma sem_moved r : forall fwd x y,
  sem ic fwd r x y -> exists w, moved fwd x y w /\ (minLen r <= length w)%nat.
Proof.
  induction r as [|cs|a IHa b IHb|a IHa b IHb|lo hi g a IHa|n a IHa|ah positive a IHa| |];
    intros fwd x y H; simpl in H.
  - subst. exists []. split; [apply moved_refl|simpl; lia].
  - destruct H as (c & Hs & _). exists [c]. split; [eapply step_moved; eauto|simpl; lia].
  - destruct H as (z & H). destruct fwd; destruct H as (H1 & H2).
    + apply IHa in H1. apply IHb in H2.
      destruct H1 as (w1 & Hm1 & Hl1), H2 as (w2 & Hm2 & Hl2).
      exists (w1 ++ w2). split; [apply (@moved_trans _ _ _ _ _ _ Hm1 Hm2)|].
      rewrite length_app. simpl. lia.
    + apply IHb in H1. apply IHa in H2.
      destruct H1 as (w1 & Hm1 & Hl1), H2 as (w2 & Hm2 & Hl2).
      exists (w2 ++ w1). split; [apply (@moved_trans _ _ _ _ _ _ Hm1 Hm2)|].
      rewrite length_app. simpl. lia.
  - destruct H as [H|H]; [apply IHa in H|apply IHb in H];
      destruct H as (w & Hm & Hl); exists w; (split; [exact Hm|simpl; lia]).
  - destruct H as (n & Hc & Hi).
    apply (@iter_moved fwd (sem ic fwd a) (groups a) (minLen a)) in Hi; [|apply IHa].
    destruct Hi as (w & Hm & Hl). exists w. split; [exact Hm|].
    simpl. destruct hi as [h|]; simpl in Hc; nia.
  - destruct H as (z & Hz & ->). apply IHa in Hz. destruct Hz as (w & Hm & Hl).
    exists w. split; [eapply moved_same; eauto|exact Hl].
  - exists []. split; [|simpl; lia].
    destruct positive.
    + destruct H as (z & _ & ->). destruct fwd; simpl; auto.
    + destruct H as (_ & ->). apply moved_refl.
  - destruct H as (_ & ->). exists []. split; [apply moved_refl|simpl; lia].
  - destruct H as (_ & ->). exists []. split; [apply moved_refl|simpl; lia].
Qed.

End Consumption.

(** A match from a position: its length and its text. *)
Lemma matchAt_matched R pre suf y :
  matchAt R pre suf = Some y ->
  exists w, suf = w ++ after y /\ before y = rev w ++ pre
            /\ matched pre suf y = w /\ matchLen pre y = length w
            /\ (minLen (source R) <= length w)%nat.
Proof.
  intros H. apply matchAt_sound in H. apply sem_moved in H.
  destruct H as (w & (H1 & H2) & Hl). simpl in H1, H2.
  assert (Hlen : matchLen pre y = length w).
  { unfold matchLen, pos. rewrite H2, length_app, length_rev. lia. }
  exists w. repeat split; auto.
  unfold matched. rewrite Hlen, H1. apply firstn_length_app.
Qed.

(** ** Captures *)

Lemma getCap_reset n gs cs :
  getCap n (map (fun g => (g, None)) gs ++ cs)
  = if existsb (Nat.eqb n) gs then None else getCap n cs.
Proof.
  induction gs as [|g gs IH]; simpl; [reflexivity|].
  rewrite (Nat.eqb_sym n g). destruct (Nat.eqb g n); simpl; [reflexivity|exact IH].
Qed.

Lemma mentions_seq n a b : mentions n (Seq a b) = mentions n a || mentions n b.
Proof. unfold mentions. simpl. apply existsb_app. Qed.

Lemma moved_within fwd x y w : moved fwd x y w -> within (whole x) w.
Proof.
  unfold whole, within. destruct fwd; simpl; intros (H1 & H2).
  - exists (rev (before x)), (after y). rewrite H1. reflexivity.
  - exists (rev (before y)), (after x).
    rewrite H1, rev_app_distr, rev_involutive, <- app_assoc. reflexivity.
Qed.

Section Captures.

Variable ic : bool.

Lemma sem_whole r fwd x y : sem ic fwd r x y -> whole y = whole x.
Proof.
  intros H. apply sem_moved in H. destruct H as (w & Hm & _).
  eapply moved_whole; eauto.
Qed.

Lemma sem_preserves_cap n r : forall fwd x y,
  sem ic fwd r x y -> mentions n r = false -> getCap n (caps y) = getCap n (caps x).
Proof.
  induction r as [|cs|a IHa b IHb|a IHa b IHb|lo hi g a IHa|m a IHa|ah positive a IHa| |];
    intros fwd x y H Hn; simpl in H.
  - subst. reflexivity.
  - destruct H as (c & Hs & _). apply step_caps in Hs. rewrite Hs. reflexivity.
  - rewrite mentions_seq in Hn. apply orb_false_iff in Hn. destruct Hn as (Ha & Hb).
    destruct H as (z & H). destruct fwd; destruct H as (H1 & H2).
    + rewrite (IHb _ _ _ H2 Hb). apply (IHa _ _ _ H1 Ha).
    + rewrite (IHa _ _ _ H2 Ha). apply (IHb _ _ _ H1 Hb).
  - unfold mentions in Hn. simpl in Hn. rewrite existsb_app in Hn.
    apply orb_false_iff in Hn. destruct Hn as (Ha & Hb).
    destruct H as [H|H]; eauto.
  - destruct H as (k & _ & Hi). revert x Hi.
    induction k as [|k IHk]; intros x Hi; simpl in Hi.
    + subst. reflexivity.
    + destruct Hi as (z & Hz & Hi). rewrite (IHk _ Hi).
      rewrite (IHa _ _ _ Hz Hn). simpl. rewrite getCap_reset.
      unfold mentions in Hn. simpl in Hn. rewrite Hn. reflexivity.
  - destruct H as (z & Hz & ->). unfold mentions in Hn. simpl in Hn.
    apply orb_false_iff in Hn. destruct Hn as (Hm & Ha).
    simpl. rewrite Nat.eqb_sym, Hm. apply (IHa _ _ _ Hz Ha).
  - destruct positive.
    + destruct H as (z & Hz & ->). simpl. apply (IHa _ _ _ Hz Hn).
    + destruct H as (_ & ->). reflexivity.
  - destruct H as (_ & ->). reflexivity.
  - destruct H as (_ & ->). reflexivity.
Qed.

Lemma sem_defines n r : forall fwd x y,
  sem ic fwd r x y -> defines n r = true -> exists v, getCap n (caps y) = Some v.
Proof.
  induction r as [|cs|a IHa b IHb|a IHa b IHb|lo hi g a IHa|m a IHa|ah positive a IHa| |];
    intros fwd x y H Hd; simpl in H, Hd; try discriminate.
  - destruct H as (z & H).
    apply orb_true_iff in Hd.
    destruct Hd as [Hd|Hd]; apply andb_true_iff in Hd; destruct Hd as (Hd & Hm);
      apply negb_true_iff in Hm; destruct fwd; destruct H as (H1 & H2).
    + rewrite (@sem_preserves_cap n _ _ _ _ H2 Hm). eauto.
    + eauto.
    + eauto.
    + rewrite (@sem_preserves_cap n _ _ _ _ H2 Hm). eauto.
  - apply andb_true_iff in Hd. destruct Hd as (Ha & Hb). destruct H as [H|H]; eauto.
  - destruct H as (z & Hz & ->). simpl.
    destruct (Nat.eqb m n) eqn:E; [eauto|]. simpl in Hd. eauto.
  - destruct positive; [|discriminate].
    destruct H as (z & Hz & ->). simpl. eauto.
Qed.

Lemma sem_caps_within r : forall fwd x y,
  sem ic fwd r x y -> capsWithin (whole x) (caps x) -> capsWithin (whole x) (caps y).
Proof.
  induction r as [|cs|a IHa b IHb|a IHa b IHb|lo hi g a IHa|m a IHa|ah positive a IHa| |];
    intros fwd x y H Hx; simpl in H.
  - subst. exact Hx.
  - destruct H as (c & Hs & _). apply step_caps in Hs. rewrite Hs. exact Hx.
  - destruct H as (z & H). destruct fwd; destruct H as (H1 & H2).
    + pose proof (@sem_whole _ _ _ _ H1) as Hw. rewrite <- Hw.
      eapply IHb; eauto. rewrite Hw. eapply IHa; eauto.
    + pose proof (@sem_whole _ _ _ _ H1) as Hw. rewrite <- Hw.
      eapply IHa; eauto. rewrite Hw. eapply IHb; eauto.
  - destruct H as [H|H]; eauto.
  - destruct H as (k & _ & Hi). revert x Hx Hi.
    induction k as [|k IHk]; intros x Hx Hi; simpl in Hi.
    + subst. exact Hx.
    + destruct Hi as (z & Hz & Hi).
      assert (Hw : whole z = whole x) by (apply sem_whole in Hz; exact Hz).
      rewrite <- Hw. apply IHk; [|exact Hi]. rewrite Hw.
      apply (IHa _ _ _ Hz). intros n v. simpl. rewrite getCap_reset.
      destruct (existsb (Nat.eqb n) (groups a)); [discriminate|apply Hx].
  - destruct H as (z & Hz & ->). intros n v. simpl.
    destruct (Nat.eqb m n).
    + intros E; inversion E; subst.
      pose proof Hz as Hs. apply sem_moved in Hs. destruct Hs as (w & Hm & _).
      rewrite (@between_moved _ _ _ _ Hm). eapply moved_within; eauto.
    + apply (IHa _ _ _ Hz Hx).
  - destruct positive.
    + destruct H as (z & Hz & ->). simpl. apply (IHa _ _ _ Hz Hx).
    + destruct H as (_ & ->). exact Hx.
  - destruct H as (_ & ->). exact Hx.
  - destruct H as (_ & ->). exact Hx.
Qed.

End Captures.

Lemma matchAt_caps_within R pre suf y :
  matchAt R pre suf = Some y -> capsWithin (rev pre ++ suf) (caps y).
Proof.
  intros H. apply matchAt_sound in H. apply sem_caps_within in H; [exact H|].
  intros n v. simpl. discriminate.
Qed.

Lemma matchAt_defines R pre suf y g :
  matchAt R pre suf = Some y -> defines g (source R) = true ->
  exists v, getCap g (caps y) = Some v.
Proof. intros H. apply matchAt_sound in H. eapply sem_defines; eauto. Qed.

(** ** The pieces of a split, the result of a replacement *)

Lemma within_refl s : within s s.
Proof. exists [], []. rewrite app_nil_r. reflexivity. Qed.

Lemma splitLoop_within R : forall suf skip cur pre p,
  (skip <> 0%nat -> cur = []) ->
  (exists a, rev pre = a ++ rev cur) ->
  In (Some p) (splitLoop R skip cur pre suf) ->
  within (rev pre ++ suf) p.
Proof.
  induction suf as [|c suf IH]; intros skip cur pre p Hskip (a & Ha) Hin.
  - simpl in Hin. destruct Hin as [E|[]]. inversion E; subst.
    exists a, []. rewrite Ha, !app_nil_r. reflexivity.
  - assert (Hnext : forall skip' cur',
      (skip' <> 0%nat -> cur' = []) ->
      (exists a', rev (c :: pre) = a' ++ rev cur') ->
      In (Some p) (splitLoop R skip' cur' (c :: pre) suf) ->
      within (rev pre ++ c :: suf) p).
    { intros skip' cur' H1 H2 H3.
      replace (rev pre ++ c :: suf) with (rev (c :: pre) ++ suf)
        by (simpl; rewrite <- app_assoc; reflexivity).
      eapply IH; eauto. }
    assert (Hcur : within (rev pre ++ c :: suf) (rev cur)).
    { exists a, (c :: suf). rewrite Ha, <- app_assoc. reflexivity. }
    assert (Hgrow : exists a', rev (c :: pre) = a' ++ rev (c :: cur)).
    { exists a. simpl. rewrite Ha, app_assoc. reflexivity. }
    assert (Hone : exists a', rev (c :: pre) = a' ++ rev [c]).
    { exists (rev pre). reflexivity. }
    assert (Hnone : exists a', rev (c :: pre) = a' ++ rev []).
    { exists (rev (c :: pre)). rewrite app_nil_r. reflexivity. }
    simpl in Hin. destruct skip as [|n].
    + destruct (matchAt R pre (c :: suf)) as [y|] eqn:Hm.
      * assert (Hcaps : In (Some p) (map (fun g => getCap g (caps y)) (groups (source R))) ->
                        within (rev pre ++ c :: suf) p).
        { intros Hi. apply in_map_iff in Hi. destruct Hi as (g & Hg & _).
          eapply matchAt_caps_within; eauto. }
        destruct (matchLen pre y) as [|n].
        -- destruct cur as [|d cur].
           ++ apply (Hnext 0%nat [c]); [intros HH; congruence|exact Hone|exact Hin].
           ++ destruct Hin as [E|Hin]; [inversion E; subst; exact Hcur|].
              apply in_app_or in Hin. destruct Hin as [Hin|Hin]; [auto|].
              apply (Hnext 0%nat [c]); [intros HH; congruence|exact Hone|exact Hin].
        -- destruct Hin as [E|Hin]; [inversion E; subst; exact Hcur|].
           apply in_app_or in Hin. destruct Hin as [Hin|Hin]; [auto|].
           apply (Hnext n []); [reflexivity|exact Hnone|exact Hin].
      * apply (Hnext 0%nat (c :: cur)); [intros HH; congruence|exact Hgrow|exact Hin].
    + rewrite (Hskip ltac:(discriminate)) in *.
      apply (Hnext n []); [reflexivity|exact Hnone|exact Hin].
Qed.

(** Every piece and every capture of a split is a part of the text. *)
Lemma splitRe_within R s p : In (Some p) (splitRe R s) -> within s p.
Proof.
  unfold splitRe. destruct s as [|c s].
  - destruct (matchAt R [] []); simpl; [intros []|].
    intros [E|[]]. inversion E. apply within_refl.
  - intros H. apply (@splitLoop_within R (c :: s) 0%nat [] [] p) in H; auto.
    exists []. reflexivity.
Qed.

Lemma splitLoop_defined R : definesAll R = true ->
  forall suf skip cur pre, ~ In None (splitLoop R skip cur pre suf).
Proof.
  intros Hd. induction suf as [|c suf IH]; intros skip cur pre Hin; simpl in Hin.
  - destruct Hin as [E|[]]. discriminate.
  - destruct skip as [|n]; [|eapply IH; eauto].
    destruct (matchAt R pre (c :: suf)) as [y|] eqn:Hm; [|eapply IH; eauto].
    assert (Hcaps : ~ In None (map (fun g => getCap g (caps y)) (groups (source R)))).
    { intros Hi. apply in_map_iff in Hi. destruct Hi as (g & Hg & Hing).
      unfold definesAll in Hd. rewrite forallb_forall in Hd.
      destruct (@matchAt_defines _ _ _ _ g Hm (Hd g Hing)) as (v & Hv). congruence. }
    destruct (matchLen pre y) as [|n].
    + destruct cur as [|d cur]; [eapply IH; eauto|].
      destruct Hin as [E|Hin]; [discriminate|].
      apply in_app_or in Hin. destruct Hin as [Hin|Hin]; [auto|eapply IH; eauto].
    + destruct Hin as [E|Hin]; [discriminate|].
      apply in_app_or in Hin. destruct Hin as [Hin|Hin]; [auto|eapply IH; eauto].
Qed.

(** When every group of the pattern is set in every match, no element of
    the split is [undefined]. *)
Lemma splitRe_defined R s : definesAll R = true -> ~ In None (splitRe R s).
Proof.
  intros Hd. unfold splitRe. destruct s as [|c s].
  - destruct (matchAt R [] []); simpl; [tauto|]. intros [E|[]]. discriminate.
  - apply splitLoop_defined. exact Hd.
Qed.

Lemma replaceLoop_rewritten R tpl : forall suf skip pre,
  Rewritten (replaces R tpl) (skipn skip suf) (replaceLoop R tpl skip pre suf).
Proof.
  induction suf as [|c suf IH]; intros skip pre.
  - rewrite skipn_nil. destruct skip as [|n]; simpl; [|constructor].
    destruct (matchAt R pre []) as [y|] eqn:Hm; [|constructor].
    apply (@rw_match (replaces R tpl) [] (expand tpl (caps y)) [] []); [|constructor].
    exists pre, [], y. repeat split; auto. unfold matched. rewrite firstn_nil. reflexivity.
  - destruct skip as [|n]; simpl; [|apply IH].
    destruct (matchAt R pre (c :: suf)) as [y|] eqn:Hm.
    + destruct (matchLen pre y) as [|n] eqn:Hl; simpl.
      * apply (@rw_match (replaces R tpl) [] (expand tpl (caps y)) (c :: suf)).
        -- exists pre, (c :: suf), y. repeat split; auto.
           unfold matched. rewrite Hl. reflexivity.
        -- constructor. apply (IH 0%nat).
      * rewrite Nat.sub_0_r.
        replace (c :: suf) with (matched pre (c :: suf) y ++ skipn n suf).
        -- apply rw_match; [|apply IH]. exists pre, (c :: suf), y. auto.
        -- unfold matched. rewrite Hl. simpl. rewrite firstn_skipn. reflexivity.
    + constructor. apply (IH 0%nat).
Qed.

Lemma replaceAll_rewritten R tpl s :
  Rewritten (replaces R tpl) s (replaceAll R tpl s).
Proof. apply (replaceLoop_rewritten R tpl s 0 []). Qed.

(** ** Trimming *)

Lemma allWhite_app a b : allWhite (a ++ b) = allWhite a && allWhite b.
Proof. apply forallb_app. Qed.

Lemma allWhite_rev s : allWhite (rev s) = allWhite s.
Proof.
  induction s as [|c s IH]; simpl; [reflexivity|].
  rewrite allWhite_app, IH. simpl. rewrite andb_true_r. apply andb_comm.
Qed.

Lemma trimStart_white s : allWhite s = true -> trimStart s = [].
Proof.
  induction s as [|c s IH]; simpl; [reflexivity|].
  destruct (isWhiteSpace c); simpl; [exact IH|discriminate].
Qed.

Lemma trimStart_nil s : trimStart s = [] -> allWhite s = true.
Proof.
  induction s as [|c s IH]; simpl; [reflexivity|].
  destruct (isWhiteSpace c); simpl; [exact IH|discriminate].
Qed.

Lemma trimStart_app a x :
  trimStart (a ++ x) = if allWhite a then trimStart x else trimStart a ++ x.
Proof.
  induction a as [|c a IH]; simpl; [reflexivity|].
  destruct (isWhiteSpace c); simpl; [exact IH|reflexivity].
Qed.

Lemma trimEnd_app x b :
  trimEnd (x ++ b) = if allWhite b then trimEnd x else x ++ trimEnd b.
Proof.
  unfold trimEnd. rewrite rev_app_distr, trimStart_app, allWhite_rev.
  destruct (allWhite b); [reflexivity|].
  rewrite rev_app_distr, rev_involutive. reflexivity.
Qed.

Lemma trimStart_length s : (length (trimStart s) <= length s)%nat.
Proof.
  induction s as [|c s IH]; simpl; [lia|].
  destruct (isWhiteSpace c); simpl; lia.
Qed.

Lemma trimEnd_length s : (length (trimEnd s) <= length s)%nat.
Proof.
  unfold trimEnd. rewrite length_rev.
  etransitivity; [apply trimStart_length|]. rewrite length_rev. lia.
Qed.

Lemma trimStart_suffix s : exists w, s = w ++ trimStart s /\ allWhite w = true.
Proof.
  induction s as [|c s (w & Hw & Ha)]; simpl.
  - exists []. auto.
  - destruct (isWhiteSpace c) eqn:E.
    + exists (c :: w). simpl. rewrite E, Ha. split; [congruence|reflexivity].
    + exists []. auto.
Qed.

Lemma allWhite_trimStart s : allWhite (trimStart s) = allWhite s.
Proof.
  destruct (trimStart_suffix s) as (w & Hw & Ha).
  rewrite Hw at 2. rewrite allWhite_app, Ha. reflexivity.
Qed.

Lemma allWhite_trimEnd s : allWhite (trimEnd s) = allWhite s.
Proof.
  unfold trimEnd. rewrite allWhite_rev, allWhite_trimStart, allWhite_rev. reflexivity.
Qed.

Lemma allWhite_trim s : allWhite (trim s) = allWhite s.
Proof. unfold trim. rewrite allWhite_trimEnd, allWhite_trimStart. reflexivity. Qed.

Lemma trimEnd_white s : allWhite s = true -> trimEnd s = [].
Proof.
  intros H. unfold trimEnd. rewrite trimStart_white; [reflexivity|].
  rewrite allWhite_rev. exact H.
Qed.

Lemma trim_white s : allWhite s = true -> trim s = [].
Proof.
  intros H. unfold trim. apply trimEnd_white. rewrite allWhite_trimStart. exact H.
Qed.

Lemma trim_nil s : trim s = [] -> allWhite s = true.
Proof. intros H. rewrite <- allWhite_trim, H. reflexivity. Qed.

Lemma trimEnd_trimStart_length s :
  (length (trimEnd (trimStart s)) <= length (trimEnd s))%nat.
Proof.
  destruct (trimStart_suffix s) as (w & Hw & Ha).
  rewrite Hw at 2. rewrite trimEnd_app.
  destruct (allWhite (trimStart s)) eqn:E.
  - rewrite (trimEnd_white _ E). simpl. lia.
  - rewrite length_app. lia.
Qed.

Lemma trimmedLength_white s : allWhite s = true -> trimmedLength s = 0%nat.
Proof. intros H. unfold trimmedLength. rewrite (trim_white _ H). reflexivity. Qed.

(** ** Texts that shrink *)

Lemma trimmedLength_within s p : within s p -> (trimmedLength p <= trimmedLength s)%nat.
Proof.
  intros (a & b & ->). unfold trimmedLength, trim.
  destruct (allWhite p) eqn:Ep.
  { rewrite (trimStart_white _ Ep). simpl. lia. }
  rewrite trimStart_app. destruct (allWhite a).
  - rewrite trimStart_app, Ep, trimEnd_app.
    destruct (allWhite b); [lia|].
    rewrite length_app. pose proof (trimEnd_length (trimStart p)). lia.
  - rewrite app_assoc, trimEnd_app. destruct (allWhite b).
    + rewrite trimEnd_app, Ep, length_app.
      pose proof (trimEnd_trimStart_length p). lia.
    + rewrite !length_app.
      pose proof (trimEnd_length (trimStart p)). pose proof (trimStart_length p). lia.
Qed.

Lemma shrinks_white m r :
  allWhite r = true -> (length r <= length m)%nat -> shrinks m r.
Proof.
  intros Hr Hl a b. unfold trimmedLength, trim.
  rewrite !trimStart_app. destruct (allWhite a) eqn:Ea.
  - rewrite Hr. destruct (allWhite m) eqn:Em; [lia|].
    rewrite trimEnd_app. destruct (allWhite b) eqn:Eb.
    + rewrite (trimEnd_white (trimStart b)); [simpl; lia|].
      rewrite allWhite_trimStart. exact Eb.
    + rewrite length_app. pose proof (trimEnd_trimStart_length b). lia.
  - rewrite !(app_assoc (trimStart a)), !trimEnd_app.
    destruct (allWhite b) eqn:Eb.
    + rewrite Hr. destruct (allWhite m); [lia|].
      rewrite length_app. pose proof (trimEnd_length (trimStart a)). lia.
    + rewrite !length_app. lia.
Qed.

Lemma shrinks_refl s : shrinks s s.
Proof. intros a b. lia. Qed.

Lemma shrinks_cons c s t : shrinks s t -> shrinks (c :: s) (c :: t).
Proof.
  intros H a b. specialize (H (a ++ [c]) b).
  rewrite <- !app_assoc in H. exact H.
Qed.

Lemma shrinks_app m r s t : shrinks m r -> shrinks s t -> shrinks (m ++ s) (r ++ t).
Proof.
  intros H1 H2 a b.
  specialize (H2 (a ++ r) b). specialize (H1 a (s ++ b)).
  rewrite <- !app_assoc in *. lia.
Qed.

Lemma rewritten_shrinks Q s t :
  (forall m r, Q m r -> shrinks m r) -> Rewritten Q s t -> shrinks s t.
Proof.
  intros HQ H. induction H as [|c s t H IH|m r s t Hq H IH].
  - apply shrinks_refl.
  - apply shrinks_cons. exact IH.
  - apply shrinks_app; [apply HQ; exact Hq|exact IH].
Qed.

Lemma shrinks_trimmedLength s t : shrinks s t -> (trimmedLength t <= trimmedLength s)%nat.
Proof. intros H. specialize (H [] []). rewrite !app_nil_r in H. exact H. Qed.

(** ** The group at the end of a pattern, anchored patterns *)

Lemma finalGroup_seq a b g :
  finalGroup (Seq a b) = Some g ->
  (exists a', a = Grp g a' /\ b = Eol
              /\ minBeforeFinal (Seq a b) = 0%nat /\ minFinal (Seq a b) = minLen a')
  \/ (finalGroup b = Some g
      /\ minBeforeFinal (Seq a b) = (minLen a + minBeforeFinal b)%nat
      /\ minFinal (Seq a b) = minFinal b).
Proof.
  destruct a; destruct b; simpl; intros H;
    try (right; repeat split; solve [assumption|reflexivity]);
    try discriminate.
  left. inversion H; subst. eexists. repeat split.
Qed.

Lemma sem_finalGroup ic r : forall g x y,
  sem ic true r x y -> finalGroup r = Some g ->
  exists w1 v, moved true x y (w1 ++ v) /\ getCap g (caps y) = Some v
               /\ (minBeforeFinal r <= length w1)%nat /\ (minFinal r <= length v)%nat.
Proof.
  assert (Hgrp : forall g a x y, sem ic true (Grp g a) x y ->
    exists v, moved true x y v /\ getCap g (caps y) = Some v /\ (minLen a <= length v)%nat).
  { intros g a x y H. simpl in H. destruct H as (z & Hz & ->).
    apply sem_moved in Hz. destruct Hz as (w & Hm & Hl).
    exists w. rewrite (@between_moved _ _ _ _ Hm). simpl. rewrite Nat.eqb_refl.
    repeat split; auto; apply Hm. }
  induction r as [|cs|a IHa b IHb|a IHa b IHb|lo hi gr a IHa|n a IHa|ah positive a IHa| |];
    intros g x y H Hf; try discriminate.
  - apply finalGroup_seq in Hf.
    destruct Hf as [(a' & -> & -> & -> & ->)|(Hb & -> & ->)].
    + simpl in H. destruct H as (z & H1 & (_ & ->)).
      apply (Hgrp g a' x z) in H1. destruct H1 as (v & Hm & Hc & Hl).
      exists [], v. simpl. repeat split; auto; try apply Hm; try lia.
    + simpl in H. destruct H as (z & H1 & H2).
      apply sem_moved in H1. destruct H1 as (wa & Hma & Hla).
      destruct (IHb _ _ _ H2 Hb) as (w1 & v & Hm & Hc & Hl1 & Hl2).
      exists (wa ++ w1), v. rewrite <- app_assoc. repeat split; auto.
      * destruct Hma as (E1 & _), Hm as (E2 & _).
        simpl. rewrite E1, E2, <- !app_assoc. reflexivity.
      * destruct Hma as (_ & E1), Hm as (_ & E2).
        simpl. rewrite E2, E1, !rev_app_distr, <- !app_assoc. reflexivity.
      * rewrite length_app. lia.
  - simpl in Hf. inversion Hf; subst.
    apply Hgrp in H. destruct H as (v & Hm & Hc & Hl).
    exists [], v. simpl. repeat split; auto; try apply Hm; try lia.
Qed.

Lemma sem_startsAtBol ic r : forall x y,
  sem ic true r x y -> startsAtBol r = true -> before x = [].
Proof.
  induction r; intros x y H Hs; simpl in Hs; try discriminate.
  - simpl in H. destruct H as (z & H1 & _). eauto.
  - simpl in H. apply H.
Qed.

Lemma sem_endsAtEol ic r : forall x y,
  sem ic true r x y -> endsAtEol r = true -> after y = [].
Proof.
  induction r; intros x y H Hs; simpl in Hs; try discriminate.
  - simpl in H. destruct H as (z & _ & H2). eauto.
  - simpl in H. destruct H as (H1 & ->). exact H1.
Qed.

Lemma searchFrom_found R : forall suf pre p s y,
  searchFrom R pre suf = Some (p, s, y) ->
  matchAt R p s = Some y /\ rev p ++ s = rev pre ++ suf.
Proof.
  induction suf as [|c suf IH]; intros pre p s y H; simpl in H.
  - destruct (matchAt R pre []) eqn:E; [|discriminate]. inversion H; subst. auto.
  - destruct (matchAt R pre (c :: suf)) eqn:E.
    + inversion H; subst. auto.
    + apply IH in H. destruct H as (H1 & H2). split; [exact H1|].
      rewrite H2. simpl. rewrite <- app_assoc. reflexivity.
Qed.

(** A match of a pattern anchored at both ends is the whole text, and the
    group at its end holds the end of the text. *)
Lemma matchFirst_anchored R s m :
  matchFirst R s = Some m ->
  startsAtBol (source R) = true -> endsAtEol (source R) = true ->
  fst m = s.
Proof.
  unfold matchFirst. destruct (searchFrom R [] s) as [[[p s'] y]|] eqn:E; [|discriminate].
  intros H Hb He. inversion H; subst. simpl.
  apply searchFrom_found in E. destruct E as (Hm & Hw). simpl in Hw.
  pose proof (@matchAt_sound _ _ _ _ Hm) as Hs.
  pose proof (@sem_startsAtBol _ _ _ _ Hs Hb) as Hp. simpl in Hp. subst p. simpl in Hw. subst s'.
  pose proof (@sem_endsAtEol _ _ _ _ Hs He) as Ha.
  destruct (@matchAt_matched _ _ _ _ Hm) as (w & H1 & _ & H3 & _).
  rewrite H3, H1, Ha, app_nil_r. reflexivity.
Qed.

Lemma matchFirst_finalGroup R s m g :
  matchFirst R s = Some m ->
  startsAtBol (source R) = true -> endsAtEol (source R) = true ->
  finalGroup (source R) = Some g ->
  exists w v, s = w ++ v /\ getCap g (snd m) = Some v
              /\ (minFinal (source R) <= length v)%nat.
Proof.
  unfold matchFirst. destruct (searchFrom R [] s) as [[[p s'] y]|] eqn:E; [|discriminate].
  intros H Hb He Hg. inversion H; subst. simpl.
  apply searchFrom_found in E. destruct E as (Hm & Hw). simpl in Hw.
  pose proof (@matchAt_sound _ _ _ _ Hm) as Hs.
  pose proof (@sem_startsAtBol _ _ _ _ Hs Hb) as Hp. simpl in Hp. subst p. simpl in Hw. subst s'.
  pose proof (@sem_endsAtEol _ _ _ _ Hs He) as Ha.
  destruct (@sem_finalGroup _ _ _ _ _ Hs Hg) as (w1 & v & (H1 & _) & Hc & _ & Hl).
  simpl in H1. rewrite Ha, app_nil_r in H1. eauto.
Qed.

(** ** Removing page numbers never lengthens the trimmed text *)

Lemma replaces_white R t m r :
  allWhite t = true -> (length t <= minLen (source R))%nat ->
  replaces R [Lit t] m r -> shrinks m r.
Proof.
  intros Ht Hl (pre & suf & y & Hm & -> & ->).
  destruct (@matchAt_matched _ _ _ _ Hm) as (w & _ & _ & -> & _ & Hw).
  simpl. rewrite app_nil_r. apply shrinks_white; [exact Ht|lia].
Qed.

Lemma replaceAll_white R t s :
  allWhite t = true -> (length t <= minLen (source R))%nat ->
  shrinks s (replaceAll R [Lit t] s).
Proof.
  intros Ht Hl. eapply rewritten_shrinks; [|apply replaceAll_rewritten].
  intros m r. apply replaces_white; assumption.
Qed.

Lemma moved_matched pre suf cs y w :
  moved true {| before := pre; after := suf; caps := cs |} y w ->
  matched pre suf y = w.
Proof.
  intros (H1 & H2). simpl in H1, H2. unfold matched, matchLen, pos.
  rewrite H2, length_app, length_rev, Nat.add_sub, H1. apply firstn_length_app.
Qed.

Lemma sem_first_char ic cs rest x y :
  sem ic true (Seq (Chr cs) rest) x y ->
  exists c w, cmatch ic cs c = true /\ moved true x y (c :: w)
              /\ (minLen rest <= length w)%nat.
Proof.
  intros (z & (c & Hstep & Hc) & Hrest).
  apply step_moved in Hstep. apply sem_moved in Hrest.
  destruct Hrest as (w & Hm & Hl). exists c, w. repeat split; [exact Hc| | |exact Hl].
  - destruct Hstep as (E1 & _), Hm as (E2 & _). rewrite E1, E2. reflexivity.
  - destruct Hstep as (_ & E1), Hm as (_ & E2). rewrite E2, E1. simpl.
    rewrite <- app_assoc. reflexivity.
Qed.

Lemma replaces_rePage2 m r :
  replaces rePage2 [Lit (ch "." :: nlnl)] m r -> shrinks m r.
Proof.
  intros (pre & suf & y & Hm & -> & ->).
  apply matchAt_sound in Hm. apply sem_first_char in Hm.
  destruct Hm as (c & w & Hc & Hm & Hl).
  rewrite (moved_matched Hm).
  assert (Ec : c = ch ".").
  { unfold cmatch, inRanges in Hc. simpl in Hc.
    rewrite !orb_false_r in Hc. apply andb_true_iff in Hc.
    destruct Hc as (H1 & H2). apply N.leb_le in H1, H2.
    unfold ch. simpl. lia. }
  subst c. simpl. apply shrinks_cons. apply shrinks_white; [reflexivity|].
  simpl in Hl. simpl. lia.
Qed.

Lemma replaces_rePage3 m r :
  replaces rePage3 [Lit nlnl; Ref 2] m r -> shrinks m r.
Proof.
  intros (pre & suf & y & Hm & -> & ->).
  apply matchAt_sound in Hm.
  destruct (@sem_finalGroup _ _ 2%nat _ _ Hm eq_refl) as (w1 & v & Hmv & Hc & Hl & _).
  rewrite (moved_matched Hmv). unfold expand. simpl. rewrite Hc, app_nil_r.
  change (shrinks (w1 ++ v) (nlnl ++ v)).
  apply shrinks_app; [|apply shrinks_refl].
  apply shrinks_white; [reflexivity|]. simpl in Hl. simpl. lia.
Qed.

(** The text cleaned of page numbers is, once trimmed, no longer than the
    text itself once trimmed. *)
Lemma removePageNumbers_shrinks text : shrinks text (removePageNumbers text).
Proof.
  unfold removePageNumbers.
  assert (Htrans : forall s t u, shrinks s t -> shrinks t u -> shrinks s u).
  { intros s t u H1 H2 a b. specialize (H1 a b). specialize (H2 a b). lia. }
  repeat (eapply Htrans; [|first
    [ apply replaceAll_white; [reflexivity|simpl; lia]
    | eapply rewritten_shrinks; [|apply replaceAll_rewritten];
      first [exact replaces_rePage2|exact replaces_rePage3] ]]).
  apply shrinks_refl.
Qed.

Lemma removePageNumbers_trimmedLength text :
  (trimmedLength (removePageNumbers text) <= trimmedLength text)%nat.
Proof. apply shrinks_trimmedLength, removePageNumbers_shrinks. Qed.

(** ** A greedy run of one class, and [/ +/g] *)

Lemma repLoop_run ic cs : forall fuel lo x,
  (lo + length (after x) <= fuel)%nat ->
  repLoop (rmatch ic true (Chr cs)) [] true Some fuel lo None x
  = if Nat.leb lo (run ic cs (after x))
    then Some (advance (run ic cs (after x)) x) else None.
Proof.
  induction fuel as [|fuel IH]; intros lo [pre suf cs0] Hf; simpl in Hf.
  - assert (lo = 0%nat) by lia. assert (suf = []) by (destruct suf; simpl in *; [auto|lia]).
    subst. reflexivity.
  - cbn [repLoop]. unfold resetCaps. cbn [map app before after caps rmatch step].
    destruct suf as [|c suf].
    + cbn [run]. destruct lo as [|lo]; reflexivity.
    + cbn [run]. destruct (cmatch ic cs c) eqn:Hc.
      * unfold pos. cbn [before length].
        replace (Nat.eqb (S (length pre)) (length pre)) with false
          by (symmetry; apply Nat.eqb_neq; lia).
        rewrite andb_false_r, IH by (cbn [after length] in *; lia).
        cbn [after before caps].
        assert (Hadv : advance (run ic cs suf) {| before := c :: pre; after := suf; caps := cs0 |}
                       = advance (S (run ic cs suf)) {| before := pre; after := c :: suf; caps := cs0 |}).
        { unfold advance. cbn [before after caps firstn skipn rev].
          rewrite <- app_assoc. reflexivity. }
        rewrite Hadv. destruct lo as [|lo]; cbn [Nat.eqb negb Nat.pred Nat.leb]; reflexivity.
      * destruct lo as [|lo]; reflexivity.
Qed.

Lemma run_le ic cs s : (run ic cs s <= length s)%nat.
Proof.
  induction s as [|c s IH]; simpl; [lia|].
  destruct (cmatch ic cs c); simpl; lia.
Qed.

Lemma cmatch_space c : cmatch false spaceClass c = (c =? SP)%N.
Proof.
  unfold cmatch, inRanges. cbn. rewrite !orb_false_r.
  destruct (N.eqb_spec c SP) as [->|Hne]; [reflexivity|].
  unfold SP in *. destruct (N.leb_spec 32 c), (N.leb_spec c 32); simpl; try reflexivity; lia.
Qed.

Lemma matchAt_reSpaces pre suf :
  matchAt reSpaces pre suf
  = if Nat.leb 1 (run false spaceClass suf)
    then Some (advance (run false spaceClass suf) {| before := pre; after := suf; caps := [] |})
    else None.
Proof.
  unfold matchAt, reSpaces, re, plus, c1, cls. cbn [source ignoreCase rmatch groups].
  apply repLoop_run. cbn. lia.
Qed.

Lemma replaceLoop_reSpaces : forall suf pre,
  replaceLoop reSpaces [Lit (js " ")] 0 pre suf = collapseFrom false suf
  /\ replaceLoop reSpaces [Lit (js " ")] (run false spaceClass suf) pre suf
     = collapseFrom true suf.
Proof.
  induction suf as [|c suf IH]; intros pre.
  - split; reflexivity.
  - assert (HA : replaceLoop reSpaces [Lit (js " ")] 0 pre (c :: suf)
                 = collapseFrom false (c :: suf)).
    { cbn [replaceLoop]. rewrite matchAt_reSpaces. cbn [run collapseFrom].
      rewrite !cmatch_space.
      destruct (c =? SP)%N.
      - cbn [Nat.leb]. unfold matchLen, advance, pos.
        cbn [before after caps expand flat_map].
        rewrite length_app, length_rev, length_firstn.
        pose proof (run_le false spaceClass suf) as Hr.
        replace (Nat.min (S (run false spaceClass suf)) (length (c :: suf)) + length pre - length pre)%nat
          with (S (run false spaceClass suf)) by (cbn [length]; lia).
        cbn [Nat.eqb Nat.sub]. rewrite Nat.sub_0_r.
        destruct (IH (c :: pre)) as (_ & HB). rewrite HB. reflexivity.
      - cbn [Nat.leb]. destruct (IH (c :: pre)) as (HA & _). rewrite HA. reflexivity. }
    split; [exact HA|].
    cbn [run]. rewrite cmatch_space.
    destruct (c =? SP)%N eqn:E.
    + cbn [replaceLoop collapseFrom]. rewrite E. apply IH.
    + rewrite HA. cbn [collapseFrom]. rewrite E. reflexivity.
Qed.

Lemma replaceAll_reSpaces s : replaceAll reSpaces [Lit (js " ")] s = collapseSpaces s.
Proof. apply replaceLoop_reSpaces. Qed.

(** ** The stages of [normalizeText] *)

Lemma normalizeText_stages s :
  normalizeText s = trim (lineTrim (collapseSpaces (map normalizeChar s))).
Proof.
  destruct s as [|c s]; [reflexivity|].
  unfold normalizeText. rewrite replaceAll_reSpaces. reflexivity.
Qed.

Ltac bool_to_prop H :=
  repeat first
    [ rewrite orb_true_iff in H | rewrite andb_true_iff in H
    | rewrite negb_true_iff in H | rewrite N.leb_le in H
    | rewrite N.eqb_eq in H | rewrite N.eqb_neq in H
    | rewrite orb_false_iff in H | rewrite andb_false_iff in H
    | rewrite negb_false_iff in H | rewrite N.leb_gt in H ].

Lemma normalizeChar_cases c :
  (normalizeChar c = SP /\ isWhiteSpace c = true)
  \/ (normalizeChar c = c /\ (c = SP \/ (c <> 9 /\ c <> 11 /\ c <> 12 /\ c <> 160
        /\ c <> 5760 /\ ~ (8192 <= c <= 8202) /\ c <> 8239 /\ c <> 8287
        /\ c <> 12288 /\ c <> 65279))%N).
Proof.
  unfold normalizeChar, isWhiteSpace, SP.
  match goal with |- context [if ?b then _ else _] => destruct b eqn:E end.
  - left. split; [reflexivity|].
    bool_to_prop E.
    repeat rewrite orb_true_iff. repeat rewrite andb_true_iff.
    repeat rewrite N.leb_le. repeat rewrite N.eqb_eq. lia.
  - right. split; [reflexivity|]. bool_to_prop E. lia.
Qed.

Lemma normalizeChar_white c : isWhiteSpace (normalizeChar c) = isWhiteSpace c.
Proof.
  destruct (normalizeChar_cases c) as [(E & H)|(E & _)]; rewrite E; [|reflexivity].
  rewrite H. reflexivity.
Qed.

Lemma normalizeChar_idem c : normalizeChar (normalizeChar c) = normalizeChar c.
Proof.
  destruct (normalizeChar_cases c) as [(E & _)|(E & _)]; rewrite E; [reflexivity|exact E].
Qed.

Lemma normalizeChar_LF c : (normalizeChar c =? LF)%N = (c =? LF)%N.
Proof.
  destruct (normalizeChar_cases c) as [(E & H)|(E & _)]; [|rewrite E; reflexivity].
  rewrite E. destruct (N.eqb_spec c LF) as [->|Hne]; [|reflexivity].
  discriminate E.
Qed.

Lemma allWhite_map_normalizeChar s : allWhite (map normalizeChar s) = allWhite s.
Proof.
  induction s as [|c s IH]; simpl; [reflexivity|].
  rewrite normalizeChar_white, IH. reflexivity.
Qed.

Lemma allWhite_collapseFrom b s : allWhite (collapseFrom b s) = allWhite s.
Proof.
  revert b. induction s as [|c s IH]; intros b; simpl; [reflexivity|].
  destruct (N.eqb_spec c SP) as [->|Hne].
  - destruct b; simpl; apply IH.
  - simpl. rewrite IH. reflexivity.
Qed.

Lemma splitChar_nonempty sep s : splitChar sep s <> [].
Proof.
  destruct s as [|c s]; simpl; [discriminate|].
  destruct (c =? sep)%N; [discriminate|].
  destruct (splitChar sep s); discriminate.
Qed.

Lemma join_cons sep p q ps : join sep (p :: q :: ps) = p ++ sep ++ join sep (q :: ps).
Proof. reflexivity. Qed.

Lemma join_splitChar sep s : join [sep] (splitChar sep s) = s.
Proof.
  induction s as [|c s IH]; [reflexivity|].
  pose proof (@splitChar_nonempty sep s) as Hn.
  cbn [splitChar]. destruct (N.eqb_spec c sep) as [->|Hne].
  - destruct (splitChar sep s) as [|l ls]; [congruence|].
    rewrite join_cons, IH. reflexivity.
  - destruct (splitChar sep s) as [|l ls]; [congruence|].
    destruct ls as [|l' ls].
    + cbn [join] in *. congruence.
    + rewrite join_cons in *. rewrite <- IH. reflexivity.
Qed.

Lemma allWhite_join parts :
  allWhite (join [LF] parts) = forallb allWhite parts.
Proof.
  induction parts as [|p parts IH]; [reflexivity|].
  destruct parts as [|q parts].
  - simpl. rewrite andb_true_r. reflexivity.
  - rewrite join_cons, !allWhite_app, IH. reflexivity.
Qed.

Lemma allWhite_lineTrim s : allWhite (lineTrim s) = allWhite s.
Proof.
  unfold lineTrim. rewrite allWhite_join.
  rewrite <- (join_splitChar LF s) at 2. rewrite allWhite_join.
  induction (splitChar LF s) as [|p ps IH]; simpl; [reflexivity|].
  rewrite allWhite_trim, IH. reflexivity.
Qed.

Lemma allWhite_normalizeText s : allWhite (normalizeText s) = allWhite s.
Proof.
  rewrite normalizeText_stages, allWhite_trim, allWhite_lineTrim.
  unfold collapseSpaces. rewrite allWhite_collapseFrom.
  apply allWhite_map_normalizeChar.
Qed.

(** A text with a character that is not white space is not normalized to
    the empty text. *)
Lemma normalizeText_nonempty s : allWhite s = false -> normalizeText s <> [].
Proof.
  intros H E. rewrite <- allWhite_normalizeText, E in H. discriminate.
Qed.

(** ** Trimming twice *)

Lemma headSolid_trimStart s : headSolid (trimStart s) = true.
Proof.
  induction s as [|c s IH]; simpl; [reflexivity|].
  destruct (isWhiteSpace c) eqn:E; [exact IH|]. simpl. rewrite E. reflexivity.
Qed.

Lemma trimStart_solid s : headSolid s = true -> trimStart s = s.
Proof.
  destruct s as [|c s]; simpl; [reflexivity|].
  intros H. apply negb_true_iff in H. rewrite H. reflexivity.
Qed.

Lemma trimStart_idem s : trimStart (trimStart s) = trimStart s.
Proof. apply trimStart_solid, headSolid_trimStart. Qed.

Lemma trimEnd_idem s : trimEnd (trimEnd s) = trimEnd s.
Proof. unfold trimEnd. rewrite rev_involutive, trimStart_idem. reflexivity. Qed.

Lemma headSolid_trimEnd s : headSolid s = true -> headSolid (trimEnd s) = true.
Proof.
  destruct s as [|c s]; [reflexivity|]. simpl. intros H.
  change (c :: s) with ([c] ++ s). rewrite trimEnd_app.
  destruct (allWhite s); [|simpl; exact H].
  unfold trimEnd. simpl. apply negb_true_iff in H. rewrite H. simpl. rewrite H. reflexivity.
Qed.

Lemma trim_idem s : trim (trim s) = trim s.
Proof.
  unfold trim at 1. rewrite trimStart_solid.
  - unfold trim. apply trimEnd_idem.
  - unfold trim. apply headSolid_trimEnd, headSolid_trimStart.
Qed.

Lemma trimEnd_prefix s : exists w, s = trimEnd s ++ w /\ allWhite w = true.
Proof.
  destruct (trimStart_suffix (rev s)) as (w & Hw & Ha).
  exists (rev w). rewrite allWhite_rev. split; [|exact Ha].
  unfold trimEnd. rewrite <- rev_app_distr, <- Hw, rev_involutive. reflexivity.
Qed.

Lemma trim_within s : within s (trim s).
Proof.
  destruct (trimStart_suffix s) as (a & Ha & _).
  destruct (trimEnd_prefix (trimStart s)) as (b & Hb & _).
  exists a, b. unfold trim. rewrite <- Hb. exact Ha.
Qed.

Lemma Forall_within {P : char -> Prop} s p : within s p -> Forall P s -> Forall P p.
Proof.
  intros (a & b & ->) H. apply Forall_app in H. destruct H as (_ & H).
  apply Forall_app in H. apply H.
Qed.

Lemma Forall_trim (P : char -> Prop) s : Forall P s -> Forall P (trim s).
Proof. apply Forall_within, trim_within. Qed.

(** ** Lines *)

Lemma splitChar_free p : noLF p -> splitChar LF p = [p].
Proof.
  induction 1 as [|c p Hc Hp IH]; [reflexivity|].
  cbn [splitChar]. destruct (N.eqb_spec c LF); [contradiction|].
  rewrite IH. reflexivity.
Qed.

Lemma splitChar_app_sep p r : noLF p -> splitChar LF (p ++ LF :: r) = p :: splitChar LF r.
Proof.
  induction 1 as [|c p Hc Hp IH].
  - simpl. reflexivity.
  - cbn [app splitChar]. destruct (N.eqb_spec c LF); [contradiction|].
    rewrite IH. reflexivity.
Qed.

Lemma splitChar_join parts :
  Forall noLF parts -> parts <> [] -> splitChar LF (join [LF] parts) = parts.
Proof.
  induction 1 as [|p parts Hp Hps IH]; [congruence|]. intros _.
  destruct parts as [|q parts].
  - apply splitChar_free. exact Hp.
  - rewrite join_cons. cbn [app]. rewrite splitChar_app_sep by exact Hp.
    rewrite IH by discriminate. reflexivity.
Qed.

Lemma splitChar_noLF s : Forall noLF (splitChar LF s).
Proof.
  induction s as [|c s IH]; [repeat constructor|].
  cbn [splitChar]. destruct (N.eqb_spec c LF) as [->|Hne].
  - constructor; [constructor|exact IH].
  - destruct (splitChar LF s) as [|l ls]; [repeat constructor; exact Hne|].
    inversion IH; subst. constructor; [constructor; assumption|assumption].
Qed.

Lemma splitChar_Forall (P : char -> Prop) s :
  Forall P s -> Forall (Forall P) (splitChar LF s).
Proof.
  induction 1 as [|c s Hc Hs IH]; [repeat constructor|].
  cbn [splitChar]. destruct (c =? LF)%N.
  - constructor; [constructor|exact IH].
  - destruct (splitChar LF s) as [|l ls]; [repeat constructor; exact Hc|].
    inversion IH; subst. constructor; [constructor; assumption|assumption].
Qed.

Lemma join_Forall (P : char -> Prop) parts :
  P LF -> Forall (Forall P) parts -> Forall P (join [LF] parts).
Proof.
  intros HLF. induction 1 as [|p parts Hp Hps IH]; [constructor|].
  destruct parts as [|q parts]; [exact Hp|].
  rewrite join_cons. apply Forall_app. split; [exact Hp|].
  constructor; [exact HLF|exact IH].
Qed.

Lemma lineTrim_lines s : splitChar LF (lineTrim s) = map trim (splitChar LF s).
Proof.
  unfold lineTrim. apply splitChar_join.
  - pose proof (splitChar_noLF s) as H.
    induction H as [|p ps Hp Hps IH]; simpl; constructor; [|exact IH].
    apply Forall_trim. exact Hp.
  - pose proof (@splitChar_nonempty LF s). destruct (splitChar LF s); simpl; congruence.
Qed.

Lemma linesTrimmed_lineTrim s : linesTrimmed (lineTrim s).
Proof.
  unfold linesTrimmed. rewrite lineTrim_lines.
  induction (splitChar LF s) as [|p ps IH]; simpl; constructor; [apply trim_idem|exact IH].
Qed.

Lemma lineTrim_id s : linesTrimmed s -> lineTrim s = s.
Proof.
  unfold linesTrimmed, lineTrim. intros H.
  rewrite <- (join_splitChar LF s) at 2. f_equal.
  induction H as [|p ps Hp Hps IH]; simpl; congruence.
Qed.

Lemma trim_shorter_head c l : isWhiteSpace c = true -> trim (c :: l) <> c :: l.
Proof.
  intros Hc E. apply (f_equal (@length _)) in E. unfold trim in E. simpl in E.
  rewrite Hc in E.
  pose proof (trimEnd_length (trimStart l)). pose proof (trimStart_length l). lia.
Qed.

Lemma trim_shorter_last c l : isWhiteSpace c = true -> trim (l ++ [c]) <> l ++ [c].
Proof.
  intros Hc E. apply (f_equal (@length _)) in E.
  pose proof (trimEnd_trimStart_length (l ++ [c])) as H1. unfold trim in E.
  rewrite trimEnd_app in H1. simpl in H1. rewrite Hc in H1. simpl in H1.
  pose proof (trimEnd_length l). rewrite length_app in E. simpl in E. lia.
Qed.

Lemma linesTrimmed_trimStart s : linesTrimmed s -> linesTrimmed (trimStart s).
Proof.
  unfold linesTrimmed. induction s as [|c s IH]; intros H; [exact H|].
  cbn [trimStart]. destruct (isWhiteSpace c) eqn:Hc; [|exact H].
  apply IH. cbn [splitChar] in H. destruct (c =? LF)%N.
  - inversion H; assumption.
  - pose proof (@splitChar_nonempty LF s) as Hn.
    destruct (splitChar LF s) as [|l ls]; [congruence|].
    inversion H; subst. exfalso. eapply trim_shorter_head; eauto.
Qed.

Lemma splitChar_snoc s c :
  splitChar LF (s ++ [c])
  = if (c =? LF)%N then splitChar LF s ++ [[]]
    else removelast (splitChar LF s) ++ [last (splitChar LF s) [] ++ [c]].
Proof.
  induction s as [|d s IH].
  - simpl. destruct (c =? LF)%N; reflexivity.
  - pose proof (@splitChar_nonempty LF s) as Hn.
    cbn [app splitChar]. rewrite IH.
    destruct (splitChar LF s) as [|l ls]; [congruence|].
    destruct (d =? LF)%N; destruct (c =? LF)%N; try reflexivity.
    destruct ls as [|l' ls]; reflexivity.
Qed.

Lemma linesTrimmed_trimEnd s : linesTrimmed s -> linesTrimmed (trimEnd s).
Proof.
  unfold linesTrimmed. induction s as [|c s IH] using rev_ind; intros H; [exact H|].
  rewrite trimEnd_app. simpl. rewrite andb_true_r.
  destruct (isWhiteSpace c) eqn:Hc.
  - apply IH. rewrite splitChar_snoc in H. destruct (c =? LF)%N.
    + apply Forall_app in H. apply H.
    + apply Forall_app in H. destruct H as (_ & H). inversion H; subst.
      exfalso. eapply trim_shorter_last; eauto.
  - unfold trimEnd. simpl. rewrite Hc. simpl. exact H.
Qed.

Lemma linesTrimmed_trim s : linesTrimmed s -> linesTrimmed (trim s).
Proof. intros H. unfold trim. apply linesTrimmed_trimEnd, linesTrimmed_trimStart, H. Qed.

(** ** Runs of spaces *)

Lemma noDouble_cons c d t :
  noDouble (c :: d :: t) = negb ((c =? SP)%N && (d =? SP)%N) && noDouble (d :: t).
Proof. reflexivity. Qed.

Lemma noDouble_tail c s : noDouble (c :: s) = true -> noDouble s = true.
Proof.
  destruct s as [|d s]; [reflexivity|]. rewrite noDouble_cons.
  intros H. apply andb_true_iff in H. apply H.
Qed.

Lemma noDouble_app_r a p : noDouble (a ++ p) = true -> noDouble p = true.
Proof.
  induction a as [|c a IH]; [auto|]. intros H. apply IH. eapply noDouble_tail; eauto.
Qed.

Lemma noDouble_app_l p b : noDouble (p ++ b) = true -> noDouble p = true.
Proof.
  induction p as [|c p IH]; [reflexivity|]. intros H.
  pose proof (noDouble_tail _ _ H) as Ht. specialize (IH Ht).
  destruct p as [|d p]; [reflexivity|].
  cbn [app] in H. rewrite noDouble_cons in *. apply andb_true_iff in H.
  destruct H as (H & _). rewrite H. exact IH.
Qed.

Lemma noDouble_within s p : within s p -> noDouble s = true -> noDouble p = true.
Proof.
  intros (a & b & ->) H. apply noDouble_app_r in H. eapply noDouble_app_l; eauto.
Qed.

Lemma noDouble_collapseFrom b s :
  noDouble (collapseFrom b s) = true
  /\ (b = true -> hd 0%N (collapseFrom b s) <> SP \/ collapseFrom b s = []).
Proof.
  revert b. induction s as [|c s IH]; intros b.
  - split; [reflexivity|]. intros _. right. reflexivity.
  - cbn [collapseFrom]. destruct (N.eqb_spec c SP) as [->|Hne].
    + destruct b.
      * apply IH.
      * split; [|discriminate]. destruct (IH true) as (H1 & H2).
        destruct (H2 eq_refl) as [H|H].
        -- destruct (collapseFrom true s) as [|d t]; [reflexivity|].
           rewrite noDouble_cons, H1. simpl in H.
           destruct (N.eqb_spec d SP); [contradiction|]. reflexivity.
        -- rewrite H. reflexivity.
    + split; [|intros _; left; exact Hne].
      destruct (IH false) as (H1 & _).
      destruct (collapseFrom false s) as [|d t]; [reflexivity|].
      rewrite noDouble_cons, H1.
      destruct (N.eqb_spec c SP); [contradiction|]. reflexivity.
Qed.

Lemma collapseFrom_id s : noDouble s = true ->
  collapseFrom false s = s /\ (hd 0%N s <> SP -> collapseFrom true s = s).
Proof.
  induction s as [|c s IH]; intros H; [split; reflexivity|].
  pose proof (noDouble_tail _ _ H) as Ht. destruct (IH Ht) as (IH1 & IH2).
  cbn [collapseFrom hd]. destruct (N.eqb_spec c SP) as [->|Hne].
  - split; [|congruence]. f_equal. apply IH2.
    destruct s as [|d s]; [discriminate|]. rewrite noDouble_cons in H.
    apply andb_true_iff in H. destruct H as (H & _). simpl.
    rewrite N.eqb_refl in H. simpl in H. apply negb_true_iff in H.
    apply N.eqb_neq in H. exact H.
  - split; [|intros _]; f_equal; exact IH1.
Qed.

Lemma noDouble_join parts :
  Forall (fun p => noDouble p = true) parts -> noDouble (join [LF] parts) = true.
Proof.
  assert (Hcat : forall p r, noDouble p = true -> noDouble r = true ->
                             noDouble (p ++ LF :: r) = true).
  { induction p as [|c p IHp]; intros r Hp Hr.
    - simpl. destruct r; [reflexivity|]. rewrite Hr. reflexivity.
    - pose proof (noDouble_tail _ _ Hp) as Ht. specialize (IHp r Ht Hr).
      destruct p as [|d p].
      + cbn [app] in *. rewrite noDouble_cons, IHp.
        rewrite andb_false_r. reflexivity.
      + cbn [app] in *. rewrite noDouble_cons in *.
        apply andb_true_iff in Hp. destruct Hp as (Hp & _).
        rewrite Hp. exact IHp. }
  induction 1 as [|p parts Hp Hps IH]; [reflexivity|].
  destruct parts as [|q parts]; [exact Hp|].
  rewrite join_cons. apply Hcat; assumption.
Qed.

Lemma noDouble_lines s :
  noDouble s = true -> Forall (fun p => noDouble p = true) (splitChar LF s).
Proof.
  intros H. apply Forall_forall. intros p Hp.
  assert (Hw : within s p).
  { rewrite <- (join_splitChar LF s) at 1.
    clear H. induction (splitChar LF s) as [|q qs IH]; [contradiction|].
    destruct Hp as [->|Hp].
    - destruct qs as [|q' qs].
      + apply within_refl.
      + rewrite join_cons. exists [], ([LF] ++ join [LF] (q' :: qs)). reflexivity.
    - destruct qs as [|q' qs]; [contradiction|].
      destruct (IH Hp) as (a & b & E). rewrite join_cons, E.
      exists (q ++ [LF] ++ a), b. rewrite <- !app_assoc. reflexivity. }
  eapply noDouble_within; eauto.
Qed.

Lemma noDouble_lineTrim s : noDouble s = true -> noDouble (lineTrim s) = true.
Proof.
  intros H. unfold lineTrim. apply noDouble_join.
  apply noDouble_lines in H.
  induction H as [|p ps Hp Hps IH]; simpl; constructor; [|exact IH].
  eapply noDouble_within; [apply trim_within|exact Hp].
Qed.

(** ** Normalizing twice *)

Lemma map_fixedChars s : fixedChars s -> map normalizeChar s = s.
Proof. induction 1 as [|c s Hc Hs IH]; simpl; congruence. Qed.

Lemma fixedChars_map s : fixedChars (map normalizeChar s).
Proof.
  induction s as [|c s IH]; simpl; constructor; [apply normalizeChar_idem|exact IH].
Qed.

Lemma fixedChars_collapseFrom b s : fixedChars s -> fixedChars (collapseFrom b s).
Proof.
  intros H. revert b. induction H as [|c s Hc Hs IH]; intros b; simpl; [constructor|].
  destruct (c =? SP)%N.
  - destruct b; [apply IH|]. constructor; [reflexivity|apply IH].
  - constructor; [exact Hc|apply IH].
Qed.

Lemma fixedChars_lineTrim s : fixedChars s -> fixedChars (lineTrim s).
Proof.
  intros H. unfold lineTrim. apply join_Forall; [reflexivity|].
  apply splitChar_Forall in H.
  induction H as [|p ps Hp Hps IH]; simpl; constructor; [|exact IH].
  apply Forall_trim. exact Hp.
Qed.

(** The normal form that [normalizeText] produces. *)
Lemma normalizeText_normal s :
  let o := normalizeText s in
  fixedChars o /\ noDouble o = true /\ linesTrimmed o.
Proof.
  cbv zeta. rewrite normalizeText_stages. repeat split.
  - apply Forall_trim, fixedChars_lineTrim, fixedChars_collapseFrom, fixedChars_map.
  - eapply noDouble_within; [apply trim_within|].
    apply noDouble_lineTrim. apply noDouble_collapseFrom.
  - apply linesTrimmed_trim, linesTrimmed_lineTrim.
Qed.

(** C4. Normalizing a normalized text changes nothing:
    [normalizeText (normalizeText s) = normalizeText s] for every text. *)
Theorem normalizeText_idempotent s :
  normalizeText (normalizeText s) = normalizeText s.
Proof.
  destruct (normalizeText_normal s) as (Hf & Hd & Hl).
  rewrite (normalizeText_stages (normalizeText s)).
  rewrite (map_fixedChars Hf).
  unfold collapseSpaces. rewrite (proj1 (collapseFrom_id _ Hd)).
  rewrite (lineTrim_id Hl).
  rewrite normalizeText_stages. apply trim_idem.
Qed.

(** ** The extraction returns *)

Lemma splitRe_pieces R s : definesAll R = true -> pieces s (splitRe R s).
Proof.
  intros Hd. apply Forall_forall. intros [t|] Hin.
  - exists t. split; [reflexivity|]. eapply splitRe_within; eauto.
  - exfalso. eapply splitRe_defined; eauto.
Qed.

Lemma jstring_eqb_eq a : forall b, jstring_eqb a b = true <-> a = b.
Proof.
  induction a as [|x a IH]; intros [|y b]; simpl; split; try congruence.
  - intros H. apply andb_true_iff in H. destruct H as (H1 & H2).
    apply N.eqb_eq in H1. apply IH in H2. congruence.
  - intros H. inversion H; subst. rewrite N.eqb_refl. apply IH. reflexivity.
Qed.

Lemma has_In set w : has set w = true <-> In w set.
Proof.
  unfold has. rewrite existsb_exists. split.
  - intros (x & Hx & E). apply jstring_eqb_eq in E. subst. exact Hx.
  - intros H. exists w. split; [exact H|]. apply jstring_eqb_eq. reflexivity.
Qed.

Lemma lookup_in {A} key (table : list (string * A)) v :
  lookup key table = Some (Own v) -> In v (map snd table).
Proof.
  induction table as [|[k x] table IH]; simpl.
  - destruct (isPrototypeKey key); discriminate.
  - destruct (jstring_eqb (js k) key).
    + intros H; inversion H; subst. auto.
    + auto.
Qed.

(** Only a property name of [Object.prototype] gives an inherited value. *)
Lemma lookup_plain {A} key (table : list (string * A)) k :
  isPrototypeKey key = false -> lookup key table <> Some (Inherited k).
Proof.
  intros Hk. induction table as [|[k' x] table IH]; simpl.
  - rewrite Hk. discriminate.
  - destruct (jstring_eqb (js k') key); [discriminate|exact IH].
Qed.

(** A property name of [Object.prototype] that the table does not write
    gives the inherited value. *)
Lemma lookup_inherited {A} key (table : list (string * A)) :
  forallb (fun kv => negb (isPrototypeKey (js (fst kv)))) table = true ->
  isPrototypeKey key = true -> lookup key table = Some (Inherited key).
Proof.
  intros Ht Hk. induction table as [|[k' x] table IH]; simpl.
  - rewrite Hk. reflexivity.
  - simpl in Ht. apply andb_true_iff in Ht. destruct Ht as (Hk' & Ht).
    destruct (jstring_eqb (js k') key) eqn:E.
    + apply jstring_eqb_eq in E. subst key. rewrite Hk in Hk'. discriminate.
    + apply IH. exact Ht.
Qed.

Lemma getSchemaRegex_inherited key :
  isPrototypeKey key = true -> getSchemaRegex key = Some (Inherited key).
Proof. apply lookup_inherited. reflexivity. Qed.

Lemma getSchemaSplitRegex_inherited key :
  isPrototypeKey key = true -> getSchemaSplitRegex key = Some (Inherited key).
Proof. apply lookup_inherited. reflexivity. Qed.

Lemma schemaSplit_defined key R :
  getSchemaSplitRegex key = Some (Own R) -> definesAll R = true.
Proof.
  intros H. apply lookup_in in H.
  assert (Hall : forallb definesAll (map snd schemaSplitTable) = true) by reflexivity.
  rewrite forallb_forall in Hall. apply Hall. exact H.
Qed.

Lemma detect_fold_in text l acc :
  In (fst acc) (firstPattern :: patterns) -> incl l patterns ->
  In (fst (fold_left (detectStep text) l acc)) (firstPattern :: patterns).
Proof.
  revert acc. induction l as [|p l IH]; intros acc Hacc Hl; simpl; [exact Hacc|].
  apply IH.
  - unfold detectStep. destruct (Nat.ltb (snd acc) (countMatches p text)); simpl.
    + right. apply Hl. left. reflexivity.
    + exact Hacc.
  - intros q Hq. apply Hl. right. exact Hq.
Qed.

Lemma detect_defined text : definesAll (fst (detectNumberingSchema text)) = true.
Proof.
  unfold detectNumberingSchema.
  pose proof (@detect_fold_in text patterns (firstPattern, 0%nat)
                (or_introl eq_refl) (incl_refl _)) as Hin.
  destruct (fold_left (detectStep text) patterns (firstPattern, 0%nat)) as [best maxCount].
  change (In best (firstPattern :: patterns)) in Hin.
  assert (Hall : forallb (fun p => definesAll (cand_splitRegex p))
                         (firstPattern :: patterns) = true) by reflexivity.
  rewrite forallb_forall in Hall.
  destruct (Nat.ltb maxCount 2); unfold fst.
  - apply (Hall firstPattern). left. reflexivity.
  - apply (Hall best). exact Hin.
Qed.

Lemma solid_app a b : solid (a ++ b) = solid a ++ solid b.
Proof. apply filter_app. Qed.

Lemma solid_white w (H : allWhite w = true) : solid w = [].
Proof.
  induction w as [|c w IH]; simpl; [reflexivity|].
  simpl in H. apply andb_true_iff in H. destruct H as (Hc & Hw).
  rewrite Hc. simpl. apply IH. exact Hw.
Qed.

Lemma solid_trim s : solid (trim s) = solid s.
Proof.
  unfold trim.
  destruct (trimStart_suffix s) as (w & Hs & Hw).
  destruct (trimEnd_prefix (trimStart s)) as (v & Hs' & Hv).
  rewrite Hs at 2. rewrite Hs' at 2.
  rewrite !solid_app, (solid_white w Hw), (solid_white v Hv), app_nil_r. reflexivity.
Qed.

(** *** Splitting by a string *)

Lemma startsWith_app p : forall s, startsWith p s = true -> exists b, s = p ++ b.
Proof.
  induction p as [|x p IH]; intros s H; [exists s; reflexivity|].
  destruct s as [|y s]; simpl in H; [discriminate|].
  apply andb_true_iff in H. destruct H as (Hx & Hp).
  apply N.eqb_eq in Hx. subst y. destruct (IH s Hp) as (b & ->).
  exists b. reflexivity.
Qed.

Lemma includes_within s : forall p, includes s p = true -> within s p.
Proof.
  induction s as [|c s IH]; intros p H; simpl in H; apply orb_true_iff in H.
  - destruct H as [H|H]; [|discriminate].
    apply startsWith_app in H. destruct H as (b & Hb). exists [], b. exact Hb.
  - destruct H as [H|H].
    + apply startsWith_app in H. destruct H as (b & Hb). exists [], b. exact Hb.
    + destruct (IH p H) as (a & b & ->). exists (c :: a), b. reflexivity.
Qed.

Lemma splitStringFrom_absent sep : forall s cur,
  includes s sep = false -> splitStringFrom sep 0 cur s = [rev cur ++ s].
Proof.
  induction s as [|c s IH]; intros cur H; simpl.
  - rewrite app_nil_r. reflexivity.
  - simpl in H. apply orb_false_iff in H. destruct H as (Hs & Hi).
    simpl in Hs. rewrite Hs, (IH (c :: cur) Hi). simpl rev. rewrite <- app_assoc. reflexivity.
Qed.

Lemma splitString_absent sep s :
  sep <> [] -> includes s sep = false -> splitString sep s = [s].
Proof.
  intros Hne H. destruct sep as [|x sep]; [contradiction|].
  unfold splitString. rewrite (@splitStringFrom_absent _ s [] H). reflexivity.
Qed.

Lemma splitStringFrom_nonempty sep : forall s skip cur,
  (1 <= length (splitStringFrom sep skip cur s))%nat.
Proof.
  induction s as [|c s IH]; intros skip cur; simpl; [lia|].
  destruct skip; [|apply IH].
  destruct (startsWith sep (c :: s)); [simpl; lia|apply IH].
Qed.

Lemma splitString_present sep s :
  sep <> [] -> includes s sep = true -> (2 <= length (splitString sep s))%nat.
Proof.
  intros Hne. destruct sep as [|x sep]; [contradiction|]. unfold splitString.
  generalize (@nil char) as cur.
  induction s as [|c s IH]; intros cur H.
  - simpl in H. discriminate.
  - cbn [splitStringFrom]. cbn [includes] in H.
    destruct (startsWith (x :: sep) (c :: s)).
    + pose proof (splitStringFrom_nonempty (x :: sep) s (length (x :: sep) - 1) []).
      simpl length in *. lia.
    + apply IH. exact H.
Qed.

Lemma solid_length s : (length (solid s) <= length s)%nat.
Proof.
  induction s as [|c s IH]; simpl; [lia|].
  destruct (negb (isWhiteSpace c)); simpl; lia.
Qed.

Lemma solid_within s p : within s p -> (length (solid p) <= length (solid s))%nat.
Proof.
  intros (a & b & ->). rewrite !solid_app, !length_app. lia.
Qed.

Lemma solid_trimmedLength s : (length (solid s) <= trimmedLength s)%nat.
Proof.
  unfold trimmedLength. rewrite <- (solid_trim s). apply solid_length.
Qed.

(** *** The schema *)

Lemma chooseSchema_defined userSchema cleanedText splitRegex header type R :
  chooseSchema userSchema cleanedText = (splitRegex, header, type) ->
  splitRegex = Some (Own R) -> definesAll R = true.
Proof.
  unfold chooseSchema. intros H ->.
  assert (Hd : forall P h t,
    (let '(pattern, type) := detectNumberingSchema cleanedText in
     (Some (Own pattern), @None (entry RegExp), type)) = (Some (Own P), h, t) ->
    definesAll P = true).
  { intros P h t. pose proof (detect_defined cleanedText) as Hdef.
    destruct (detectNumberingSchema cleanedText) as [pattern ty].
    intros E; inversion E; subst. exact Hdef. }
  destruct userSchema as [u|]; [|eapply Hd; eauto].
  destruct (negb (jstring_eqb (mainClause u) (js "none"))); [|eapply Hd; eauto].
  inversion H. eapply schemaSplit_defined; eauto.
Qed.

Lemma detect_type text : isPrototypeKey (snd (detectNumberingSchema text)) = false.
Proof.
  unfold detectNumberingSchema.
  pose proof (@detect_fold_in text patterns (firstPattern, 0%nat)
                (or_introl eq_refl) (incl_refl _)) as Hin.
  destruct (fold_left (detectStep text) patterns (firstPattern, 0%nat)) as [best maxCount].
  change (In best (firstPattern :: patterns)) in Hin.
  assert (Hall : forallb (fun p => negb (isPrototypeKey (cand_type p)))
                         (firstPattern :: patterns) = true) by reflexivity.
  rewrite forallb_forall in Hall.
  destruct (Nat.ltb maxCount 2); unfold snd; apply negb_true_iff.
  - apply (Hall firstPattern). left. reflexivity.
  - apply (Hall best). exact Hin.
Qed.

(** With a plain schema no value of the choice is inherited. *)
Lemma chooseSchema_plain userSchema cleanedText splitRegex header type :
  plainSchema userSchema ->
  chooseSchema userSchema cleanedText = (splitRegex, header, type) ->
  (forall k, splitRegex <> Some (Inherited k))
  /\ (forall k, header <> Some (Inherited k))
  /\ isPrototypeKey type = false.
Proof.
  unfold chooseSchema. intros Hplain H.
  assert (Hd :
    (let '(pattern, type) := detectNumberingSchema cleanedText in
     (Some (Own pattern), @None (entry RegExp), type)) = (splitRegex, header, type) ->
    (forall k, splitRegex <> Some (Inherited k))
    /\ (forall k, header <> Some (Inherited k))
    /\ isPrototypeKey type = false).
  { pose proof (detect_type cleanedText) as Hty.
    destruct (detectNumberingSchema cleanedText) as [pattern ty].
    intros E; inversion E; subst. repeat split; try discriminate. exact Hty. }
  destruct userSchema as [u|]; [|exact (Hd H)].
  destruct (negb (jstring_eqb (mainClause u) (js "none"))); [|exact (Hd H)].
  simpl in Hplain. inversion H; subst.
  repeat split; try (intros k; apply lookup_plain); exact Hplain.
Qed.

(** With an identifier that [Object.prototype] knows both values are the
    inherited one. *)
Lemma chooseSchema_inherited u cleanedText :
  isPrototypeKey (mainClause u) = true ->
  chooseSchema (Some u) cleanedText
  = (Some (Inherited (mainClause u)), Some (Inherited (mainClause u)), mainClause u).
Proof.
  intros Hk. unfold chooseSchema.
  destruct (jstring_eqb (mainClause u) (js "none")) eqn:E.
  - apply jstring_eqb_eq in E. rewrite E in Hk. vm_compute in Hk. discriminate.
  - cbn [negb].
    rewrite (getSchemaSplitRegex_inherited _ Hk), (getSchemaRegex_inherited _ Hk).
    reflexivity.
Qed.

Lemma alternativeSplit_pieces s l type :
  pieces s l -> pieces s (fst (alternativeSplit s l type)).
Proof.
  intros Hl. unfold alternativeSplit.
  destruct (Nat.ltb (length l) 3); [|exact Hl].
  repeat match goal with
  | |- context [Nat.leb 3 (length (splitRe ?R s))] =>
      destruct (Nat.leb 3 (length (splitRe R s)));
      [simpl; apply splitRe_pieces; reflexivity|]
  end.
  exact Hl.
Qed.

Lemma alternativeSplit_type s l type :
  isPrototypeKey type = false -> isPrototypeKey (snd (alternativeSplit s l type)) = false.
Proof.
  intros Hty. unfold alternativeSplit.
  destruct (Nat.ltb (length l) 3); [|exact Hty].
  repeat match goal with
  | |- context [Nat.leb 3 (length (splitRe ?R s))] =>
      destruct (Nat.leb 3 (length (splitRe R s))); [reflexivity|]
  end.
  exact Hty.
Qed.

Lemma mergeBlocks_returns h s : forall l blocks,
  pieces s l -> exists merged, mergeBlocks h l blocks = Returned merged.
Proof.
  induction l as [|p l IH]; intros blocks Hl; simpl; [eauto|].
  inversion Hl as [|? ? (t & -> & _) Hl']; subst.
  destruct (Nat.ltb (length (trim t)) 10); [apply IH; exact Hl'|].
  destruct (test h (firstLineOf (trim t)) || Nat.eqb (length blocks) 0);
    apply IH; exact Hl'.
Qed.

Lemma mergeBlocks_short h s : forall l blocks,
  pieces s l -> (trimmedLength s < 10)%nat -> mergeBlocks h l blocks = Returned blocks.
Proof.
  induction l as [|p l IH]; intros blocks Hl Hs; simpl; [reflexivity|].
  inversion Hl as [|? ? (t & -> & Hw) Hl']; subst.
  apply trimmedLength_within in Hw. unfold trimmedLength in *.
  replace (Nat.ltb (length (trim t)) 10) with true
    by (symmetry; apply Nat.ltb_lt; lia).
  apply IH; assumption.
Qed.

Lemma mergeUntested_short s : forall l,
  pieces s l -> (trimmedLength s < 10)%nat -> mergeUntested l = Returned [].
Proof.
  induction l as [|p l IH]; intros Hl Hs; simpl; [reflexivity|].
  inversion Hl as [|? ? (t & -> & Hw) Hl']; subst.
  apply trimmedLength_within in Hw. unfold trimmedLength in *.
  replace (Nat.ltb (length (trim t)) 10) with true
    by (symmetry; apply Nat.ltb_lt; lia).
  apply IH; assumption.
Qed.

Section Totality.

Variable toLowerCase : jstring -> jstring.
Variable functionText : jstring -> FunctionText.

Lemma inheritedString_solid key :
  (10 <= length (solid (inheritedString functionText key)))%nat.
Proof.
  unfold inheritedString.
  destruct (jstring_eqb key (js "__proto__")); [vm_compute; lia|].
  unfold functionString. rewrite !solid_app, !length_app.
  assert (E : length (solid (js "function")) = 8%nat) by reflexivity.
  assert (E' : length (solid (js "native")) = 6%nat) by reflexivity.
  rewrite E, E'. lia.
Qed.

Lemma inheritedString_nonempty key : inheritedString functionText key <> [].
Proof.
  intros E. pose proof (inheritedString_solid key) as H. rewrite E in H.
  simpl in H. lia.
Qed.

Lemma primarySplit_pieces splitRegex header s :
  (forall R, splitRegex = Some (Own R) -> definesAll R = true) ->
  (forall k, splitRegex <> Some (Inherited k)) ->
  (forall k, header <> Some (Inherited k)) ->
  exists l, primarySplit functionText splitRegex header s = Returned l /\ pieces s l.
Proof.
  intros Hd Hs Hh. unfold primarySplit. destruct splitRegex as [[R|k]|].
  - pose proof (@splitRe_pieces R s (Hd R eq_refl)) as Hp. unfold splitBy.
    destruct header as [[h|k]|]; [|exfalso; exact (Hh k eq_refl)|eauto].
    destruct (Nat.ltb 1 (length (splitRe R s))); [|eauto].
    destruct (splitRe R s) as [|[first|] rest]; [eauto| |].
    + unfold testBy. destruct (negb (test h (firstLineOf (trim first)))); [|eauto].
      exists rest. split; [reflexivity|]. inversion Hp; assumption.
    + inversion Hp as [|? ? (t & E & _) ?]. discriminate.
  - exfalso. exact (Hs k eq_refl).
  - exists []. split; [reflexivity|constructor].
Qed.

(** The blocks of a document under a plain schema. *)
Lemma documentBlocks_plain documentText userSchema :
  plainSchema userSchema ->
  exists h l blocks,
    pieces (removePageNumbers documentText) l
    /\ mergeBlocks h l [] = Returned blocks
    /\ documentBlocks functionText documentText userSchema = Returned blocks.
Proof.
  intros Hplain. unfold documentBlocks.
  destruct (chooseSchema userSchema (removePageNumbers documentText))
    as [[splitRegex header] type] eqn:Hc.
  destruct (chooseSchema_plain _ _ Hplain Hc) as (Hs & Hh & Hty).
  destruct (@primarySplit_pieces splitRegex header (removePageNumbers documentText))
    as (l & -> & Hl); [|exact Hs|exact Hh|].
  { intros R HR. eapply chooseSchema_defined; eauto. }
  pose proof (@alternativeSplit_pieces _ _ type Hl) as Ha.
  pose proof (@alternativeSplit_type (removePageNumbers documentText) l type Hty) as Hty'.
  destruct (alternativeSplit (removePageNumbers documentText) l type) as [l' type'].
  simpl in Ha, Hty'.
  assert (Hown : exists h,
    match header with
    | Some h => h
    | None => match getSchemaRegex type' with
              | Some h => h
              | None => Own defaultHeaderRegex
              end
    end = Own h).
  { destruct header as [[h|k]|]; [eauto|exfalso; exact (Hh k eq_refl)|].
    destruct (getSchemaRegex type') as [[h|k]|] eqn:E; [eauto| |eauto].
    exfalso. exact (lookup_plain _ _ Hty' E). }
  destruct Hown as (h & ->). unfold mergeBy.
  destruct (@mergeBlocks_returns h _ l' [] Ha) as (blocks & Hb).
  exists h, l', blocks. rewrite Hb. auto.
Qed.

(** The blocks of a document under an identifier that [Object.prototype]
    knows: a [TypeError] as soon as the text has the separator or a piece of
    10 characters or more. *)
Lemma documentBlocks_inherited documentText u :
  isPrototypeKey (mainClause u) = true ->
  documentBlocks functionText documentText (Some u)
  = let cleanedText := removePageNumbers documentText in
    if includes cleanedText (inheritedString functionText (mainClause u)) then Threw
    else mergeUntested
           (fst (alternativeSplit cleanedText [Some cleanedText] (mainClause u))).
Proof.
  intros Hk. unfold documentBlocks. rewrite (chooseSchema_inherited _ _ Hk).
  cbv zeta. unfold primarySplit, splitBy, testBy.
  set (cleanedText := removePageNumbers documentText).
  set (sep := inheritedString functionText (mainClause u)).
  assert (Hne : sep <> []) by apply inheritedString_nonempty.
  destruct (includes cleanedText sep) eqn:Hi.
  - pose proof (splitString_present _ Hne Hi) as Hlen.
    destruct (splitString sep cleanedText) as [|first rest]; [simpl in Hlen; lia|].
    replace (Nat.ltb 1 (length (map Some (first :: rest)))) with true
      by (symmetry; apply Nat.ltb_lt; rewrite length_map; exact Hlen).
    reflexivity.
  - rewrite (splitString_absent _ Hne Hi). simpl map. simpl length.
    change (Nat.ltb 1 1) with false. cbv iota.
    destruct (alternativeSplit cleanedText [Some cleanedText] (mainClause u)).
    reflexivity.
Qed.

(** Every schema is plain or names a property of [Object.prototype]. *)
Lemma schema_cases userSchema :
  plainSchema userSchema
  \/ exists u, userSchema = Some u /\ isPrototypeKey (mainClause u) = true.
Proof.
  destruct userSchema as [u|]; [|left; exact I].
  simpl. destruct (isPrototypeKey (mainClause u)) eqn:E.
  - right. exists u. split; [reflexivity|exact E].
  - left. reflexivity.
Qed.

(** The blocks that the loop of the extraction goes through. *)
Lemma extraction_blocks documentText repo userSchema :
  plainSchema userSchema ->
  exists h l blocks,
    pieces (removePageNumbers documentText) l
    /\ mergeBlocks h l [] = Returned blocks
    /\ extractClausesRuleBased toLowerCase functionText documentText repo userSchema
       = Returned (fst (fold_left (blockStep toLowerCase repo) blocks ([], []))).
Proof.
  intros Hplain.
  destruct (@documentBlocks_plain documentText userSchema Hplain) as (h & l & blocks & Hl & Hb & Hd).
  exists h, l, blocks. unfold extractClausesRuleBased. rewrite Hd. auto.
Qed.

(** Under a plain schema the extraction never stops on a [TypeError]. *)
Lemma extraction_returns documentText repo userSchema :
  plainSchema userSchema ->
  exists clauses,
    extractClausesRuleBased toLowerCase functionText documentText repo userSchema
    = Returned clauses.
Proof.
  intros Hplain.
  destruct (@extraction_blocks documentText repo userSchema Hplain)
    as (h & l & blocks & _ & _ & H).
  eauto.
Qed.

(** The clauses of an extraction that returns are those of the loop over the
    blocks of the document. *)
Lemma extraction_clauses documentText repo userSchema clauses :
  extractClausesRuleBased toLowerCase functionText documentText repo userSchema
  = Returned clauses ->
  exists blocks,
    documentBlocks functionText documentText userSchema = Returned blocks
    /\ clauses = fst (fold_left (blockStep toLowerCase repo) blocks ([], [])).
Proof.
  unfold extractClausesRuleBased.
  destruct (documentBlocks functionText documentText userSchema) as [blocks|];
    [|discriminate].
  intros H. inversion H. eauto.
Qed.

End Totality.

(** ** The expander and the detector *)

Section ExpanderProperties.

Variable toLowerCase : jstring -> jstring.

Lemma subclauseOf_fields parentClauseNo repo subBlock :
  Forall (fun c => clause_no c = parentClauseNo
                   /\ matched_from_repository c = false
                   /\ similarity_score c = zero)
         (subclauseOf toLowerCase parentClauseNo repo subBlock).
Proof.
  unfold subclauseOf.
  destruct (Nat.ltb _ 30); [constructor|].
  match goal with |- Forall _ (match ?t with _ => _ end) => destruct t as [[|? ?]|] end;
    repeat constructor.
Qed.

Lemma expander_fields parentClauseNo blockText repo :
  Forall (fun c => clause_no c = parentClauseNo
                   /\ matched_from_repository c = false
                   /\ similarity_score c = zero)
         (extractSubclausesFromMiscellaneous toLowerCase parentClauseNo blockText repo).
Proof.
  unfold extractSubclausesFromMiscellaneous.
  apply Forall_flat_map, Forall_forall.
  intros subBlock _. apply subclauseOf_fields.
Qed.

(** C7. Every sub-clause that the miscellaneous-section expander returns
    carries the clause number it was given for the parent block, whatever
    reference the sub-clause itself starts with. *)
Theorem expander_inherits_parent_clause_no parentClauseNo blockText repo :
  Forall (fun c => clause_no c = parentClauseNo)
         (extractSubclausesFromMiscellaneous toLowerCase parentClauseNo blockText repo).
Proof.
  eapply Forall_impl; [|apply expander_fields].
  intros c (H & _); exact H.
Qed.

(** C9. Every clause that the miscellaneous-section expander returns is
    marked as not matched from the repository and has similarity score 0,
    also when its type was taken from a repository match. *)
Theorem expander_never_marks_repository_match parentClauseNo blockText repo :
  Forall (fun c => matched_from_repository c = false /\ similarity_score c = zero)
         (extractSubclausesFromMiscellaneous toLowerCase parentClauseNo blockText repo).
Proof.
  eapply Forall_impl; [|apply expander_fields].
  intros c (_ & H); exact H.
Qed.

End ExpanderProperties.

Section DetectorProperties.

Lemma detect_fold_bound text l acc :
  Forall (fun p => (countMatches p text < 2)%nat) l ->
  (snd acc < 2)%nat ->
  (snd (fold_left (detectStep text) l acc) < 2)%nat.
Proof.
  revert acc. induction l as [|p l IH]; intros acc Hl Hacc; simpl; [exact Hacc|].
  inversion Hl; subst. apply IH; [assumption|].
  unfold detectStep. destruct (Nat.ltb (snd acc) (countMatches p text)); simpl; assumption.
Qed.

(** C8. When every candidate pattern of the detector occurs fewer than two
    times in the text, the detector returns the split pattern of its first
    candidate, the roman numerals, with the type "roman". *)
Theorem detect_defaults_to_roman text :
  Forall (fun p => (countMatches p text < 2)%nat) patterns ->
  detectNumberingSchema text = (cand_splitRegex firstPattern, js "roman").
Proof.
  intros H. unfold detectNumberingSchema.
  pose proof (detect_fold_bound text (firstPattern, 0%nat) H) as Hb.
  destruct (fold_left (detectStep text) patterns (firstPattern, 0%nat)) as [best maxCount].
  simpl in Hb. specialize (Hb ltac:(lia)).
  apply Nat.ltb_lt in Hb. rewrite Hb. reflexivity.
Qed.

End DetectorProperties.

Lemma detect_defaults_to_roman_witness :
  Forall (fun p => (countMatches p oneSection < 2)%nat) patterns
  /\ detectNumberingSchema oneSection = (cand_splitRegex firstPattern, js "roman").
Proof.
  assert (H : Forall (fun p => (countMatches p oneSection < 2)%nat) patterns).
  { unfold patterns. repeat (apply Forall_cons; [vm_compute; lia|]). apply Forall_nil. }
  split; [exact H|]. apply detect_defaults_to_roman. exact H.
Defined.

(** ** Short documents *)

Section ShortDocuments.

Variable toLowerCase : jstring -> jstring.
Variable functionText : jstring -> FunctionText.

(** C10. A document whose trimmed text has fewer than 10 characters, the
    empty document among them, yields the empty list of clauses, whatever the
    repository and the schema. *)
Theorem short_document_yields_nothing documentText repo userSchema :
  (length (trim documentText) < 10)%nat ->
  extractClausesRuleBased toLowerCase functionText documentText repo userSchema
  = Returned [].
Proof.
  intros Hshort.
  assert (Hclean : (trimmedLength (removePageNumbers documentText) < 10)%nat).
  { pose proof (removePageNumbers_trimmedLength documentText) as Hle.
    unfold trimmedLength in *. lia. }
  destruct (schema_cases userSchema) as [Hplain|(u & -> & Hk)].
  - destruct (@extraction_blocks toLowerCase functionText documentText repo userSchema
                Hplain) as (h & l & blocks & Hp & Hm & ->).
    rewrite (@mergeBlocks_short h (removePageNumbers documentText)) in Hm;
      [|exact Hp|exact Hclean].
    inversion Hm; subst. reflexivity.
  - unfold extractClausesRuleBased.
    rewrite (@documentBlocks_inherited functionText documentText u Hk). cbv zeta.
    destruct (includes (removePageNumbers documentText)
                (inheritedString functionText (mainClause u))) eqn:Hi.
    + exfalso. apply includes_within, solid_within in Hi.
      pose proof (inheritedString_solid functionText (mainClause u)) as Hsep.
      pose proof (solid_trimmedLength (removePageNumbers documentText)) as Hsolid.
      eapply Nat.lt_irrefl, Nat.le_lt_trans; [|exact Hclean].
      eapply Nat.le_trans; [exact Hsep|]. eapply Nat.le_trans; [exact Hi|exact Hsolid].
    + rewrite (@mergeUntested_short (removePageNumbers documentText)); [reflexivity| |].
      * apply alternativeSplit_pieces. constructor; [|constructor].
        eexists. split; [reflexivity|apply within_refl].
      * exact Hclean.
Qed.

End ShortDocuments.

Lemma short_document_witness :
  (length (trim (js " I. Hi ")) < 10)%nat
  /\ extractClausesRuleBased asciiToLowerCase v8FunctionText (js " I. Hi ") [] None
     = Returned [].
Proof.
  assert (H : (length (trim (js " I. Hi ")) < 10)%nat) by (vm_compute; lia).
  split; [exact H|]. apply short_document_yields_nothing. exact H.
Defined.

(** ** Emitted clauses are not empty *)

Lemma trim_nonempty_solid x : trim x <> [] -> allWhite (trim x) = false.
Proof.
  intros H. destruct (allWhite (trim x)) eqn:E; [|reflexivity].
  apply trim_white in E. rewrite trim_idem in E. contradiction.
Qed.

Lemma trimEnd_trim x : trimEnd (trim x) = trim x.
Proof. unfold trim. apply trimEnd_idem. Qed.

(** A non-empty end of a trimmed text has a character that is not white
    space. *)
Lemma trimmed_end_solid x w v : trim x = w ++ v -> v <> [] -> allWhite v = false.
Proof.
  intros E Hv. destruct (allWhite v) eqn:Ev; [|reflexivity]. exfalso.
  pose proof (trimEnd_trim x) as Ht. rewrite E, trimEnd_app, Ev in Ht.
  apply (f_equal (@length _)) in Ht. rewrite length_app in Ht.
  pose proof (trimEnd_length w). destruct v; [congruence|simpl in Ht; lia].
Qed.

Lemma final_group_solid R x m :
  matchFirst R (trim x) = Some m ->
  startsAtBol (source R) = true -> endsAtEol (source R) = true ->
  finalGroup (source R) = Some 2%nat -> (1 <= minFinal (source R))%nat ->
  allWhite (trim (group 2 m)) = false.
Proof.
  intros Hm Hb He Hg Hl.
  destruct (@matchFirst_finalGroup _ _ _ _ Hm Hb He Hg) as (w & v & E & Hc & Hv).
  unfold group. rewrite Hc, allWhite_trim.
  eapply trimmed_end_solid; eauto. destruct v; [simpl in Hv; lia|discriminate].
Qed.

Lemma parseClauseNumber_body block :
  trim block <> [] -> allWhite (snd (parseClauseNumber block)) = false.
Proof.
  intros Hne. unfold parseClauseNumber.
  destruct (matchFirst reNumberedWithTitle (trim block)) as [m1|] eqn:E1.
  { simpl. eapply final_group_solid; eauto; simpl; lia. }
  destruct (matchFirst reSectionTitle (trim block)) as [m2|] eqn:E2.
  { simpl. eapply final_group_solid; eauto; simpl; lia. }
  destruct (matchFirst reSimpleNumber (trim block)) as [m3|] eqn:E3.
  { assert (Hu : allWhite (trim (group 2 m3)) = false).
    { eapply final_group_solid; eauto; simpl; lia. }
    destruct (indexOfChar LF (group 2 m3)) as [firstLineEnd|]; [|exact Hu].
    destruct (Nat.ltb 0 firstLineEnd && Nat.ltb firstLineEnd 100); [|exact Hu].
    match goal with
    | |- context [Nat.ltb ?a 80 && Nat.ltb 0 (length ?rest)] =>
        destruct (Nat.ltb a 80); [|exact Hu];
        destruct (Nat.ltb 0 (length rest)) eqn:Hr; [|exact Hu]
    end.
    simpl. apply trim_nonempty_solid. intros E. rewrite E in Hr. discriminate. }
  destruct (matchFirst reAllCapsTitle (trim block)) as [m4|] eqn:E4.
  { simpl. eapply final_group_solid; eauto; simpl; lia. }
  simpl. apply trim_nonempty_solid. exact Hne.
Qed.

Section Filled.

Variable toLowerCase : jstring -> jstring.

Lemma subclauseOf_filled parentClauseNo repo subBlock :
  Forall filled (subclauseOf toLowerCase parentClauseNo repo subBlock).
Proof.
  unfold subclauseOf.
  destruct (Nat.ltb (length (trim subBlock)) 30) eqn:Hlen; [constructor|].
  match goal with |- Forall _ (match ?t with _ => _ end) => destruct t as [[|c ty]|] end;
    try constructor; [|constructor].
  split; simpl; [discriminate|].
  assert (Hsolid : allWhite (trim subBlock) = false).
  { apply trim_nonempty_solid. intros E. rewrite E in Hlen. discriminate. }
  apply normalizeText_nonempty.
  destruct (matchFirst reSubRef (trim subBlock)) as [[whole cs]|] eqn:Hm; [|exact Hsolid].
  apply matchFirst_anchored in Hm; [|reflexivity|reflexivity].
  simpl in Hm. subst whole. exact Hsolid.
Qed.

Lemma expander_filled parentClauseNo blockText repo :
  Forall filled (extractSubclausesFromMiscellaneous toLowerCase parentClauseNo blockText repo).
Proof.
  unfold extractSubclausesFromMiscellaneous.
  apply Forall_flat_map, Forall_forall. intros subBlock _. apply subclauseOf_filled.
Qed.

Lemma clausesOfBlock_filled repo trimmedBlock pushed :
  clausesOfBlock toLowerCase repo trimmedBlock = Some pushed -> Forall filled pushed.
Proof.
  unfold clausesOfBlock.
  set (cleanedBlock := trim (replaceAll pageNoiseRegex [] trimmedBlock)).
  destruct (Nat.ltb (length cleanedBlock) 20) eqn:Hlen; [discriminate|].
  assert (Hbody : allWhite (snd (parseClauseNumber cleanedBlock)) = false).
  { apply parseClauseNumber_body. unfold cleanedBlock. rewrite trim_idem.
    fold cleanedBlock. intros E. rewrite E in Hlen. discriminate. }
  destruct (parseClauseNumber cleanedBlock) as [no body]. simpl in Hbody.
  destruct (classifyBlock toLowerCase repo cleanedBlock) as [[detectedType fromRepo] sim].
  destruct detectedType as [[|c ty]|]; try discriminate.
  assert (Hmain : filled (mainClauseOf (c :: ty) no body fromRepo sim)).
  { split; simpl; [discriminate|]. apply normalizeText_nonempty. exact Hbody. }
  destruct (isMiscellaneousOrGeneralSection toLowerCase no).
  - match goal with |- context [Nat.ltb 0 (length ?l)] => destruct (Nat.ltb 0 (length l)) end;
      intros E; inversion E; subst; [apply expander_filled|constructor; [exact Hmain|constructor]].
  - intros E; inversion E; subst. constructor; [exact Hmain|constructor].
Qed.

Lemma blockStep_filled repo st block :
  Forall filled (fst st) -> Forall filled (fst (blockStep toLowerCase repo st block)).
Proof.
  destruct st as [clauses seen]. unfold blockStep. intros H.
  destruct (Nat.ltb (length (trim block)) 30); [exact H|].
  destruct (has seen (trim block)); [exact H|].
  destruct (clausesOfBlock toLowerCase repo (trim block)) as [pushed|] eqn:E; [|exact H].
  simpl. apply Forall_app. split; [exact H|]. eapply clausesOfBlock_filled; eauto.
Qed.

Lemma blocks_filled repo blocks : forall st,
  Forall filled (fst st) ->
  Forall filled (fst (fold_left (blockStep toLowerCase repo) blocks st)).
Proof.
  induction blocks as [|b blocks IH]; intros st H; simpl; [exact H|].
  apply IH, blockStep_filled, H.
Qed.

Variable functionText : jstring -> FunctionText.

(** C5. Every clause of a list that the extraction returns has a type that
    is not the empty string and a text that is not the empty string. The
    extraction returns a list for every schema whose identifier is no
    property name of [Object.prototype]. *)
Theorem extracted_clauses_are_filled documentText repo userSchema :
  (forall clauses,
     extractClausesRuleBased toLowerCase functionText documentText repo userSchema
     = Returned clauses ->
     Forall (fun c => clause_type c <> [] /\ clause_text c <> []) clauses)
  /\ (plainSchema userSchema ->
      exists clauses,
        extractClausesRuleBased toLowerCase functionText documentText repo userSchema
        = Returned clauses).
Proof.
  split.
  - intros clauses H.
    destruct (extraction_clauses _ _ _ _ _ H) as (blocks & _ & ->).
    apply (@blocks_filled repo blocks ([], [])). constructor.
  - apply extraction_returns.
Qed.

End Filled.

Lemma extracted_clauses_are_filled_witness :
  exists clauses,
    extractClausesRuleBased asciiToLowerCase v8FunctionText scenarioA []
      (Some numericSchema)
    = Returned clauses
    /\ Forall (fun c => clause_type c <> [] /\ clause_text c <> []) clauses.
Proof.
  destruct (extracted_clauses_are_filled asciiToLowerCase v8FunctionText scenarioA []
              (Some numericSchema)) as (Hall & Hret).
  destruct (Hret eq_refl) as (clauses & E).
  exists clauses. split; [exact E|exact (Hall clauses E)].
Defined.

(** ** Scenario A *)

Lemma scenarioA_clauses :
  extractClausesRuleBased asciiToLowerCase v8FunctionText scenarioA []
    (Some numericSchema)
  = Returned
      [ mainClauseOf (js "Indemnification") (js "1. INDEMNITY")
          (js "Each party shall indemnify the other.") false zero;
        mainClauseOf (js "Termination") (js "2. TERM")
          (js "This agreement lasts one year.") false zero ].
Proof. vm_compute. reflexivity. Qed.

(** With the identifier "constructor" both values of the schema are the
    function [Object]; the text does not have its source text, and the first
    piece of 10 characters or more stops the extraction on a [TypeError]. A
    text shorter than that gives the empty list. *)
Lemma scenarioA_inherited_schema :
  extractClausesRuleBased asciiToLowerCase v8FunctionText scenarioA []
    (Some constructorSchema)
  = Threw
  /\ extractClausesRuleBased asciiToLowerCase v8FunctionText (js " I. Hi ") []
       (Some constructorSchema)
     = Returned [].
Proof. split; vm_compute; reflexivity. Qed.

(** C1, as stated, fails: on scenario A the second clause does not have the
    type "General Clause". *)
Lemma scenarioA_second_type_is_not_general :
  ~ (exists c1 c2,
       extractClausesRuleBased asciiToLowerCase v8FunctionText scenarioA []
      (Some numericSchema)
       = Returned [c1; c2]
       /\ clause_no c1 = js "1. INDEMNITY" /\ clause_type c1 = js "Indemnification"
       /\ clause_no c2 = js "2. TERM" /\ clause_type c2 = js "General Clause").
Proof.
  intros (c1 & c2 & H & _ & _ & _ & Hty).
  rewrite scenarioA_clauses in H. inversion H; subst. discriminate Hty.
Qed.

(** C1, amended. On scenario A with the schema "numeric" and an empty
    repository the extraction returns exactly two clauses: "1. INDEMNITY" of
    type "Indemnification" and "2. TERM" of type "Termination", the title
    table mapping "term" to "Termination". *)
Theorem scenarioA_extraction :
  exists c1 c2,
    extractClausesRuleBased asciiToLowerCase v8FunctionText scenarioA []
      (Some numericSchema)
    = Returned [c1; c2]
    /\ clause_no c1 = js "1. INDEMNITY" /\ clause_type c1 = js "Indemnification"
    /\ clause_no c2 = js "2. TERM" /\ clause_type c2 = js "Termination".
Proof.
  do 2 eexists. split; [apply scenarioA_clauses|]. repeat split.
Qed.

(** ** Repeated texts *)

Lemma sameBodies_clauses :
  extractClausesRuleBased asciiToLowerCase v8FunctionText sameBodies []
    (Some numericSchema)
  = Returned
      [ mainClauseOf (js "Indemnification") (js "1. INDEMNITY")
          (js "Each party shall indemnify the other party fully.") false zero;
        mainClauseOf (js "Termination") (js "2. TERM")
          (js "Each party shall indemnify the other party fully.") false zero ].
Proof. vm_compute. reflexivity. Qed.

(** C2, as stated, fails: two numbered clauses with the same body give two
    returned clauses with the same text. *)
Lemma same_bodies_repeat_the_text :
  exists clauses,
    extractClausesRuleBased asciiToLowerCase v8FunctionText sameBodies []
    (Some numericSchema)
    = Returned clauses
    /\ ~ NoDup (map (fun c => trim (clause_text c)) clauses).
Proof.
  eexists. split; [apply sameBodies_clauses|].
  intros H. inversion H as [|? ? Hnotin _]; subst. apply Hnotin. left. reflexivity.
Qed.

(** ** Sets *)

Lemma addAll_In w : forall words set, In w (addAll set words) <-> In w set \/ In w words.
Proof.
  induction words as [|v words IH]; intros set; simpl; [tauto|].
  rewrite IH. destruct (has set v) eqn:Hv.
  - apply has_In in Hv. split; [tauto|]. intros [H|[<-|H]]; auto.
  - rewrite in_app_iff. simpl. tauto.
Qed.

Lemma addAll_NoDup : forall words set, NoDup set -> NoDup (addAll set words).
Proof.
  induction words as [|v words IH]; intros set Hs; simpl; [exact Hs|].
  apply IH. destruct (has set v) eqn:Hv; [exact Hs|].
  apply NoDup_app; [exact Hs|repeat constructor; simpl; tauto|].
  intros x Hx [<-|[]]. apply has_In in Hx. congruence.
Qed.

Lemma addAll_length : forall words set,
  (length set <= length (addAll set words) <= length set + length words)%nat.
Proof.
  induction words as [|v words IH]; intros set; simpl; [lia|].
  specialize (IH (if has set v then set else set ++ [v])).
  destruct (has set v); [lia|]. rewrite length_app in IH. simpl in IH. lia.
Qed.

Lemma newSet_In w words : In w (newSet words) <-> In w words.
Proof. unfold newSet. rewrite addAll_In. simpl. tauto. Qed.

Lemma newSet_NoDup words : NoDup (newSet words).
Proof. apply addAll_NoDup. constructor. Qed.

Lemma newSet_length words : (length (newSet words) <= length words)%nat.
Proof. apply (addAll_length words []). Qed.

Lemma newSet_incl a b : incl a b -> (length (newSet a) <= length (newSet b))%nat.
Proof.
  intros H. apply NoDup_incl_length; [apply newSet_NoDup|].
  intros x Hx. apply newSet_In. apply H. apply newSet_In. exact Hx.
Qed.

Lemma newSet_nonempty a : a <> [] -> (1 <= length (newSet a))%nat.
Proof.
  destruct a as [|w a]; [congruence|]. intros _. unfold newSet. simpl.
  pose proof (addAll_length a [w]). simpl in *. lia.
Qed.

(** ** Block texts *)

Section BlockTexts.

Variable toLowerCase : jstring -> jstring.
Variable functionText : jstring -> FunctionText.

(** The loop over the blocks keeps, beside the clauses, the set of the block
    texts that gave them; it adds to the set the texts of the blocks that
    are productive, each once. *)
Lemma blocks_once repo blocks : forall clauses seen,
  clauses = flat_map (pushedFor toLowerCase repo) seen ->
  fst (fold_left (blockStep toLowerCase repo) blocks (clauses, seen))
  = flat_map (pushedFor toLowerCase repo)
      (addAll seen (filter (productive toLowerCase repo) (map trim blocks))).
Proof.
  induction blocks as [|b blocks IH]; intros clauses seen Hcl; [exact Hcl|].
  cbn [fold_left map filter].
  assert (Hprod : productive toLowerCase repo (trim b)
                  = Nat.leb 30 (length (trim b))
                    && match clausesOfBlock toLowerCase repo (trim b) with
                       | Some _ => true
                       | None => false
                       end) by reflexivity.
  unfold blockStep at 2.
  destruct (Nat.ltb_spec (length (trim b)) 30) as [Hlt|Hge].
  - replace (Nat.leb 30 (length (trim b))) with false in Hprod
      by (symmetry; apply Nat.leb_gt; exact Hlt).
    rewrite Hprod. apply IH. exact Hcl.
  - replace (Nat.leb 30 (length (trim b))) with true in Hprod
      by (symmetry; apply Nat.leb_le; exact Hge).
    rewrite Hprod. cbn [andb].
    destruct (clausesOfBlock toLowerCase repo (trim b)) as [pushed|] eqn:Hp.
    + cbn [addAll]. destruct (has seen (trim b)); [apply IH; exact Hcl|].
      apply IH. rewrite flat_map_app, Hcl. simpl. unfold pushedFor at 3.
      rewrite Hp, app_nil_r. reflexivity.
    + destruct (has seen (trim b)); apply IH; exact Hcl.
Qed.

(** C2, amended. When the extraction returns, the returned list is the
    concatenation of the clauses pushed for the productive block texts, each
    text taken once, at its first block: the texts are pairwise different,
    and a block whose trimmed text is that of an earlier productive block
    gives nothing. The texts of two returned clauses can still be the same.
    The extraction stops on a [TypeError] exactly when the blocks do. *)
Theorem extraction_uses_each_block_text_once documentText repo userSchema :
  match documentBlocks functionText documentText userSchema with
  | Returned blocks =>
      let kept := newSet (filter (productive toLowerCase repo) (map trim blocks)) in
      extractClausesRuleBased toLowerCase functionText documentText repo userSchema
      = Returned (flat_map (pushedFor toLowerCase repo) kept)
      /\ NoDup kept
      /\ (forall text, In text kept <->
                       In text (map trim blocks)
                       /\ productive toLowerCase repo text = true)
  | Threw =>
      extractClausesRuleBased toLowerCase functionText documentText repo userSchema
      = Threw
  end.
Proof.
  unfold extractClausesRuleBased.
  destruct (documentBlocks functionText documentText userSchema) as [blocks|];
    [|reflexivity].
  cbv zeta. split; [|split].
  - rewrite (@blocks_once repo blocks [] [] eq_refl). reflexivity.
  - apply newSet_NoDup.
  - intros text. rewrite newSet_In, filter_In. reflexivity.
Qed.

End BlockTexts.

(** ** The preamble *)

(** C3, as stated, fails: with a detected schema the split yields five
    pieces, the first line of the first one matches no header, and the piece
    comes back as the text of a returned clause. *)
Lemma detected_schema_keeps_preamble :
  exists splitRegex type rest clauses c,
    detectNumberingSchema (removePageNumbers withPreamble) = (splitRegex, type)
    /\ getSchemaRegex type = None
    /\ splitRe splitRegex (removePageNumbers withPreamble) = Some preambleText :: rest
    /\ (1 < length (Some preambleText :: rest))%nat
    /\ test defaultHeaderRegex (firstLineOf (trim preambleText)) = false
    /\ extractClausesRuleBased asciiToLowerCase v8FunctionText withPreamble [] None
       = Returned clauses
    /\ In c clauses /\ clause_text c = preambleText.
Proof.
  do 3 eexists.
  exists [ mainClauseOf (js "Parties") [] preambleText false zero;
           mainClauseOf (js "Termination") (js "I. DEFINITIONS AND TERMS")
             (js "Words shall have meanings.") false zero;
           mainClauseOf (js "Termination") (js "II. PAYMENT TERMS")
             (js "Buyer shall pay.") false zero ].
  exists (mainClauseOf (js "Parties") [] preambleText false zero).
  split; [vm_compute; reflexivity|].
  split; [vm_compute; reflexivity|].
  split; [vm_compute; reflexivity|].
  split; [vm_compute; lia|].
  split; [vm_compute; reflexivity|].
  split; [vm_compute; reflexivity|].
  split; [left; reflexivity|vm_compute; reflexivity].
Qed.

(** With the schema of the caller and two numbered clauses only, the dropped
    preamble comes back through the alternative patterns. *)
Lemma alternative_split_brings_preamble_back :
  exists c rest,
    extractClausesRuleBased asciiToLowerCase v8FunctionText twoNumbered []
      (Some numericSchema)
    = Returned (c :: rest)
    /\ clause_text c = preambleText.
Proof. do 2 eexists. split; vm_compute; reflexivity. Qed.

Lemma alternativeSplit_kept cleanedText l type :
  (3 <= length l)%nat \/ noAlternative cleanedText ->
  alternativeSplit cleanedText l type = (l, type).
Proof.
  intros H. unfold alternativeSplit.
  destruct (Nat.ltb_spec (length l) 3) as [Hlt|Hge]; [|reflexivity].
  destruct H as [H|(H1 & H2 & H3)]; [lia|].
  replace (Nat.leb 3 (length (splitRe romanCapsRegex cleanedText))) with false
    by (symmetry; apply Nat.leb_gt; exact H1).
  replace (Nat.leb 3 (length (splitRe sectionRegex cleanedText))) with false
    by (symmetry; apply Nat.leb_gt; exact H2).
  replace (Nat.leb 3 (length (splitRe numericCapsRegex cleanedText))) with false
    by (symmetry; apply Nat.leb_gt; exact H3).
  reflexivity.
Qed.

(** Otherwise the pieces are those of an alternative pattern, which cuts the
    whole text. *)
Lemma alternativeSplit_replaced cleanedText l type :
  (length l < 3)%nat -> ~ noAlternative cleanedText ->
  exists altRegex,
    In altRegex [romanCapsRegex; sectionRegex; numericCapsRegex]
    /\ (3 <= length (splitRe altRegex cleanedText))%nat
    /\ fst (alternativeSplit cleanedText l type) = splitRe altRegex cleanedText.
Proof.
  intros Hlen Hno. unfold alternativeSplit.
  replace (Nat.ltb (length l) 3) with true by (symmetry; apply Nat.ltb_lt; exact Hlen).
  destruct (Nat.leb_spec 3 (length (splitRe romanCapsRegex cleanedText))) as [H1|H1].
  { exists romanCapsRegex. simpl. auto. }
  destruct (Nat.leb_spec 3 (length (splitRe sectionRegex cleanedText))) as [H2|H2].
  { exists sectionRegex. simpl. auto. }
  destruct (Nat.leb_spec 3 (length (splitRe numericCapsRegex cleanedText))) as [H3|H3].
  { exists numericCapsRegex. simpl. auto. }
  exfalso. apply Hno. repeat split; assumption.
Qed.

(** The first block only grows at its end. *)
Lemma mergeBlocks_head h : forall l b bs blocks,
  mergeBlocks h l (b :: bs) = Returned blocks ->
  exists more others, blocks = (b ++ more) :: others.
Proof.
  induction l as [|[t|] l IH]; intros b bs blocks H; cbn [mergeBlocks] in H.
  - inversion H. exists [], bs. rewrite app_nil_r. reflexivity.
  - cbv zeta in H. destruct (Nat.ltb (length (trim t)) 10); [eapply IH; exact H|].
    destruct (test h (firstLineOf (trim t)) || Nat.eqb (length (b :: bs)) 0).
    + eapply IH. exact H.
    + destruct bs as [|b' bs].
      * cbn [appendToLast] in H. destruct (IH _ _ _ H) as (more & others & ->).
        exists ((nlnl ++ trim t) ++ more), others.
        rewrite (app_assoc b (nlnl ++ trim t) more). reflexivity.
      * cbn [appendToLast] in H. eapply IH. exact H.
  - discriminate.
Qed.

(** A first piece of 10 characters or more begins the first block, whatever
    its first line. *)
Lemma mergeBlocks_first h first rest blocks :
  (10 <= length (trim first))%nat ->
  mergeBlocks h (Some first :: rest) [] = Returned blocks ->
  exists more others, blocks = (trim first ++ more) :: others.
Proof.
  intros Hlen H. cbn [mergeBlocks] in H. cbv zeta in H.
  replace (Nat.ltb (length (trim first)) 10) with false in H
    by (symmetry; apply Nat.ltb_ge; exact Hlen).
  change (Nat.eqb (length (@nil jstring)) 0) with true in H.
  rewrite orb_true_r in H. eapply mergeBlocks_head. exact H.
Qed.

Lemma chooseSchema_detected userSchema cleanedText :
  detectedSchema userSchema ->
  chooseSchema userSchema cleanedText
  = (Some (Own (fst (detectNumberingSchema cleanedText))), None,
     snd (detectNumberingSchema cleanedText)).
Proof.
  intros H. unfold chooseSchema.
  destruct (detectNumberingSchema cleanedText) as [pattern type].
  destruct userSchema as [u|]; [|reflexivity].
  simpl in H. rewrite H. reflexivity.
Qed.

Section Preamble.

Variable toLowerCase : jstring -> jstring.
Variable functionText : jstring -> FunctionText.

(** C3, amended. With a schema supplied by the caller whose identifier has a
    split pattern and a header pattern, when the split yields more than one
    piece and the first line of the first piece matches no header, the first
    piece is removed. When three pieces or more follow it, or no alternative
    pattern cuts the text into three pieces, the blocks and the clauses are
    those of the pieces that follow; otherwise the pieces of an alternative
    pattern, cut from the whole text, take their place. With a detected
    schema no piece is removed: the blocks are those of all the pieces, and a
    first piece of 10 characters or more begins the first block whatever its
    first line. *)
Theorem preamble_dropped_with_supplied_schema documentText repo :
  (forall u splitRegex headerRegex first rest,
     mainClause u <> js "none" ->
     getSchemaSplitRegex (mainClause u) = Some (Own splitRegex) ->
     getSchemaRegex (mainClause u) = Some (Own headerRegex) ->
     splitRe splitRegex (removePageNumbers documentText) = Some first :: rest ->
     rest <> [] ->
     test headerRegex (firstLineOf (trim first)) = false ->
     primarySplit functionText (Some (Own splitRegex)) (Some (Own headerRegex))
       (removePageNumbers documentText)
     = Returned rest
     /\ ((3 <= length rest)%nat \/ noAlternative (removePageNumbers documentText) ->
         exists blocks,
           mergeBlocks headerRegex rest [] = Returned blocks
           /\ documentBlocks functionText documentText (Some u) = Returned blocks
           /\ extractClausesRuleBased toLowerCase functionText documentText repo (Some u)
              = Returned (fst (fold_left (blockStep toLowerCase repo) blocks ([], []))))
     /\ ((length rest < 3)%nat -> ~ noAlternative (removePageNumbers documentText) ->
         exists altRegex,
           In altRegex [romanCapsRegex; sectionRegex; numericCapsRegex]
           /\ (3 <= length (splitRe altRegex (removePageNumbers documentText)))%nat
           /\ documentBlocks functionText documentText (Some u)
              = mergeBlocks headerRegex
                  (splitRe altRegex (removePageNumbers documentText)) []))
  /\ (forall userSchema splitRegex schemaType,
        detectedSchema userSchema ->
        detectNumberingSchema (removePageNumbers documentText)
        = (splitRegex, schemaType) ->
        let pieces := splitRe splitRegex (removePageNumbers documentText) in
        let initialBlocks :=
          fst (alternativeSplit (removePageNumbers documentText) pieces schemaType) in
        ((3 <= length pieces)%nat -> initialBlocks = pieces)
        /\ exists headerRegex blocks,
             mergeBlocks headerRegex initialBlocks [] = Returned blocks
             /\ documentBlocks functionText documentText userSchema = Returned blocks
             /\ extractClausesRuleBased toLowerCase functionText documentText repo
                  userSchema
                = Returned (fst (fold_left (blockStep toLowerCase repo) blocks ([], [])))
             /\ (forall first rest,
                   initialBlocks = Some first :: rest ->
                   (10 <= length (trim first))%nat ->
                   exists more others, blocks = (trim first ++ more) :: others)).
Proof.
  split.
  - intros u splitRegex headerRegex first rest Hnone Hsplit Hheader Hpieces Hrest Htest.
    assert (Hprimary :
      primarySplit functionText (Some (Own splitRegex)) (Some (Own headerRegex))
        (removePageNumbers documentText)
      = Returned rest).
    { unfold primarySplit, splitBy, testBy. rewrite Hpieces, Htest.
      destruct rest as [|p rest]; [contradiction|]. reflexivity. }
    split; [exact Hprimary|].
    assert (Hd : documentBlocks functionText documentText (Some u)
                 = mergeBlocks headerRegex
                     (fst (alternativeSplit (removePageNumbers documentText) rest
                             (mainClause u))) []).
    { unfold documentBlocks, chooseSchema.
      replace (jstring_eqb (mainClause u) (js "none")) with false.
      - cbn [negb]. rewrite Hsplit, Hheader, Hprimary.
        destruct (alternativeSplit (removePageNumbers documentText) rest (mainClause u)).
        reflexivity.
      - symmetry. destruct (jstring_eqb (mainClause u) (js "none")) eqn:E; [|reflexivity].
        apply jstring_eqb_eq in E. contradiction. }
    split.
    + intros Hkept.
      rewrite (@alternativeSplit_kept _ rest (mainClause u) Hkept) in Hd. cbn [fst] in Hd.
      assert (Hp : pieces (removePageNumbers documentText) rest).
      { pose proof (@splitRe_pieces splitRegex (removePageNumbers documentText)
                      (schemaSplit_defined _ Hsplit)) as Hp.
        rewrite Hpieces in Hp. inversion Hp; assumption. }
      destruct (@mergeBlocks_returns headerRegex _ rest [] Hp) as (blocks & Hb).
      exists blocks. rewrite Hb in Hd. split; [exact Hb|]. split; [exact Hd|].
      unfold extractClausesRuleBased. rewrite Hd. reflexivity.
    + intros Hlen Hno.
      destruct (@alternativeSplit_replaced (removePageNumbers documentText) rest
                  (mainClause u) Hlen Hno) as (altRegex & Hin & Halt & E).
      exists altRegex. rewrite E in Hd. auto.
  - intros userSchema splitRegex schemaType Hdetected Hdetect. cbv zeta.
    set (cleanedText := removePageNumbers documentText) in *.
    split.
    { intros Hlen. rewrite alternativeSplit_kept; [reflexivity|left; exact Hlen]. }
    assert (Hp : pieces cleanedText
                   (fst (alternativeSplit cleanedText (splitRe splitRegex cleanedText)
                           schemaType))).
    { apply alternativeSplit_pieces, splitRe_pieces.
      pose proof (detect_defined cleanedText) as Hdef. rewrite Hdetect in Hdef.
      exact Hdef. }
    assert (Hty : isPrototypeKey
                    (snd (alternativeSplit cleanedText (splitRe splitRegex cleanedText)
                            schemaType)) = false).
    { apply alternativeSplit_type.
      pose proof (detect_type cleanedText) as Hty. rewrite Hdetect in Hty. exact Hty. }
    assert (Hd : exists headerRegex,
      documentBlocks functionText documentText userSchema
      = mergeBlocks headerRegex
          (fst (alternativeSplit cleanedText (splitRe splitRegex cleanedText) schemaType))
          []).
    { unfold documentBlocks. fold cleanedText.
      rewrite (chooseSchema_detected _ _ Hdetected), Hdetect. cbn [fst snd].
      unfold primarySplit, splitBy.
      destruct (alternativeSplit cleanedText (splitRe splitRegex cleanedText) schemaType)
        as [l type'].
      cbn [fst snd] in *.
      destruct (getSchemaRegex type') as [[h|k]|] eqn:E.
      - exists h. reflexivity.
      - exfalso. exact (lookup_plain _ _ Hty E).
      - exists defaultHeaderRegex. reflexivity. }
    destruct Hd as (headerRegex & Hd).
    destruct (@mergeBlocks_returns headerRegex _ _ [] Hp) as (blocks & Hb).
    exists headerRegex, blocks. rewrite Hb in Hd.
    split; [exact Hb|]. split; [exact Hd|].
    split; [unfold extractClausesRuleBased; rewrite Hd; reflexivity|].
    intros first rest E Hlen. rewrite E in Hb.
    eapply mergeBlocks_first; eauto.
Qed.

End Preamble.

Lemma preamble_dropped_witness :
  (exists blocks,
     mergeBlocks numericHeader threePieces [] = Returned blocks
     /\ documentBlocks v8FunctionText threeNumbered (Some numericSchema)
        = Returned blocks)
  /\ (exists more others,
        documentBlocks v8FunctionText withPreamble None
        = Returned ((preambleText ++ more) :: others)).
Proof.
  split.
  - assert (Hsplit : exists splitRegex,
      getSchemaSplitRegex (mainClause numericSchema) = Some (Own splitRegex)
      /\ splitRe splitRegex (removePageNumbers threeNumbered)
         = Some preambleText :: threePieces).
    { eexists. split; [vm_compute; reflexivity|]. vm_compute. reflexivity. }
    destruct Hsplit as (splitRegex & Hsplit & Hpieces).
    assert (Hheader : getSchemaRegex (mainClause numericSchema)
                      = Some (Own numericHeader))
      by (vm_compute; reflexivity).
    assert (Htest : test numericHeader (firstLineOf (trim preambleText)) = false)
      by (vm_compute; reflexivity).
    assert (Hnone : mainClause numericSchema <> js "none")
      by (vm_compute; discriminate).
    assert (Hrest : threePieces <> []) by discriminate.
    assert (Hlen : (3 <= length threePieces)%nat) by (simpl; lia).
    destruct (proj1 (preamble_dropped_with_supplied_schema asciiToLowerCase
                       v8FunctionText threeNumbered [])
                numericSchema splitRegex numericHeader preambleText threePieces
                Hnone Hsplit Hheader Hpieces Hrest Htest)
      as (_ & Hkept & _).
    destruct (Hkept (or_introl Hlen)) as (blocks & Hb & Hd & _).
    exists blocks. split; [exact Hb|exact Hd].
  - assert (Hdetect : exists splitRegex schemaType rest,
      detectNumberingSchema (removePageNumbers withPreamble) = (splitRegex, schemaType)
      /\ fst (alternativeSplit (removePageNumbers withPreamble)
                (splitRe splitRegex (removePageNumbers withPreamble)) schemaType)
         = Some preambleText :: rest).
    { do 3 eexists. split; [vm_compute; reflexivity|]. vm_compute. reflexivity. }
    destruct Hdetect as (splitRegex & schemaType & rest & Hdetect & Hfirst).
    destruct (proj2 (preamble_dropped_with_supplied_schema asciiToLowerCase
                       v8FunctionText withPreamble [])
                None splitRegex schemaType I Hdetect)
      as (_ & headerRegex & blocks & _ & Hd & _ & Hblock).
    destruct (Hblock preambleText rest Hfirst) as (more & others & ->).
    + vm_compute. lia.
    + exists more, others. exact Hd.
Defined.

(** ** Rounding to a double *)

Local Open Scope Z_scope.

Lemma digits2_bounds p :
  2 ^ (Zpos (digits2_pos p) - 1) <= Zpos p < 2 ^ Zpos (digits2_pos p).
Proof.
  induction p as [p IH|p IH|]; cbn [digits2_pos].
  - rewrite Pos2Z.inj_succ, Z.pow_succ_r by lia.
    replace (Z.succ (Zpos (digits2_pos p)) - 1) with (Z.succ (Zpos (digits2_pos p) - 1)) by lia.
    rewrite Z.pow_succ_r by lia. lia.
  - rewrite Pos2Z.inj_succ, Z.pow_succ_r by lia.
    replace (Z.succ (Zpos (digits2_pos p)) - 1) with (Z.succ (Zpos (digits2_pos p) - 1)) by lia.
    rewrite Z.pow_succ_r by lia. lia.
  - simpl. lia.
Qed.

Lemma Zdigits2_bounds m : 0 < m -> 2 ^ (Zdigits2 m - 1) <= m < 2 ^ Zdigits2 m.
Proof. destruct m as [|p|p]; try lia. intros _. apply digits2_bounds. Qed.

Lemma Zdigits2_nonneg m : 0 <= Zdigits2 m.
Proof. destruct m; simpl; lia. Qed.

Lemma Zdigits2_le m d : 0 <= m < 2 ^ d -> 0 <= d -> Zdigits2 m <= d.
Proof.
  intros (H0 & Hm) Hd. destruct (Z.eq_dec m 0) as [->|Hne]; [simpl; lia|].
  destruct (Zdigits2_bounds (m := m)) as (Hl & _); [lia|].
  destruct (Z_le_gt_dec (Zdigits2 m) d) as [|Hgt]; [assumption|exfalso].
  assert (2 ^ d <= 2 ^ (Zdigits2 m - 1)) by (apply Z.pow_le_mono_r; lia). lia.
Qed.

Lemma iter_pos_nat {A} (f : A -> A) p : forall x,
  iter_pos f p x = Nat.iter (Pos.to_nat p) f x.
Proof.
  assert (Hadd : forall a b (y : A), Nat.iter (a + b) f y = Nat.iter a f (Nat.iter b f y)).
  { induction a as [|a IHa]; intros b y; simpl; [reflexivity|]. rewrite IHa. reflexivity. }
  assert (Hcomm : forall a (y : A), Nat.iter a f (f y) = f (Nat.iter a f y)).
  { induction a as [|a IHa]; intros y; simpl; [reflexivity|]. rewrite IHa. reflexivity. }
  induction p as [p IH|p IH|]; intros x; cbn [iter_pos].
  - rewrite !IH, Pos2Nat.inj_xI. replace (S (2 * Pos.to_nat p))%nat
      with (Pos.to_nat p + S (Pos.to_nat p))%nat by lia.
    rewrite Hadd. simpl. rewrite Hcomm. reflexivity.
  - rewrite !IH, Pos2Nat.inj_xO. replace (2 * Pos.to_nat p)%nat
      with (Pos.to_nat p + Pos.to_nat p)%nat by lia.
    rewrite Hadd. reflexivity.
  - reflexivity.
Qed.

Lemma shr_1_spec mrs :
  0 <= shr_m mrs ->
  shr_m (shr_1 mrs) = shr_m mrs / 2
  /\ (shr_m mrs mod 2 = 0 -> exactRecord mrs -> exactRecord (shr_1 mrs)).
Proof.
  destruct mrs as [m r s]. cbn [shr_m]. intros Hm. unfold exactRecord.
  destruct m as [|[p|p|]|p]; cbn [shr_1 shr_m shr_r shr_s]; try lia.
  - split; [reflexivity|]. intros _ (-> & ->). auto.
  - split; [rewrite Pos2Z.inj_xI; apply Z.div_unique with 1; lia|].
    rewrite Pos2Z.inj_xI. intros H. exfalso.
    assert ((2 * Zpos p + 1) mod 2 = 1) by (symmetry; apply Z.mod_unique with (Zpos p); lia).
    lia.
  - split; [rewrite Pos2Z.inj_xO; apply Z.div_unique with 0; lia|].
    intros _ (-> & ->). auto.
  - split; [reflexivity|]. intros H. discriminate H.
Qed.

Lemma shr_nat_spec k : forall mrs,
  0 <= shr_m mrs ->
  shr_m (Nat.iter k shr_1 mrs) = shr_m mrs / 2 ^ Z.of_nat k
  /\ (shr_m mrs mod 2 ^ Z.of_nat k = 0 -> exactRecord mrs ->
      exactRecord (Nat.iter k shr_1 mrs)).
Proof.
  induction k as [|k IH]; intros mrs Hm.
  - simpl. rewrite Z.div_1_r. auto.
  - destruct (IH mrs Hm) as (IH1 & IH2).
    assert (Hpos : 0 < 2 ^ Z.of_nat k) by (apply Z.pow_pos_nonneg; lia).
    assert (Hk : 0 <= shr_m (Nat.iter k shr_1 mrs)).
    { rewrite IH1. apply Z.div_pos; lia. }
    destruct (shr_1_spec _ Hk) as (S1 & S2).
    change (Nat.iter (S k) shr_1 mrs) with (shr_1 (Nat.iter k shr_1 mrs)).
    rewrite Nat2Z.inj_succ, Z.pow_succ_r by lia.
    split.
    + rewrite S1, IH1, Z.div_div by lia. f_equal. lia.
    + intros Hmod Hex.
      assert (Hmod' : shr_m mrs mod 2 ^ Z.of_nat k = 0).
      { apply Z.mod_divide in Hmod; [|lia]. apply Z.mod_divide; [lia|].
        destruct Hmod as (c & Hc). exists (c * 2). lia. }
      apply S2; [|apply IH2; assumption].
      rewrite IH1. apply Z.mod_divide in Hmod; [|lia]. destruct Hmod as (c & Hc).
      rewrite Hc. replace (c * (2 * 2 ^ Z.of_nat k)) with (c * 2 * 2 ^ Z.of_nat k) by lia.
      rewrite Z.div_mul by lia. apply Z.mod_divide; [lia|]. exists c. lia.
Qed.

Lemma fexp64_eq e : fexp64 e = Z.max (e - 53) (-1074).
Proof. reflexivity. Qed.

(** What [shr_fexp] does to a mantissa that is not negative: the new
    exponent, the quotient, and exactness kept when nothing is lost. *)
Lemma shr_fexp_spec m e l :
  0 <= m ->
  let '(mrs, e') := shr_fexp prec emax m e l in
  e' = Z.max e (fexp64 (Zdigits2 m + e))
  /\ shr_m mrs = m / 2 ^ (e' - e)
  /\ (m mod 2 ^ (e' - e) = 0 -> l = loc_Exact -> loc_of_shr_record mrs = loc_Exact).
Proof.
  intros Hm. unfold shr_fexp, shr. fold (fexp64 (Zdigits2 m + e)).
  assert (Hrec : shr_m (shr_record_of_loc m l) = m) by (destruct l as [|[]]; reflexivity).
  destruct (fexp64 (Zdigits2 m + e) - e) as [|p|p] eqn:En.
  - replace (Z.max e (fexp64 (Zdigits2 m + e))) with e by lia.
    rewrite Z.sub_diag, Z.div_1_r. repeat split; auto.
    intros _ ->. reflexivity.
  - replace (Z.max e (fexp64 (Zdigits2 m + e))) with (e + Zpos p) by lia.
    replace (e + Zpos p - e) with (Zpos p) by lia.
    rewrite iter_pos_nat.
    destruct (@shr_nat_spec (Pos.to_nat p) (shr_record_of_loc m l)) as (H1 & H2);
      [rewrite Hrec; exact Hm|].
    rewrite positive_nat_Z, Hrec in *. repeat split; auto.
    intros Hmod ->. destruct (H2 Hmod) as (Hr & Hs); [split; reflexivity|].
    destruct (Nat.iter (Pos.to_nat p) shr_1 (shr_record_of_loc m loc_Exact)) as [m' r s].
    simpl in Hr, Hs. subst. reflexivity.
  - replace (Z.max e (fexp64 (Zdigits2 m + e))) with e by lia.
    rewrite Z.sub_diag, Z.div_1_r. repeat split; auto.
    intros _ ->. reflexivity.
Qed.

Lemma round_nearest_even_bounds m l :
  m <= round_nearest_even m l <= m + 1 /\ round_nearest_even m loc_Exact = m.
Proof.
  split; [|reflexivity]. destruct l as [|[]]; simpl; try lia.
  destruct (Z.even m); lia.
Qed.

(** A rounded value stays below a double that bounds what is rounded. *)
Lemma binary_round_aux_below M E mx ex lx :
  normalBound M E -> 0 <= mx -> ex <= E ->
  mx <= M * 2 ^ (E - ex) -> (mx = M * 2 ^ (E - ex) -> lx = loc_Exact) ->
  below M E (binary_round_aux prec emax false mx ex lx).
Proof.
  intros ((HM1 & HM2) & HE1 & HE2) Hmx Hex Hval Hexact.
  unfold binary_round_aux.
  pose proof (@shr_fexp_spec mx ex lx Hmx) as Hs1.
  destruct (shr_fexp prec emax mx ex lx) as [mrs' e'].
  destruct Hs1 as (He' & Hm' & Hloc').
  rewrite fexp64_eq in He'.
  assert (Hp53 : 2 ^ 53 = 9007199254740992) by reflexivity.
  assert (Hp52 : 2 ^ 52 = 4503599627370496) by reflexivity.
  assert (HpE : 0 < 2 ^ (E - ex)) by (apply Z.pow_pos_nonneg; lia).
  (* the exponent after the first shift *)
  assert (Hd : Zdigits2 mx + ex <= 53 + E).
  { destruct (Z.eq_dec mx 0) as [->|Hne]; [change (Zdigits2 0) with 0; lia|].
    assert (Zdigits2 mx <= 53 + (E - ex)); [|lia].
    apply Zdigits2_le; [|lia]. split; [lia|].
    rewrite Z.pow_add_r by lia. nia. }
  assert (He'E : e' <= E) by lia.
  assert (He'ex : ex <= e') by lia.
  assert (He'min : -1074 <= e') by lia.
  assert (Hpn : 0 < 2 ^ (e' - ex)) by (apply Z.pow_pos_nonneg; lia).
  set (m' := shr_m mrs') in *.
  assert (Hm'0 : 0 <= m') by (rewrite Hm'; apply Z.div_pos; lia).
  assert (Hm'53 : m' < 2 ^ 53).
  { rewrite Hm'. apply Z.div_lt_upper_bound; [lia|].
    destruct (Z.eq_dec mx 0) as [->|Hne]; [lia|].
    destruct (Zdigits2_bounds (m := mx)) as (_ & Hu); [lia|].
    assert (2 ^ Zdigits2 mx <= 2 ^ (53 + (e' - ex))) by (apply Z.pow_le_mono_r; lia).
    rewrite Z.pow_add_r in H by lia. lia. }
  set (m1 := round_nearest_even m' (loc_of_shr_record mrs')).
  destruct (round_nearest_even_bounds m' (loc_of_shr_record mrs')) as ((Hr1 & Hr2) & Hr3).
  fold m1 in Hr1, Hr2.
  assert (HtopM : e' = E -> m1 <= M).
  { intros ->. assert (Hle : m' <= M).
    { rewrite Hm'. apply Z.div_le_upper_bound; lia. }
    destruct (Z.eq_dec m' M) as [Heq|Hne]; [|lia].
    assert (Hmul : 2 ^ (E - ex) * (mx / 2 ^ (E - ex)) <= mx) by (apply Z.mul_div_le; lia).
    rewrite <- Hm', Heq in Hmul.
    assert (Hmxeq : mx = M * 2 ^ (E - ex)) by lia.
    assert (Hloc : loc_of_shr_record mrs' = loc_Exact).
    { apply Hloc'; [|auto]. rewrite Hmxeq. apply Z_mod_mult. }
    unfold m1. rewrite Hloc, Hr3. lia. }
  pose proof (@shr_fexp_spec m1 e' loc_Exact ltac:(lia)) as Hs2.
  destruct (shr_fexp prec emax m1 e' loc_Exact) as [mrs'' e''].
  destruct Hs2 as (He'' & Hm'' & _). rewrite fexp64_eq in He''.
  destruct (Z.eq_dec m1 (2 ^ 53)) as [Htop|Hntop].
  - (* the mantissa overflowed into a power of two *)
    assert (e' < E) by (destruct (Z.eq_dec e' E) as [HeE|]; [specialize (HtopM HeE)|]; lia).
    rewrite Htop in He'', Hm''.
    change (Zdigits2 (2 ^ 53)) with 54 in He''.
    assert (He''1 : e'' = e' + 1) by lia.
    rewrite He''1 in *. replace (e' + 1 - e') with 1 in Hm'' by lia.
    change (2 ^ 53 / 2 ^ 1) with (Zpos 4503599627370496) in Hm''.
    rewrite Hm''.
    replace (Z.leb (e' + 1) (emax - prec)) with true
      by (symmetry; apply Z.leb_le; unfold emax, prec; lia).
    right. do 2 eexists. split; [reflexivity|]. split; [lia|].
    destruct (Z.eq_dec (e' + 1) E); [right|left]; lia.
  - assert (Hm1 : m1 < 2 ^ 53) by lia.
    assert (Hd1 : Zdigits2 m1 <= 53) by (apply Zdigits2_le; lia).
    assert (He''e : e'' = e') by lia.
    rewrite He''e, Z.sub_diag, Z.div_1_r in Hm''. rewrite Hm'', He''e.
    destruct m1 as [|p|p] eqn:Em1; [left; reflexivity| |lia].
    replace (Z.leb e' (emax - prec)) with true
      by (symmetry; apply Z.leb_le; unfold emax, prec; lia).
    right. do 2 eexists. split; [reflexivity|]. split; [lia|].
    destruct (Z.eq_dec e' E) as [HeE|]; [right|left; lia].
    specialize (HtopM HeE). lia.
Qed.

Lemma shl_align_spec mx ex ez :
  let '(m, e) := shl_align mx ex ez in
  e = Z.min ex ez /\ Zpos m = Zpos mx * 2 ^ (ex - e).
Proof.
  unfold shl_align. destruct (ez - ex) as [|d|d] eqn:Hd.
  - split; [lia|]. rewrite Z.sub_diag. simpl. lia.
  - split; [lia|]. rewrite Z.sub_diag. simpl. lia.
  - split; [lia|]. replace (ex - ez) with (Zpos d) by lia.
    change (Pos.iter xO mx d) with (shift_pos d mx).
    rewrite shift_pos_correct. change (Z.pow_pos 2 d) with (2 ^ Zpos d). lia.
Qed.

(** Rounding leaves a normal double as it is. *)
Lemma binary_round_aux_normal m e :
  normalBound (Zpos m) e ->
  binary_round_aux prec emax false (Zpos m) e loc_Exact = S754_finite false m e.
Proof.
  intros ((HM1 & HM2) & HE1 & HE2).
  assert (Hd : Zdigits2 (Zpos m) = 53).
  { destruct (Zdigits2_bounds (m := Zpos m)) as (Hl & Hu); [lia|].
    assert (Zdigits2 (Zpos m) <= 53) by (apply Zdigits2_le; lia).
    destruct (Z_lt_le_dec (Zdigits2 (Zpos m)) 53) as [Hlt|]; [|lia].
    assert (2 ^ Zdigits2 (Zpos m) <= 2 ^ 52) by (apply Z.pow_le_mono_r; lia). lia. }
  assert (Hshift : forall l, l = loc_Exact ->
            let '(mrs, e') := shr_fexp prec emax (Zpos m) e l in
            e' = e /\ shr_m mrs = Zpos m /\ loc_of_shr_record mrs = loc_Exact).
  { intros l Hl. pose proof (@shr_fexp_spec (Zpos m) e l ltac:(lia)) as Hs.
    destruct (shr_fexp prec emax (Zpos m) e l) as [mrs e'].
    destruct Hs as (He' & Hm' & Hloc). rewrite fexp64_eq, Hd in He'.
    assert (Hee : e' = e) by lia. rewrite Hee, Z.sub_diag in *.
    rewrite Z.div_1_r in Hm'. repeat split; auto.
    apply Hloc; auto. apply Z.mod_1_r. }
  unfold binary_round_aux.
  pose proof (Hshift loc_Exact eq_refl) as H1.
  destruct (shr_fexp prec emax (Zpos m) e loc_Exact) as [mrs' e'].
  destruct H1 as (-> & Hm' & Hl'). rewrite Hm', Hl'.
  destruct (round_nearest_even_bounds (Zpos m) loc_Exact) as (_ & Hr). rewrite Hr.
  pose proof (Hshift loc_Exact eq_refl) as H2.
  destruct (shr_fexp prec emax (Zpos m) e loc_Exact) as [mrs'' e''].
  destruct H2 as (-> & Hm'' & _). rewrite Hm''.
  replace (Z.leb e (emax - prec)) with true
    by (symmetry; apply Z.leb_le; unfold emax, prec; lia).
  reflexivity.
Qed.

(** A natural number below [2 ^ 53] is a double: its digits, moved up. *)
Lemma ofNat_normal (n : nat) :
  0 < Z.of_nat n < 2 ^ 53 ->
  exists m e, ofNat n = S754_finite false m e
              /\ normalBound (Zpos m) e
              /\ e = Zdigits2 (Z.of_nat n) - 53
              /\ Zpos m = Z.of_nat n * 2 ^ (- e).
Proof.
  intros (H0 & H53). unfold ofNat, binary_normalize.
  destruct (Z.of_nat n) as [|p|p] eqn:En; [lia| |lia].
  unfold binary_round.
  assert (Hd : 0 < Zdigits2 (Zpos p) <= 53).
  { split; [|apply Zdigits2_le; lia].
    destruct (Zdigits2_bounds (m := Zpos p)) as (_ & Hu); [lia|].
    destruct (Z_lt_le_dec 0 (Zdigits2 (Zpos p))) as [|Hle]; [lia|].
    assert (2 ^ Zdigits2 (Zpos p) <= 2 ^ 0) by (apply Z.pow_le_mono_r; lia).
    simpl in *. lia. }
  change (Zpos (digits2_pos p)) with (Zdigits2 (Zpos p)).
  change (fexp prec emax (Zdigits2 (Zpos p) + 0)) with (fexp64 (Zdigits2 (Zpos p) + 0)).
  rewrite fexp64_eq, Z.add_0_r.
  replace (Z.max (Zdigits2 (Zpos p) - 53) (-1074)) with (Zdigits2 (Zpos p) - 53) by lia.
  pose proof (shl_align_spec p 0 (Zdigits2 (Zpos p) - 53)) as Hs.
  destruct (shl_align p 0 (Zdigits2 (Zpos p) - 53)) as [mz ez].
  destruct Hs as (Hez & Hmz).
  assert (Hez' : ez = Zdigits2 (Zpos p) - 53) by lia.
  destruct (Zdigits2_bounds (m := Zpos p)) as (Hl & Hu); [lia|].
  assert (Hnb : normalBound (Zpos mz) ez).
  { split; [|lia]. rewrite Hmz, Hez'.
    replace (0 - (Zdigits2 (Zpos p) - 53)) with (53 - Zdigits2 (Zpos p)) by lia.
    assert (Hpow : 0 < 2 ^ (53 - Zdigits2 (Zpos p))) by (apply Z.pow_pos_nonneg; lia).
    assert (E52 : 2 ^ 52 = 2 ^ (Zdigits2 (Zpos p) - 1) * 2 ^ (53 - Zdigits2 (Zpos p))).
    { rewrite <- Z.pow_add_r by lia. f_equal. lia. }
    assert (E53 : 2 ^ 53 = 2 ^ Zdigits2 (Zpos p) * 2 ^ (53 - Zdigits2 (Zpos p))).
    { rewrite <- Z.pow_add_r by lia. f_equal. lia. }
    rewrite E52, E53. split; nia. }
  exists mz, ez. split; [apply binary_round_aux_normal; exact Hnb|].
  split; [exact Hnb|]. split; [exact Hez'|].
  rewrite Hmz, Z.sub_0_l. reflexivity.
Qed.

Lemma Zdigits2_normal m : 2 ^ 52 <= m < 2 ^ 53 -> Zdigits2 m = 53.
Proof.
  intros (HM1 & HM2).
  assert (Hp52 : 2 ^ 52 = 4503599627370496) by reflexivity.
  destruct (Zdigits2_bounds (m := m)) as (Hl & Hu); [lia|].
  assert (Zdigits2 m <= 53) by (apply Zdigits2_le; lia).
  destruct (Z_lt_le_dec (Zdigits2 m) 53) as [Hlt|]; [|lia].
  assert (2 ^ Zdigits2 m <= 2 ^ 52) by (apply Z.pow_le_mono_r; lia). lia.
Qed.

Lemma unit_bound : normalBound (2 ^ 52) (-52).
Proof. unfold normalBound. change (2 ^ 52) with 4503599627370496.
  change (2 ^ 53) with 9007199254740992. lia. Qed.

(** The value of a double below a bound, on a common scale. *)
Lemma below_scaled M E m e k :
  normalBound M E -> Zpos m < 2 ^ 53 -> (e < E \/ (e = E /\ Zpos m <= M)) -> k <= e ->
  Zpos m * 2 ^ (e - k) <= M * 2 ^ (E - k).
Proof.
  intros ((HM1 & HM2) & _) Hm Hle Hk.
  assert (Hp53 : 2 ^ 53 = 2 * 2 ^ 52) by reflexivity.
  assert (Hpk : 0 < 2 ^ (e - k)) by (apply Z.pow_pos_nonneg; lia).
  destruct Hle as [Hlt|(-> & Hle)]; [|nia].
  replace (E - k) with ((E - e - 1) + 1 + (e - k)) by lia.
  rewrite !Z.pow_add_r by lia.
  assert (0 < 2 ^ (E - e - 1)) by (apply Z.pow_pos_nonneg; lia).
  change (2 ^ 1) with 2.
  set (a := 2 ^ (E - e - 1)) in *. set (p := 2 ^ (e - k)) in *.
  assert (H1 : Zpos m * p <= (2 * M) * p) by (apply Z.mul_le_mono_nonneg_r; lia).
  assert (H2 : 0 <= (M * p) * (a - 1)) by (apply Z.mul_nonneg_nonneg; nia).
  lia.
Qed.

(** A quotient of two normal doubles, the first not above the second. *)
Lemma fdiv_below m1 e1 m2 e2 :
  normalBound (Zpos m1) e1 -> normalBound (Zpos m2) e2 ->
  (e1 < e2 \/ (e1 = e2 /\ Zpos m1 <= Zpos m2)) ->
  below (2 ^ 52) (-52) (fdiv (S754_finite false m1 e1) (S754_finite false m2 e2)).
Proof.
  intros (HM1 & HE1) (HM2 & HE2) Hle.
  unfold fdiv, SFdiv, SFdiv_core_binary.
  rewrite (Zdigits2_normal HM1), (Zdigits2_normal HM2).
  change (fexp prec emax (53 + e1 - (53 + e2))) with (fexp64 (53 + e1 - (53 + e2))).
  rewrite fexp64_eq.
  set (e' := Z.min (Z.max (53 + e1 - (53 + e2) - 53) (-1074)) (e1 - e2)).
  assert (He' : e' <= -53) by (unfold e'; lia).
  assert (Hs : 0 <= e1 - e2 - e') by (unfold e'; lia).
  set (s := e1 - e2 - e') in *.
  assert (Hm' : match s with
                | Zpos _ => Z.shiftl (Zpos m1) s
                | Z0 => Zpos m1
                | Zneg _ => Z0
                end = Zpos m1 * 2 ^ s).
  { destruct s as [|p|p] eqn:Es; [simpl; lia| |lia].
    rewrite Z.shiftl_mul_pow2 by lia. reflexivity. }
  rewrite Hm'.
  pose proof (Z_div_mod (Zpos m1 * 2 ^ s) (Zpos m2) ltac:(lia)) as Hdm.
  destruct (Z.div_eucl (Zpos m1 * 2 ^ s) (Zpos m2)) as [q r].
  destruct Hdm as (Hq & Hr). simpl xorb.
  assert (Hps : 0 < 2 ^ s) by (apply Z.pow_pos_nonneg; lia).
  assert (Hpt : 0 < 2 ^ (e2 - e1)) by (apply Z.pow_pos_nonneg; lia).
  assert (Hord : Zpos m1 <= Zpos m2 * 2 ^ (e2 - e1)).
  { pose proof (@below_scaled (Zpos m2) e2 m1 e1 e1 ltac:(split; assumption)
                  ltac:(lia) Hle ltac:(lia)) as Hb.
    rewrite Z.sub_diag, Z.pow_0_r, Z.mul_1_r in Hb. exact Hb. }
  assert (Hpow : 2 ^ 52 * 2 ^ (-52 - e') = 2 ^ s * 2 ^ (e2 - e1)).
  { rewrite <- !Z.pow_add_r by lia. f_equal. unfold s. lia. }
  assert (HX : Zpos m1 * 2 ^ s <= Zpos m2 * (2 ^ s * 2 ^ (e2 - e1))).
  { rewrite (Z.mul_comm (2 ^ s)), Z.mul_assoc.
    apply Z.mul_le_mono_nonneg_r; lia. }
  assert (HX0 : 0 <= Zpos m1 * 2 ^ s) by lia.
  set (X := Zpos m1 * 2 ^ s) in *. set (T := 2 ^ s * 2 ^ (e2 - e1)) in *.
  clear Hm'. clearbody X T.
  apply binary_round_aux_below; try (apply unit_bound || lia || nia || (rewrite Hpow; nia)).
  rewrite Hpow. intros Heq.
  assert (r = 0) by nia. subst r.
  unfold new_location, new_location_even, new_location_odd.
  destruct (Z.even (Zpos m2)); reflexivity.
Qed.

(** A product of a double that is at most one by a normal double. *)
Lemma fmul_below w m e :
  below (2 ^ 52) (-52) w -> normalBound (Zpos m) e ->
  below (Zpos m) e (fmul w (S754_finite false m e)).
Proof.
  intros [->|(mw & ew & -> & Hmw & Hle)] Hn; [left; reflexivity|].
  unfold fmul, SFmul. simpl xorb.
  assert (Hew : ew <= -52) by lia.
  pose proof (@below_scaled (2 ^ 52) (-52) mw ew ew unit_bound Hmw Hle ltac:(lia)) as Hb.
  rewrite Z.sub_diag, Z.pow_0_r, Z.mul_1_r in Hb.
  assert (Hpow : 2 ^ 52 * 2 ^ (-52 - ew) = 2 ^ (- ew)).
  { rewrite <- Z.pow_add_r by lia. f_equal. lia. }
  rewrite Hpow in Hb.
  apply binary_round_aux_below; auto; try lia.
  replace (e - (ew + e)) with (- ew) by lia.
  rewrite Pos2Z.inj_mul. nia.
Qed.

Lemma below_weaken M E x : normalBound M E -> E < -52 -> below M E x -> below (2 ^ 52) (-52) x.
Proof.
  intros _ HE [->|(m & e & -> & Hm & Hle)]; [left; reflexivity|].
  right. exists m, e. split; [reflexivity|]. split; [exact Hm|]. left. lia.
Qed.

(** A sum of two doubles whose bounds add up to one. *)
Lemma fadd_below ma mb p q :
  2 ^ 52 <= ma < 2 ^ 53 -> 2 ^ 52 <= mb < 2 ^ 53 -> ma + 2 * mb = 2 ^ 54 ->
  below ma (-54) p -> below mb (-53) q ->
  below (2 ^ 52) (-52) (fadd p q).
Proof.
  intros Hma Hmb Hsum Hp Hq.
  assert (Na : normalBound ma (-54)) by (split; [exact Hma|lia]).
  assert (Nb : normalBound mb (-53)) by (split; [exact Hmb|lia]).
  pose proof (below_weaken Na ltac:(lia) Hp) as Hp1.
  pose proof (below_weaken Nb ltac:(lia) Hq) as Hq1.
  destruct Hp as [->|(mp & ep & -> & Hmp & Hlp)];
    destruct Hq as [->|(mq & eq & -> & Hmq & Hlq)];
    try (left; reflexivity); try exact Hq1; try exact Hp1.
  unfold fadd, SFadd. cbn [cond_Zopp].
  set (ez := Z.min ep eq).
  pose proof (shl_align_spec mp ep ez) as Hsp.
  pose proof (shl_align_spec mq eq ez) as Hsq.
  destruct (shl_align mp ep ez) as [ap e1], (shl_align mq eq ez) as [aq e2].
  destruct Hsp as (He1 & Hap), Hsq as (He2 & Haq). cbn [fst].
  assert (Ee1 : e1 = ez) by (unfold ez in *; lia).
  assert (Ee2 : e2 = ez) by (unfold ez in *; lia).
  rewrite Ee1 in Hap. rewrite Ee2 in Haq.
  assert (Hezp : ez <= ep) by (unfold ez; lia).
  assert (Hezq : ez <= eq) by (unfold ez; lia).
  assert (Hez54 : ez <= -54) by (unfold ez; lia).
  pose proof (@below_scaled ma (-54) mp ep ez Na Hmp Hlp Hezp) as Bp.
  pose proof (@below_scaled mb (-53) mq eq ez Nb Hmq Hlq Hezq) as Bq.
  rewrite <- Hap in Bp. rewrite <- Haq in Bq.
  change (Zpos ap + Zpos aq) with (Zpos (ap + aq)).
  unfold binary_normalize, binary_round.
  set (f := fexp prec emax (Zpos (digits2_pos (ap + aq)) + ez)).
  pose proof (shl_align_spec (ap + aq) ez f) as Hs.
  destruct (shl_align (ap + aq) ez f) as [mz ez'].
  destruct Hs as (Hez' & Hmz).
  assert (Hle' : ez' <= ez) by lia.
  apply binary_round_aux_below;
    try (apply unit_bound || lia || (intros; reflexivity)).
  rewrite Hmz, Pos2Z.inj_add.
  assert (Hsumle : Zpos ap + Zpos aq <= 2 ^ (- ez)).
  { replace (-53 - ez) with (1 + (-54 - ez)) in Bq by lia.
    rewrite Z.pow_add_r in Bq by lia. change (2 ^ 1) with 2 in Bq.
    assert (E : 2 ^ (- ez) = 2 ^ 54 * 2 ^ (-54 - ez)).
    { rewrite <- Z.pow_add_r by lia. f_equal. lia. }
    rewrite E, <- Hsum. nia. }
  assert (E2 : 2 ^ 52 * 2 ^ (-52 - ez') = 2 ^ (- ez) * 2 ^ (ez - ez')).
  { rewrite <- !Z.pow_add_r by lia. f_equal. lia. }
  rewrite E2. apply Z.mul_le_mono_nonneg_r; [|exact Hsumle].
  apply Z.pow_nonneg. lia.
Qed.

Lemma unit_eq : unity = S754_finite false 4503599627370496 (-52).
Proof. vm_compute. reflexivity. Qed.

Lemma below_nonneg M E x : below M E x -> fge x zero = true.
Proof. intros [->|(m & e & -> & _)]; reflexivity. Qed.

Lemma SFleb_finite m e m' e' :
  e < e' \/ (e = e' /\ Zpos m <= Zpos m') ->
  SFleb (S754_finite false m e) (S754_finite false m' e') = true.
Proof.
  intros Hle. unfold SFleb. cbn [SFcompare]. destruct Hle as [Hlt|(-> & Hle)].
  - apply Z.compare_lt_iff in Hlt. rewrite Hlt. reflexivity.
  - rewrite Z.compare_refl. fold (Pos.compare m m').
    destruct (Pos.compare_spec m m'); try reflexivity. lia.
Qed.

Lemma below_unit x : below (2 ^ 52) (-52) x -> fge unity x = true.
Proof.
  intros [->|(m & e & -> & _ & Hle)]; rewrite unit_eq; [reflexivity|].
  apply SFleb_finite. exact Hle.
Qed.

(** What is not below a threshold that zero reaches reaches it too. *)
Lemma below_reaches M E x t : below M E x -> fge zero t = true -> fge x t = true.
Proof.
  intros [->|(m & e & -> & _)] Ht; [exact Ht|].
  unfold fge, SFleb, zero in *.
  destruct t as [s|s| |s mt et]; try destruct s; cbn [SFcompare] in *; congruence.
Qed.

Lemma weight_04 : decimal 4 10 = S754_finite false 7205759403792794 (-54).
Proof. vm_compute. reflexivity. Qed.

Lemma weight_06 : decimal 6 10 = S754_finite false 5404319552844595 (-53).
Proof. vm_compute. reflexivity. Qed.

Lemma weight_035 : decimal 35 100 = S754_finite false 6305039478318694 (-54).
Proof. vm_compute. reflexivity. Qed.

Lemma weight_065 : decimal 65 100 = S754_finite false 5854679515581645 (-53).
Proof. vm_compute. reflexivity. Qed.

(** The weighted sum of two doubles that are at most one, for weights
    whose doubles add up to one. *)
Lemma weighted_below (ma mb : positive) w1 w2 :
  2 ^ 52 <= Zpos ma < 2 ^ 53 -> 2 ^ 52 <= Zpos mb < 2 ^ 53 ->
  Zpos ma + 2 * Zpos mb = 2 ^ 54 ->
  below (2 ^ 52) (-52) w1 -> below (2 ^ 52) (-52) w2 ->
  below (2 ^ 52) (-52)
    (fadd (fmul w1 (S754_finite false ma (-54))) (fmul w2 (S754_finite false mb (-53)))).
Proof.
  intros Ha Hb Hs H1 H2.
  apply (@fadd_below (Zpos ma) (Zpos mb)); auto.
  - apply fmul_below; auto. split; [exact Ha|lia].
  - apply fmul_below; auto. split; [exact Hb|lia].
Qed.

(** ** How many pieces a text has *)

Lemma weight_app a b : weight (a ++ b) = (weight a + weight b)%nat.
Proof. unfold weight. rewrite map_app, list_sum_app. reflexivity. Qed.

Lemma weight_cons w l : weight (w :: l) = (S (length w) + weight l)%nat.
Proof. reflexivity. Qed.

Lemma weight_filter k l :
  (S (S k) * length (filter (fun w => Nat.ltb k (length w)) l) <= weight l)%nat.
Proof.
  induction l as [|w l IH]; [simpl; lia|].
  cbn [filter]. rewrite weight_cons.
  destruct (Nat.ltb_spec k (length w)); cbn [length]; [rewrite Nat.mul_succ_r|]; lia.
Qed.

Lemma weight_splitChar sep s : weight (splitChar sep s) = S (length s).
Proof.
  induction s as [|c s IH]; [reflexivity|]. cbn [splitChar].
  pose proof (@splitChar_nonempty sep s) as Hn.
  destruct (N.eqb c sep).
  - change (weight ([] :: splitChar sep s)) with (S (weight (splitChar sep s))).
    rewrite IH. reflexivity.
  - destruct (splitChar sep s) as [|l ls]; [congruence|].
    unfold weight in *. simpl in *. lia.
Qed.

Lemma splitLoop_weight R :
  groups (source R) = [] -> (1 <= minLen (source R))%nat ->
  forall suf skip cur pre,
    (weight (texts (splitLoop R skip cur pre suf)) <= S (length cur + length suf))%nat.
Proof.
  intros Hg Hmin. induction suf as [|c suf IH]; intros skip cur pre.
  - simpl. unfold weight. simpl. rewrite length_rev. lia.
  - cbn [splitLoop]. destruct skip as [|n].
    + destruct (matchAt R pre (c :: suf)) as [y|] eqn:Hm.
      * apply matchAt_matched in Hm. destruct Hm as (w & _ & _ & _ & Hl & Hw).
        destruct (matchLen pre y) as [|n]; [lia|].
        rewrite Hg. cbn [map app texts flat_map].
        change (flat_map _ ?l) with (texts l).
        change (weight (rev cur :: ?l)) with (S (length (rev cur)) + weight l)%nat.
        specialize (IH n [] (c :: pre)). rewrite length_rev. simpl in *. lia.
      * specialize (IH 0%nat (c :: cur) (c :: pre)). simpl in *. lia.
    + specialize (IH n cur (c :: pre)). simpl. lia.
Qed.

Lemma splitText_weight R s :
  groups (source R) = [] -> (1 <= minLen (source R))%nat ->
  (weight (splitText R s) <= S (length s))%nat.
Proof.
  intros Hg Hmin. unfold splitText. fold (texts (splitRe R s)). unfold splitRe.
  destruct s as [|c s].
  - destruct (matchAt R [] []); unfold weight; simpl; lia.
  - apply (@splitLoop_weight R Hg Hmin (c :: s) 0%nat [] []).
Qed.

(** ** Replacements that do not lengthen a text *)

Lemma Rewritten_length (Q : jstring -> jstring -> Prop) s t :
  (forall m r, Q m r -> (length r <= length m)%nat) ->
  Rewritten Q s t -> (length t <= length s)%nat.
Proof.
  intros HQ H. induction H as [|c s t _ IH|m r s t Hq _ IH]; simpl; [lia|lia|].
  rewrite !length_app. apply HQ in Hq. lia.
Qed.

Lemma replaceAll_length R s :
  (1 <= minLen (source R))%nat ->
  (length (replaceAll R [Lit (js " ")] s) <= length s)%nat.
Proof.
  intros Hmin. apply (@Rewritten_length (replaces R [Lit (js " ")])); [|apply replaceAll_rewritten].
  intros m r (pre & suf & y & Hm & -> & ->).
  apply matchAt_matched in Hm. destruct Hm as (w & _ & _ & -> & _ & Hw).
  simpl. lia.
Qed.

Lemma trim_length s : (length (trim s) <= length s)%nat.
Proof.
  unfold trim. pose proof (trimEnd_length (trimStart s)). pose proof (trimStart_length s). lia.
Qed.

(** ** The similarity scores *)

Lemma Zdigits2_mono a b : 0 < a <= b -> Zdigits2 a <= Zdigits2 b.
Proof.
  intros (Ha & Hab).
  destruct (Zdigits2_bounds (m := a)) as (Hl & _); [lia|].
  destruct (Zdigits2_bounds (m := b)) as (_ & Hu); [lia|].
  assert (Hlt : 2 ^ (Zdigits2 a - 1) < 2 ^ Zdigits2 b) by lia.
  apply Z.pow_lt_mono_r_iff in Hlt; [lia|lia|apply Zdigits2_nonneg].
Qed.

(** The quotient of two sizes, the first not above the second. *)
Lemma ratio_atMostOne (i u : nat) :
  (i <= u)%nat -> (1 <= u)%nat -> Z.of_nat u < 2 ^ 53 ->
  atMostOne (fdiv (ofNat i) (ofNat u)).
Proof.
  intros Hiu Hu Hsize.
  destruct (@ofNat_normal u ltac:(lia)) as (mu & eu & Eu & Nu & Heu & Hmu).
  destruct i as [|i]; [rewrite Eu; left; reflexivity|].
  destruct (@ofNat_normal (S i) ltac:(lia)) as (mi & ei & Ei & Ni & Hei & Hmi).
  rewrite Ei, Eu. apply fdiv_below; auto.
  pose proof (@Zdigits2_mono (Z.of_nat (S i)) (Z.of_nat u) ltac:(lia)) as Hd.
  destruct (Z.eq_dec ei eu) as [Heq|Hne]; [right|left; lia].
  split; [exact Heq|]. rewrite Hmi, Hmu, Heq.
  apply Z.mul_le_mono_nonneg_r; [apply Z.pow_nonneg|]; lia.
Qed.

Lemma jaccard_atMostOne set1 set2 :
  Z.of_nat (length set1 + length set2) < 2 ^ 53 -> atMostOne (jaccard set1 set2).
Proof.
  intros Hsize. unfold jaccard.
  destruct (Nat.eqb_spec (length set1) 0) as [|H1]; [left; reflexivity|].
  destruct (Nat.eqb_spec (length set2) 0) as [|H2]; [left; reflexivity|].
  cbn [orb]. apply ratio_atMostOne.
  - apply newSet_incl. intros w Hw. apply filter_In in Hw.
    apply in_or_app. left. tauto.
  - apply newSet_nonempty. destruct set1; [simpl in H1; lia|discriminate].
  - pose proof (newSet_length (set1 ++ set2)) as Hl. rewrite length_app in Hl. lia.
Qed.

Lemma ngram_arith g w l len n :
  (2 <= n -> g <= S w - n -> 2 * w <= S l -> l <= len -> 2 * g <= len)%nat.
Proof. lia. Qed.

Lemma sizes_arith (k a b la lb : nat) :
  (2 <= k)%nat -> (k * a <= S la)%nat -> (k * b <= S lb)%nat ->
  (k = 2%nat -> (k * a <= la)%nat /\ (k * b <= lb)%nat) ->
  Z.of_nat la < 2 ^ 53 -> Z.of_nat lb < 2 ^ 53 ->
  Z.of_nat (a + b) < 2 ^ 53.
Proof. change (2 ^ 53) with 9007199254740992. nia. Qed.

Section Scores.

Variable toLowerCase : jstring -> jstring.

Lemma similarityWords_count text :
  (4 * length (similarityWords toLowerCase text) <= S (length (toLowerCase text)))%nat.
Proof.
  unfold similarityWords.
  pose proof (weight_filter 2
    (splitText reWs (replaceAll rePunct [Lit (js " ")] (toLowerCase text)))) as Hf.
  pose proof (@splitText_weight reWs
    (replaceAll rePunct [Lit (js " ")] (toLowerCase text)) eq_refl ltac:(simpl; lia)) as Hs.
  pose proof (@replaceAll_length rePunct (toLowerCase text) ltac:(simpl; lia)) as Hr.
  eapply Nat.le_trans; [exact Hf|]. eapply Nat.le_trans; [exact Hs|].
  apply le_n_S. exact Hr.
Qed.

Lemma getNGrams_count n text :
  (2 <= n)%nat -> (2 * length (getNGrams toLowerCase n text) <= length (toLowerCase text))%nat.
Proof.
  intros Hn. unfold getNGrams.
  set (normalized := trim _).
  assert (Hlen : (length normalized <= length (toLowerCase text))%nat).
  { unfold normalized.
    pose proof (trim_length (replaceAll reWs [Lit (js " ")]
                  (replaceAll rePunct [Lit (js " ")] (toLowerCase text)))).
    pose proof (@replaceAll_length reWs
                  (replaceAll rePunct [Lit (js " ")] (toLowerCase text)) ltac:(simpl; lia)).
    pose proof (@replaceAll_length rePunct (toLowerCase text) ltac:(simpl; lia)).
    eapply Nat.le_trans; [eassumption|]. eapply Nat.le_trans; eassumption. }
  set (words := filter (fun w : jstring => Nat.ltb 0 (length w)) (splitChar SP normalized)).
  pose proof (weight_filter 0 (splitChar SP normalized)) as Hw.
  rewrite weight_splitChar in Hw. fold words in Hw.
  pose proof (newSet_length
    (map (fun i => join [SP] (firstn n (skipn i words))) (seq 0 (S (length words) - n)))) as Hs.
  rewrite length_map, length_seq in Hs.
  eapply (@ngram_arith _ (length words) (length normalized)); eassumption.
Qed.

Lemma calculateTextSimilarity_atMostOne text1 text2 :
  isString (toLowerCase text1) -> isString (toLowerCase text2) ->
  atMostOne (calculateTextSimilarity toLowerCase text1 text2).
Proof.
  unfold isString. intros H1 H2. unfold calculateTextSimilarity.
  apply jaccard_atMostOne.
  pose proof (similarityWords_count text1). pose proof (similarityWords_count text2).
  assert (Hset : forall l : list jstring, (4 * length (newSet l) <= 4 * length l)%nat).
  { intros l. apply Nat.mul_le_mono_l, newSet_length. }
  apply (@sizes_arith 4 _ _ (length (toLowerCase text1)) (length (toLowerCase text2)));
    auto; try lia; (eapply Nat.le_trans; [apply Hset|assumption]).
Qed.

Lemma calculateNGramSimilarity_atMostOne text1 text2 n :
  (2 <= n)%nat -> isString (toLowerCase text1) -> isString (toLowerCase text2) ->
  atMostOne (calculateNGramSimilarity toLowerCase text1 text2 n).
Proof.
  unfold isString. intros Hn H1 H2. unfold calculateNGramSimilarity.
  apply jaccard_atMostOne.
  pose proof (getNGrams_count text1 Hn). pose proof (getNGrams_count text2 Hn).
  apply (@sizes_arith 2 _ _ (length (toLowerCase text1)) (length (toLowerCase text2)));
    auto; apply Nat.le_le_succ_r; assumption.
Qed.

End Scores.

Lemma fold_left_invariant {A B : Type} (P : A -> Prop) (f : A -> B -> A) :
  forall l a, P a -> (forall a b, In b l -> P a -> P (f a b)) -> P (fold_left f l a).
Proof.
  induction l as [|b l IH]; intros a Ha Hf; simpl; [exact Ha|].
  apply IH; [apply Hf; simpl; auto|]. intros a' b' Hb. apply Hf. simpl. auto.
Qed.

Lemma atMostOne_interval x : atMostOne x -> inUnitInterval x.
Proof. intros H. split; [eapply below_nonneg; exact H|apply below_unit; exact H]. Qed.

Section Matching.

Variable toLowerCase : jstring -> jstring.
Variable clauseText : jstring.
Variable repositoryClauses : list Repo.Clause.
(** The best match of [matchClauseFromRepository] carries the score of a
    clause of the repository that reaches the threshold. *)
Lemma matchClauseFromRepository_score threshold m :
  matchClauseFromRepository toLowerCase clauseText repositoryClauses threshold = Some m ->
  exists c, In c repositoryClauses
            /\ score m = combinedScore toLowerCase clauseText c
            /\ fge (score m) threshold = true.
Proof.
  unfold matchClauseFromRepository.
  assert (H : forall best,
    (forall b, best = Some b -> exists c, In c repositoryClauses
        /\ score b = combinedScore toLowerCase clauseText c
        /\ fge (score b) threshold = true) ->
    forall b, fold_left (matchStep toLowerCase clauseText threshold)
                        repositoryClauses best = Some b ->
    exists c, In c repositoryClauses
        /\ score b = combinedScore toLowerCase clauseText c
        /\ fge (score b) threshold = true).
  { intros best Hbest.
    apply (@fold_left_invariant _ _ (fun best => forall b, best = Some b ->
        exists c, In c repositoryClauses
          /\ score b = combinedScore toLowerCase clauseText c
          /\ fge (score b) threshold = true)); [exact Hbest|].
    intros a c Hc Ha b. unfold matchStep.
    destruct (Nat.ltb _ 50); [apply Ha|].
    destruct (isGenericType _); [apply Ha|].
    fold (combinedScore toLowerCase clauseText c).
    destruct (fge (combinedScore toLowerCase clauseText c) threshold) eqn:Hge;
      [|apply Ha].
    cbn [andb]. destruct (match a with None => true | Some b0 => _ end); [|apply Ha].
    intros E. inversion E; subst b. exists c. cbn [score]. auto. }
  destruct repositoryClauses as [|c0 l]; [discriminate|].
  apply H. discriminate.
Qed.

Lemma matchClauseFromRepository_none threshold :
  (forall c, In c repositoryClauses ->
             fge (combinedScore toLowerCase clauseText c) threshold = false) ->
  matchClauseFromRepository toLowerCase clauseText repositoryClauses threshold = None.
Proof.
  intros Hlow. unfold matchClauseFromRepository.
  assert (H : fold_left (matchStep toLowerCase clauseText threshold)
                        repositoryClauses None = None).
  { apply (@fold_left_invariant _ _ (fun best => best = None)); [reflexivity|].
    intros a c Hc ->. unfold matchStep.
    destruct (Nat.ltb _ 50); [reflexivity|].
    destruct (isGenericType _); [reflexivity|].
    fold (combinedScore toLowerCase clauseText c). rewrite (Hlow c Hc). reflexivity. }
  destruct repositoryClauses; [reflexivity|exact H].
Qed.

(** The groups of [groupClausesByType] are not empty and hold clauses of
    the repository. *)
Lemma groupInsert_members (P : Repo.Clause -> Prop) c : P c ->
  forall grouped,
    Forall (fun g => snd g <> [] /\ Forall P (snd g)) grouped ->
    Forall (fun g => snd g <> [] /\ Forall P (snd g)) (groupInsert c grouped).
Proof.
  intros Hc. induction grouped as [|(t, existing) grouped IH]; intros Hg; simpl.
  - constructor; [|constructor]. simpl. split; [discriminate|]. constructor; auto.
  - inversion Hg as [|? ? (Hne & Hall) Hrest]; subst. simpl in Hne, Hall.
    destruct (jstring_eqb t (Repo.clause_type c)).
    + constructor; [|exact Hrest]. simpl. split.
      * destruct existing; discriminate.
      * apply Forall_app. split; [exact Hall|]. constructor; auto.
    + constructor; [simpl; auto|]. apply IH. exact Hrest.
Qed.

Lemma groupClausesByType_members :
  Forall (fun g => snd g <> [] /\ Forall (fun c => In c repositoryClauses) (snd g))
         (groupClausesByType repositoryClauses).
Proof.
  unfold groupClausesByType.
  apply (@fold_left_invariant _ _
    (Forall (fun g => snd g <> [] /\ Forall (fun c => In c repositoryClauses) (snd g))));
    [constructor|].
  intros grouped c Hc Hg. apply groupInsert_members; assumption.
Qed.

(** The highest score of a group is zero or the score of one of its clauses. *)
Lemma typeScoreStep_max clauses :
  let best := fold_left (typeScoreStep toLowerCase clauseText) clauses (zero, []) in
  fst best = zero
  \/ exists c, In c clauses /\ fst best = typeScore toLowerCase clauseText c.
Proof.
  apply (@fold_left_invariant _ _ (fun acc : number * jstring =>
    fst acc = zero
    \/ exists c, In c clauses /\ fst acc = typeScore toLowerCase clauseText c));
    [left; reflexivity|].
  intros acc c Hc Hacc. unfold typeScoreStep.
  destruct (Nat.ltb _ 30); [exact Hacc|].
  fold (typeScore toLowerCase clauseText c).
  destruct (fgt _ (fst acc)); [|exact Hacc].
  right. exists c. split; [exact Hc|reflexivity].
Qed.

Lemma findBestClauseTypeMatch_score threshold m :
  findBestClauseTypeMatch toLowerCase clauseText repositoryClauses threshold = Some m ->
  fge (score m) threshold = true
  /\ (score m = zero
      \/ exists c, In c repositoryClauses
                   /\ score m = typeScore toLowerCase clauseText c).
Proof.
  unfold findBestClauseTypeMatch. revert m.
  pose proof groupClausesByType_members as Hm. rewrite Forall_forall in Hm.
  apply (@fold_left_invariant _ _ (fun best => forall m, best = Some m ->
    fge (score m) threshold = true
    /\ (score m = zero
        \/ exists c, In c repositoryClauses
                     /\ score m = typeScore toLowerCase clauseText c))); [discriminate|].
  intros best (clauseType, clauses) Hin Hbest m. unfold typeMatchStep.
  destruct (isGenericType clauseType); [apply Hbest|].
  pose proof (typeScoreStep_max clauses) as Hmax. cbv zeta in Hmax.
  destruct (fold_left (typeScoreStep toLowerCase clauseText) clauses (zero, []))
    as [maxScore bestClauseId]. cbn [fst] in Hmax.
  destruct (fge maxScore threshold) eqn:Hge; [|apply Hbest].
  cbn [andb]. destruct (match best with None => true | Some b => _ end); [|apply Hbest].
  intros E. inversion E; subst m. cbn [score]. split; [exact Hge|].
  destruct Hmax as [Hz|(c & Hc & Hs)]; [left; exact Hz|right].
  exists c. split; [|exact Hs].
  destruct (Hm _ Hin) as (_ & Hall). rewrite Forall_forall in Hall. apply Hall. exact Hc.
Qed.

Hypothesis text_string : isString (toLowerCase clauseText).
Hypothesis repository_strings :
  forall c, In c repositoryClauses -> isString (toLowerCase (Repo.clause_text c)).

Lemma combinedScore_atMostOne c :
  In c repositoryClauses -> atMostOne (combinedScore toLowerCase clauseText c).
Proof.
  intros Hc. unfold combinedScore. rewrite weight_04, weight_06.
  apply weighted_below;
    try (change (2 ^ 52) with 4503599627370496; change (2 ^ 53) with 9007199254740992;
         change (2 ^ 54) with 18014398509481984; lia).
  - apply calculateTextSimilarity_atMostOne; auto.
  - apply calculateNGramSimilarity_atMostOne; auto.
Qed.

Lemma typeScore_atMostOne c :
  In c repositoryClauses -> atMostOne (typeScore toLowerCase clauseText c).
Proof.
  intros Hc. unfold typeScore. rewrite weight_035, weight_065.
  apply weighted_below;
    try (change (2 ^ 52) with 4503599627370496; change (2 ^ 53) with 9007199254740992;
         change (2 ^ 54) with 18014398509481984; lia).
  - apply calculateTextSimilarity_atMostOne; auto.
  - apply calculateNGramSimilarity_atMostOne; auto.
Qed.

Lemma findBestClauseTypeMatch_none threshold :
  (forall c, In c repositoryClauses ->
             fge (typeScore toLowerCase clauseText c) threshold = false) ->
  findBestClauseTypeMatch toLowerCase clauseText repositoryClauses threshold = None.
Proof.
  intros Hlow. unfold findBestClauseTypeMatch.
  pose proof groupClausesByType_members as Hm. rewrite Forall_forall in Hm.
  apply (@fold_left_invariant _ _ (fun best => best = None)); [reflexivity|].
  intros best (clauseType, clauses) Hin ->. unfold typeMatchStep.
  destruct (isGenericType clauseType); [reflexivity|].
  pose proof (typeScoreStep_max clauses) as Hmax. cbv zeta in Hmax.
  destruct (fold_left (typeScoreStep toLowerCase clauseText) clauses (zero, []))
    as [maxScore bestClauseId]. cbn [fst] in Hmax.
  destruct (Hm _ Hin) as (Hne & Hall). rewrite Forall_forall in Hall. simpl in Hne, Hall.
  destruct (fge maxScore threshold) eqn:Hge; [exfalso|reflexivity].
  destruct Hmax as [Hz|(c & Hc & Hs)].
  - destruct clauses as [|c clauses]; [congruence|].
    assert (Hc : In c repositoryClauses) by (apply Hall; left; reflexivity).
    rewrite Hz in Hge.
    pose proof (typeScore_atMostOne c Hc) as Hb. unfold atMostOne in Hb.
    pose proof (@below_reaches _ _ _ _ Hb Hge) as Hr.
    rewrite (Hlow c Hc) in Hr. discriminate.
  - rewrite Hs, (Hlow c (Hall c Hc)) in Hge. discriminate.
Qed.

(** C6. Whatever the candidate text, the repository and the threshold: a
    match returned by [matchClauseFromRepository] or by
    [findBestClauseTypeMatch] has a score in [0, 1], and either function
    returns [null] when the combined score of no entry of the repository
    reaches the threshold. The texts are String values: lowercased, they have
    fewer than [2 ^ 53] elements, so that the sizes of the sets are doubles. *)
Theorem similarity_score_bounds threshold :
  (forall m,
     matchClauseFromRepository toLowerCase clauseText repositoryClauses threshold = Some m ->
     inUnitInterval (score m))
  /\ (forall m,
        findBestClauseTypeMatch toLowerCase clauseText repositoryClauses threshold = Some m ->
        inUnitInterval (score m))
  /\ ((forall c, In c repositoryClauses ->
                 fge (combinedScore toLowerCase clauseText c) threshold = false) ->
      matchClauseFromRepository toLowerCase clauseText repositoryClauses threshold = None)
  /\ ((forall c, In c repositoryClauses ->
                 fge (typeScore toLowerCase clauseText c) threshold = false) ->
      findBestClauseTypeMatch toLowerCase clauseText repositoryClauses threshold = None).
Proof.
  assert (Hm : forall m,
    matchClauseFromRepository toLowerCase clauseText repositoryClauses threshold = Some m ->
    atMostOne (score m)).
  { intros m H. destruct (matchClauseFromRepository_score _ H) as (c & Hc & -> & _).
    apply combinedScore_atMostOne. exact Hc. }
  assert (Hf : forall m,
    findBestClauseTypeMatch toLowerCase clauseText repositoryClauses threshold = Some m ->
    atMostOne (score m)).
  { intros m H. destruct (findBestClauseTypeMatch_score _ H) as (_ & [->|(c & Hc & ->)]).
    - left. reflexivity.
    - apply typeScore_atMostOne. exact Hc. }
  split; [intros m H; apply atMostOne_interval, Hm, H|].
  split; [intros m H; apply atMostOne_interval, Hf, H|].
  split; [apply matchClauseFromRepository_none|apply findBestClauseTypeMatch_none].
Qed.

End Matching.

Lemma similarity_score_bounds_witness :
  isString (asciiToLowerCase paymentText)
  /\ (forall c, In c paymentRepository ->
                isString (asciiToLowerCase (Repo.clause_text c)))
  /\ (exists m,
        matchClauseFromRepository asciiToLowerCase paymentText paymentRepository
          (decimal 15 100) = Some m
        /\ inUnitInterval (score m))
  /\ (exists m,
        findBestClauseTypeMatch asciiToLowerCase paymentText paymentRepository
          (decimal 12 100) = Some m
        /\ inUnitInterval (score m))
  /\ matchClauseFromRepository asciiToLowerCase paymentText paymentRepository (ofNat 2) = None
  /\ findBestClauseTypeMatch asciiToLowerCase paymentText paymentRepository (ofNat 2) = None.
Proof.
  assert (H1 : isString (asciiToLowerCase paymentText)) by (vm_compute; reflexivity).
  assert (H2 : forall c, In c paymentRepository ->
                         isString (asciiToLowerCase (Repo.clause_text c)))
    by (intros c [<-|[]]; vm_compute; reflexivity).
  split; [exact H1|]. split; [exact H2|].
  split.
  { assert (E : exists m,
        matchClauseFromRepository asciiToLowerCase paymentText paymentRepository
          (decimal 15 100) = Some m) by (vm_compute; eexists; reflexivity).
    destruct E as (m & E). exists m. split; [exact E|].
    exact (proj1 (similarity_score_bounds asciiToLowerCase paymentText paymentRepository
                    H1 H2 (decimal 15 100)) m E). }
  split.
  { assert (E : exists m,
        findBestClauseTypeMatch asciiToLowerCase paymentText paymentRepository
          (decimal 12 100) = Some m) by (vm_compute; eexists; reflexivity).
    destruct E as (m & E). exists m. split; [exact E|].
    exact (proj1 (proj2 (similarity_score_bounds asciiToLowerCase paymentText
                           paymentRepository H1 H2 (decimal 12 100))) m E). }
  split.
  - apply (proj1 (proj2 (proj2 (similarity_score_bounds asciiToLowerCase paymentText
                                   paymentRepository H1 H2 (ofNat 2))))).
    intros c [<-|[]]. vm_compute. reflexivity.
  - apply (proj2 (proj2 (proj2 (similarity_score_bounds asciiToLowerCase paymentText
                                   paymentRepository H1 H2 (ofNat 2))))).
    intros c [<-|[]]. vm_compute. reflexivity.
Defined.

(** ** The normalizer, further *)

Lemma solid_join parts : solid (join [LF] parts) = concat (map solid parts).
Proof.
  induction parts as [|p parts IH]; [reflexivity|].
  destruct parts as [|q parts].
  - simpl. rewrite app_nil_r. reflexivity.
  - rewrite join_cons, !solid_app, IH. reflexivity.
Qed.

Lemma solid_lineTrim s : solid (lineTrim s) = solid s.
Proof.
  unfold lineTrim. rewrite solid_join, map_map.
  rewrite <- (join_splitChar LF s) at 2. rewrite solid_join.
  f_equal. apply map_ext. intros p. apply solid_trim.
Qed.

Lemma solid_collapseFrom : forall s b, solid (collapseFrom b s) = solid s.
Proof.
  induction s as [|c s IH]; intros b; [reflexivity|].
  cbn [collapseFrom]. destruct (N.eqb_spec c SP) as [->|Hne].
  - destruct b; cbn [solid filter]; simpl; apply IH.
  - cbn [solid filter]. fold (solid (collapseFrom false s)) (solid s).
    rewrite IH. reflexivity.
Qed.

Lemma solid_map_normalizeChar s : solid (map normalizeChar s) = solid s.
Proof.
  induction s as [|c s IH]; [reflexivity|].
  cbn [map solid filter]. fold (solid (map normalizeChar s)) (solid s).
  rewrite normalizeChar_white, IH.
  destruct (isWhiteSpace c) eqn:Hc; simpl; [reflexivity|].
  destruct (normalizeChar_cases c) as [(_ & Hw)|(E & _)]; [congruence|].
  rewrite E. reflexivity.
Qed.

(** X1. [normalizeText] touches white space only: the characters that are
    not white space come out the same and in the same order. *)
Theorem normalizeText_keeps_solid_characters s :
  solid (normalizeText s) = solid s.
Proof.
  rewrite normalizeText_stages, solid_trim, solid_lineTrim.
  unfold collapseSpaces. rewrite solid_collapseFrom. apply solid_map_normalizeChar.
Qed.

(** X2. [normalizeText] returns the empty string exactly for the texts made
    of white space only, the empty text among them. *)
Theorem normalizeText_empty_iff s :
  normalizeText s = [] <-> allWhite s = true.
Proof.
  split.
  - intros H. rewrite <- allWhite_normalizeText, H. reflexivity.
  - intros H. rewrite normalizeText_stages. apply trim_white.
    rewrite allWhite_lineTrim. unfold collapseSpaces.
    rewrite allWhite_collapseFrom, allWhite_map_normalizeChar. exact H.
Qed.

Lemma noDouble_spaces s : noDouble s = true -> ~ within s [SP; SP].
Proof.
  intros H Hw. apply (noDouble_within Hw) in H. discriminate H.
Qed.

Lemma fixed_white c :
  normalizeChar c = c -> isWhiteSpace c = true ->
  (c = SP \/ c = LF \/ c = CR \/ c = 8232 \/ c = 8233)%N.
Proof.
  intros Hf Hw. destruct (normalizeChar_cases c) as [(E & _)|(_ & [->|Hc])].
  - left. congruence.
  - left. reflexivity.
  - unfold isWhiteSpace in Hw. unfold SP, LF, CR.
    repeat match type of Hw with
           | (_ || _)%bool = true => apply orb_true_iff in Hw; destruct Hw as [Hw|Hw]
           | (_ && _)%bool = true => apply andb_true_iff in Hw; destruct Hw as [Hw ?]
           end;
    repeat match goal with
           | H : (_ <=? _)%N = true |- _ => apply N.leb_le in H
           | H : (_ =? _)%N = true |- _ => apply N.eqb_eq in H
           end; lia.
Qed.

(** A text in the normal form of the normalizer is left as it is. *)
Lemma normal_form_fixed o :
  fixedChars o -> noDouble o = true -> linesTrimmed o -> trim o = o ->
  normalizeText o = o.
Proof.
  intros Hf Hd Hl Ht. rewrite normalizeText_stages, (map_fixedChars Hf).
  unfold collapseSpaces. rewrite (proj1 (collapseFrom_id _ Hd)), (lineTrim_id Hl).
  exact Ht.
Qed.

Lemma normalizeText_trimmed s : trim (normalizeText s) = normalizeText s.
Proof. rewrite normalizeText_stages. apply trim_idem. Qed.

(** X3. The text that [normalizeText] returns has no two spaces in a row,
    every line of it is trimmed, the text itself is trimmed, and the only
    white space left in it is the space, the line feed, the carriage return
    and the two Unicode line separators. *)
Theorem normalizeText_normal_form s :
  ~ within (normalizeText s) [SP; SP]
  /\ Forall (fun line => trim line = line) (splitChar LF (normalizeText s))
  /\ trim (normalizeText s) = normalizeText s
  /\ Forall (fun c => isWhiteSpace c = true ->
                      (c = SP \/ c = LF \/ c = CR \/ c = 8232 \/ c = 8233)%N)
            (normalizeText s).
Proof.
  destruct (normalizeText_normal s) as (Hf & Hd & Hl).
  split; [apply noDouble_spaces; exact Hd|].
  split; [exact Hl|]. split; [apply normalizeText_trimmed|].
  unfold fixedChars in Hf. rewrite Forall_forall in *. intros c Hc.
  apply fixed_white. apply Hf. exact Hc.
Qed.

(** ** What the extraction pushes *)

Section Output.

Variable toLowerCase : jstring -> jstring.
Variable functionText : jstring -> FunctionText.

(** The score that [classifyBlock] returns is zero, or that of the best
    match of a repository that is not empty. *)
Lemma classifyBlock_score repo block t matched s :
  classifyBlock toLowerCase repo block = (t, matched, s) ->
  (matched = false /\ s = zero)
  \/ (matched = true /\ repo <> []
      /\ exists m, findBestClauseTypeMatch toLowerCase block repo (decimal 12 100) = Some m
                   /\ s = score m).
Proof.
  unfold classifyBlock.
  destruct (Nat.ltb 0 (length repo)) eqn:Hrepo.
  - destruct (findBestClauseTypeMatch toLowerCase block repo (decimal 12 100))
      as [m|] eqn:Hm.
    + match goal with |- context [if ?c then (Some (clauseType m), true, score m) else _] =>
        destruct c end; intros E; inversion E; subst; auto.
      right. split; [reflexivity|]. split; [|exists m; auto].
      intros ->. discriminate Hrepo.
    + intros E; inversion E; subst; auto.
  - intros E; inversion E; subst; auto.
Qed.

(** What is pushed for a block: the sub-clauses of the expander, or one main
    clause with the type, the match flag and the score of [classifyBlock]. *)
Lemma clausesOfBlock_cases repo trimmedBlock pushed :
  clausesOfBlock toLowerCase repo trimmedBlock = Some pushed ->
  exists cleanedBlock,
    (exists no, pushed = extractSubclausesFromMiscellaneous toLowerCase no cleanedBlock repo)
    \/ (exists t matched s,
          classifyBlock toLowerCase repo cleanedBlock = (Some t, matched, s)
          /\ t <> []
          /\ pushed = [mainClauseOf t (fst (parseClauseNumber cleanedBlock))
                                    (snd (parseClauseNumber cleanedBlock)) matched s]).
Proof.
  unfold clausesOfBlock.
  set (cleanedBlock := trim (replaceAll pageNoiseRegex [] trimmedBlock)).
  destruct (Nat.ltb (length cleanedBlock) 20); [discriminate|].
  destruct (parseClauseNumber cleanedBlock) as [no body] eqn:Hparse.
  destruct (classifyBlock toLowerCase repo cleanedBlock) as [[detectedType fromRepo] sim]
    eqn:Hclass.
  destruct detectedType as [[|c ty]|]; try discriminate.
  intros H. exists cleanedBlock.
  assert (Hmain : exists t matched s,
    classifyBlock toLowerCase repo cleanedBlock = (Some t, matched, s) /\ t <> []
    /\ [mainClauseOf (c :: ty) no body fromRepo sim]
       = [mainClauseOf t (fst (parseClauseNumber cleanedBlock))
                         (snd (parseClauseNumber cleanedBlock)) matched s]).
  { exists (c :: ty), fromRepo, sim. rewrite Hparse. repeat split; auto. discriminate. }
  destruct (isMiscellaneousOrGeneralSection toLowerCase no).
  - match type of H with context [Nat.ltb 0 (length ?l)] =>
      destruct (Nat.ltb 0 (length l)) end; inversion H; subst.
    + left. exists no. reflexivity.
    + right. exact Hmain.
  - inversion H; subst. right. exact Hmain.
Qed.

(** A property of the sub-clauses of the expander and of the main clauses
    holds for every clause that the extraction returns. *)
Lemma extraction_Forall (P : ExtractedClause -> Prop) repo :
  (forall no block,
     Forall P (extractSubclausesFromMiscellaneous toLowerCase no block repo)) ->
  (forall block t matched s,
     classifyBlock toLowerCase repo block = (Some t, matched, s) -> t <> [] ->
     P (mainClauseOf t (fst (parseClauseNumber block)) (snd (parseClauseNumber block))
                     matched s)) ->
  forall documentText userSchema clauses,
    extractClausesRuleBased toLowerCase functionText documentText repo userSchema
    = Returned clauses ->
    Forall P clauses.
Proof.
  intros Hsub Hmain documentText userSchema clauses H.
  destruct (extraction_clauses _ _ _ _ _ H) as (blocks & _ & ->).
  assert (Hfold : forall bs st, Forall P (fst st) ->
            Forall P (fst (fold_left (blockStep toLowerCase repo) bs st))).
  { induction bs as [|b bs IH]; intros st Hst; simpl; [exact Hst|].
    apply IH. destruct st as [clauses seen]. unfold blockStep.
    destruct (Nat.ltb (length (trim b)) 30); [exact Hst|].
    destruct (has seen (trim b)); [exact Hst|].
    destruct (clausesOfBlock toLowerCase repo (trim b)) as [pushed|] eqn:E; [|exact Hst].
    simpl. apply Forall_app. split; [exact Hst|].
    apply clausesOfBlock_cases in E.
    destruct E as (cleaned & [(no & ->)|(t & matched & s & Hc & Ht & ->)]).
    - apply Hsub.
    - constructor; [|constructor]. apply Hmain; assumption. }
  apply (Hfold blocks ([], [])). constructor.
Qed.

Lemma expander_Forall (P : ExtractedClause -> Prop) repo :
  (forall no sub, Forall P (subclauseOf toLowerCase no repo sub)) ->
  forall no block,
    Forall P (extractSubclausesFromMiscellaneous toLowerCase no block repo).
Proof.
  intros H no block. unfold extractSubclausesFromMiscellaneous.
  apply Forall_flat_map, Forall_forall. intros sub _. apply H.
Qed.

(** The one clause that [subclauseOf] can push. *)
Lemma subclauseOf_cases no repo sub c :
  In c (subclauseOf toLowerCase no repo sub) ->
  exists t text,
    c = {| clause_type := t; clause_no := no; clause_text := normalizeText text;
           preferred_position := js "Standard legal position for " ++ t;
           party_role := js "Neutral"; complexity := 5; balance := 0;
           matched_from_repository := false; similarity_score := zero |}.
Proof.
  unfold subclauseOf.
  destruct (Nat.ltb (length (trim sub)) 30); [intros []|].
  match goal with |- In _ (match ?t with _ => _ end) -> _ => destruct t as [[|x ty]|] end.
  - intros [].
  - intros [<-|[]]. eexists. eexists. reflexivity.
  - intros [].
Qed.

(** X4. Every clause of a list that the extraction returns has the party
    role "Neutral", complexity 5 and balance 0, and its preferred position is
    "Standard legal position for " followed by its type. The extraction
    returns a list for every schema whose identifier is no property name of
    [Object.prototype]. *)
Theorem extracted_clauses_fixed_fields documentText repo userSchema :
  (forall clauses,
     extractClausesRuleBased toLowerCase functionText documentText repo userSchema
     = Returned clauses ->
     Forall (fun c => party_role c = js "Neutral" /\ complexity c = 5 /\ balance c = 0
                      /\ preferred_position c
                         = js "Standard legal position for " ++ clause_type c)
            clauses)
  /\ (plainSchema userSchema ->
      exists clauses,
        extractClausesRuleBased toLowerCase functionText documentText repo userSchema
        = Returned clauses).
Proof.
  split; [|apply extraction_returns].
  apply extraction_Forall.
  - apply expander_Forall. intros no sub. apply Forall_forall. intros c Hc.
    apply subclauseOf_cases in Hc. destruct Hc as (t & text & ->). simpl. auto.
  - intros. simpl. auto.
Qed.

(** X5. With an empty repository no clause of a list that the extraction
    returns is marked as matched from the repository, and every similarity
    score is 0. The extraction returns a list for every schema whose
    identifier is no property name of [Object.prototype]. *)
Theorem extraction_without_repository documentText userSchema :
  (forall clauses,
     extractClausesRuleBased toLowerCase functionText documentText [] userSchema
     = Returned clauses ->
     Forall (fun c => matched_from_repository c = false /\ similarity_score c = zero)
            clauses)
  /\ (plainSchema userSchema ->
      exists clauses,
        extractClausesRuleBased toLowerCase functionText documentText [] userSchema
        = Returned clauses).
Proof.
  split; [|apply extraction_returns].
  apply extraction_Forall.
  - apply expander_Forall. intros no sub. apply Forall_forall. intros c Hc.
    apply subclauseOf_cases in Hc. destruct Hc as (t & text & ->). simpl. auto.
  - intros block t matched s Hc _. apply classifyBlock_score in Hc.
    destruct Hc as [(-> & ->)|(_ & Hne & _)]; [simpl; auto|congruence].
Qed.

(** X6. A clause of a list that the extraction returns is either not marked
    as matched, with similarity score 0, or marked as matched, and then the
    repository is not empty and the score reaches the threshold 0.12 of
    [findBestClauseTypeMatch]. The extraction returns a list for every schema
    whose identifier is no property name of [Object.prototype]. *)
Theorem extracted_scores documentText repo userSchema :
  (forall clauses,
     extractClausesRuleBased toLowerCase functionText documentText repo userSchema
     = Returned clauses ->
     Forall (fun c =>
               (matched_from_repository c = false /\ similarity_score c = zero)
               \/ (matched_from_repository c = true /\ repo <> []
                   /\ fge (similarity_score c) (decimal 12 100) = true))
            clauses)
  /\ (plainSchema userSchema ->
      exists clauses,
        extractClausesRuleBased toLowerCase functionText documentText repo userSchema
        = Returned clauses).
Proof.
  split; [|apply extraction_returns].
  apply extraction_Forall.
  - apply expander_Forall. intros no sub. apply Forall_forall. intros c Hc.
    apply subclauseOf_cases in Hc. destruct Hc as (t & text & ->). simpl. auto.
  - intros block t matched s Hc _. apply classifyBlock_score in Hc.
    destruct Hc as [(-> & ->)|(-> & Hne & m & Hm & ->)]; [simpl; auto|].
    right. simpl. repeat split; auto.
    apply (findBestClauseTypeMatch_score _ _ _ _ Hm).
Qed.

(** X7. The page that calls the extraction normalizes every clause text of
    the returned list again with its own [normalizeClauseText]; that changes
    nothing, the texts being in normal form already. The extraction returns
    a list for every schema whose identifier is no property name of
    [Object.prototype]. *)
Theorem caller_normalization_changes_nothing documentText repo userSchema :
  (forall clauses,
     extractClausesRuleBased toLowerCase functionText documentText repo userSchema
     = Returned clauses ->
     map (fun c => normalizeClauseText (clause_text c)) clauses
     = map clause_text clauses)
  /\ (plainSchema userSchema ->
      exists clauses,
        extractClausesRuleBased toLowerCase functionText documentText repo userSchema
        = Returned clauses).
Proof.
  split; [|apply extraction_returns].
  intros clauses E.
  assert (H : Forall (fun c => normalizeClauseText (clause_text c) = clause_text c)
                     clauses).
  { revert E. apply extraction_Forall.
    - apply expander_Forall. intros no sub. apply Forall_forall. intros c Hc.
      apply subclauseOf_cases in Hc. destruct Hc as (t & text & ->). simpl.
      destruct (normalizeText_normal text) as (Hf & Hd & Hl).
      apply normal_form_fixed; auto. apply normalizeText_trimmed.
    - intros. simpl.
      destruct (normalizeText_normal (snd (parseClauseNumber block))) as (Hf & Hd & Hl).
      apply normal_form_fixed; auto. apply normalizeText_trimmed. }
  apply map_ext_in. rewrite Forall_forall in H. exact H.
Qed.

End Output.

Lemma extracted_clauses_fixed_fields_witness :
  exists clauses,
    extractClausesRuleBased asciiToLowerCase v8FunctionText scenarioB []
      (Some numericSchema)
    = Returned clauses
    /\ Forall (fun c => party_role c = js "Neutral" /\ complexity c = 5 /\ balance c = 0
                        /\ preferred_position c
                           = js "Standard legal position for " ++ clause_type c)
              clauses.
Proof.
  destruct (extracted_clauses_fixed_fields asciiToLowerCase v8FunctionText scenarioB []
              (Some numericSchema)) as (Hall & Hret).
  destruct (Hret eq_refl) as (clauses & E).
  exists clauses. split; [exact E|exact (Hall clauses E)].
Defined.

Lemma extraction_without_repository_witness :
  exists clauses,
    extractClausesRuleBased asciiToLowerCase v8FunctionText threeNumbered [] None
    = Returned clauses
    /\ Forall (fun c => matched_from_repository c = false /\ similarity_score c = zero)
              clauses.
Proof.
  destruct (extraction_without_repository asciiToLowerCase v8FunctionText threeNumbered
              None) as (Hall & Hret).
  destruct (Hret I) as (clauses & E).
  exists clauses. split; [exact E|exact (Hall clauses E)].
Defined.

Lemma extracted_scores_witness :
  exists clauses,
    extractClausesRuleBased asciiToLowerCase v8FunctionText sameBodies paymentRepository
      (Some numericSchema)
    = Returned clauses
    /\ Forall (fun c =>
                 (matched_from_repository c = false /\ similarity_score c = zero)
                 \/ (matched_from_repository c = true /\ paymentRepository <> []
                     /\ fge (similarity_score c) (decimal 12 100) = true))
              clauses.
Proof.
  destruct (extracted_scores asciiToLowerCase v8FunctionText sameBodies paymentRepository
              (Some numericSchema)) as (Hall & Hret).
  destruct (Hret eq_refl) as (clauses & E).
  exists clauses. split; [exact E|exact (Hall clauses E)].
Defined.

Lemma caller_normalization_changes_nothing_witness :
  exists clauses,
    extractClausesRuleBased asciiToLowerCase v8FunctionText withPreamble [] None
    = Returned clauses
    /\ map (fun c => normalizeClauseText (clause_text c)) clauses
       = map clause_text clauses.
Proof.
  destruct (caller_normalization_changes_nothing asciiToLowerCase v8FunctionText
              withPreamble [] None) as (Hall & Hret).
  destruct (Hret I) as (clauses & E).
  exists clauses. split; [exact E|exact (Hall clauses E)].
Defined.

(** ** The page-number filter, further *)

Lemma replaceAll_literal_length R t s :
  (length t <= minLen (source R))%nat ->
  (length (replaceAll R [Lit t] s) <= length s)%nat.
Proof.
  intros Hmin. apply (@Rewritten_length (replaces R [Lit t])); [|apply replaceAll_rewritten].
  intros m r (pre & suf & y & Hm & -> & ->).
  apply matchAt_matched in Hm. destruct Hm as (w & _ & _ & -> & _ & Hw).
  simpl. rewrite app_nil_r. lia.
Qed.

Lemma replaceAll_rePage3_length s :
  (length (replaceAll rePage3 [Lit nlnl; Ref 2] s) <= length s)%nat.
Proof.
  apply (@Rewritten_length (replaces rePage3 [Lit nlnl; Ref 2]));
    [|apply replaceAll_rewritten].
  intros m r (pre & suf & y & Hm & -> & ->).
  apply matchAt_sound in Hm.
  destruct (@sem_finalGroup _ _ 2%nat _ _ Hm eq_refl) as (w1 & v & Hmv & Hc & Hl & _).
  rewrite (moved_matched Hmv). unfold expand. simpl. rewrite Hc, app_nil_r.
  rewrite length_app. simpl in Hl. simpl. lia.
Qed.

(** X8. [removePageNumbers] never returns a text longer than the one it is
    given. *)
Theorem removePageNumbers_never_longer text :
  (length (removePageNumbers text) <= length text)%nat.
Proof.
  unfold removePageNumbers.
  repeat (eapply Nat.le_trans;
          [first [ apply replaceAll_literal_length; simpl; lia
                 | apply replaceAll_rePage3_length ]|]).
  apply Nat.le_refl.
Qed.

(** ** Runs of line feeds, and [/\n{3,}/g] *)

Lemma cmatch_newline c : cmatch false newlineClass c = (c =? LF)%N.
Proof.
  unfold cmatch, inRanges. cbn. rewrite !orb_false_r.
  destruct (N.eqb_spec c LF) as [->|Hne]; [reflexivity|].
  unfold LF in *. destruct (N.leb_spec 10 c), (N.leb_spec c 10); simpl; try reflexivity; lia.
Qed.

Lemma matchAt_reNewlines pre suf :
  matchAt reNewlines pre suf
  = if Nat.leb 3 (run false newlineClass suf)
    then Some (advance (run false newlineClass suf)
                       {| before := pre; after := suf; caps := [] |})
    else None.
Proof.
  unfold matchAt, reNewlines, re, atLeast, nl, cls. cbn [source ignoreCase rmatch groups].
  apply repLoop_run. cbn. lia.
Qed.

Lemma run_skipn ic cs s : run ic cs (skipn (run ic cs s) s) = 0%nat.
Proof.
  induction s as [|c s IH]; [reflexivity|]. cbn [run].
  destruct (cmatch ic cs c) eqn:Hc; cbn [skipn run]; [exact IH|].
  rewrite Hc. reflexivity.
Qed.

Lemma replaceLoop_skip R tpl : forall suf k pre,
  (k <= length suf)%nat ->
  exists pre', replaceLoop R tpl k pre suf = replaceLoop R tpl 0 pre' (skipn k suf).
Proof.
  induction suf as [|c suf IH]; intros k pre Hk.
  - assert (k = 0%nat) by (simpl in Hk; lia). subst. exists pre. reflexivity.
  - destruct k as [|k]; [exists pre; reflexivity|].
    cbn [replaceLoop skipn]. apply IH. simpl in Hk. lia.
Qed.

Lemma shortRuns_within s : forall n, shortRuns n s = true -> ~ within s [LF; LF; LF].
Proof.
  intros n H (a & b & E). subst s. revert n H.
  induction a as [|c a IH]; intros n H.
  - destruct n as [|[|n]]; cbn in H; discriminate H.
  - cbn [app shortRuns] in H. destruct (c =? LF)%N.
    + apply andb_true_iff in H. destruct H as (_ & H). eapply IH; eauto.
    + eapply IH; eauto.
Qed.

(** After [/\n{3,}/g] has been replaced by two line feeds, no run of line
    feeds is longer than two. *)
Lemma replaceLoop_reNewlines : forall n suf, (length suf <= n)%nat ->
  forall pre k,
    (k + Nat.min (run false newlineClass suf) 2 <= 2)%nat ->
    shortRuns k (replaceLoop reNewlines [Lit nlnl] 0 pre suf) = true.
Proof.
  induction n as [|n IH]; intros suf Hn pre k Hk.
  - destruct suf; [|simpl in Hn; lia]. cbn [replaceLoop].
    rewrite matchAt_reNewlines. reflexivity.
  - destruct suf as [|c suf].
    + cbn [replaceLoop]. rewrite matchAt_reNewlines. reflexivity.
    + cbn [replaceLoop]. rewrite matchAt_reNewlines.
      pose proof (run_le false newlineClass (c :: suf)) as Hle.
      destruct (Nat.leb_spec 3 (run false newlineClass (c :: suf))) as [H3|H3].
      * assert (Hlen : matchLen pre (advance (run false newlineClass (c :: suf))
                         {| before := pre; after := c :: suf; caps := [] |})
                       = run false newlineClass (c :: suf)).
        { unfold matchLen, advance, pos. cbn [before after].
          rewrite length_app, length_rev, length_firstn. lia. }
        rewrite Hlen.
        destruct (run false newlineClass (c :: suf)) as [|r] eqn:Hr; [lia|].
        cbn [Nat.eqb Nat.sub]. rewrite Nat.sub_0_r.
        cbn [run] in Hr. rewrite cmatch_newline in Hr.
        destruct (c =? LF)%N; [|discriminate]. injection Hr as Hr.
        destruct (@replaceLoop_skip reNewlines [Lit nlnl] suf r (c :: pre)) as (pre' & ->).
        { rewrite <- Hr. apply run_le. }
        assert (k = 0%nat) by lia. subst k.
        cbn [expand flat_map app nlnl shortRuns]. unfold nlnl. cbn [app shortRuns].
        rewrite N.eqb_refl. cbn [Nat.ltb Nat.leb andb].
        apply IH.
        -- rewrite length_skipn. simpl in Hn. lia.
        -- rewrite <- Hr, run_skipn. simpl. lia.
      * cbn [shortRuns]. cbn [run] in H3, Hk. rewrite cmatch_newline in H3, Hk.
        destruct (c =? LF)%N.
        -- apply andb_true_iff. split; [apply Nat.ltb_lt; lia|].
           apply IH; [simpl in Hn; lia|]. lia.
        -- apply IH; [simpl in Hn; lia|].
           destruct (run false newlineClass suf) as [|[|[|r]]] eqn:Hr; simpl; try lia.
Qed.

(** X9. The text that [removePageNumbers] returns never has three line
    feeds in a row. *)
Theorem removePageNumbers_no_three_newlines text :
  ~ within (removePageNumbers text) [LF; LF; LF].
Proof.
  unfold removePageNumbers. apply (@shortRuns_within _ 0). unfold replaceAll at 1.
  eapply replaceLoop_reNewlines; [apply Nat.le_refl|].
  simpl. lia.
Qed.

(** ** Similarity, further *)

Lemma newSet_same a b : incl a b -> incl b a -> length (newSet a) = length (newSet b).
Proof.
  intros H1 H2. apply Nat.le_antisymm; apply newSet_incl; assumption.
Qed.

Lemma jaccard_sym set1 set2 : jaccard set1 set2 = jaccard set2 set1.
Proof.
  unfold jaccard. rewrite orb_comm.
  destruct (Nat.eqb (length set2) 0 || Nat.eqb (length set1) 0)%bool; [reflexivity|].
  f_equal; f_equal.
  - apply newSet_same; intros w Hw; apply filter_In in Hw; destruct Hw as (Hw & Hh);
      apply has_In in Hh; apply filter_In; (split; [exact Hh|apply has_In; exact Hw]).
  - apply newSet_same; intros w Hw; apply in_app_or in Hw; apply in_or_app; tauto.
Qed.

(** A normal double divided by itself is one. *)
Lemma fdiv_same m e :
  normalBound (Zpos m) e ->
  fdiv (S754_finite false m e) (S754_finite false m e) = unity.
Proof.
  intros (HM & HE). unfold fdiv, SFdiv, SFdiv_core_binary.
  rewrite (Zdigits2_normal HM).
  replace (53 + e - (53 + e)) with 0 by lia. rewrite Z.sub_diag.
  change (Z.min (fexp prec emax 0) 0) with (-53).
  change (0 - -53) with 53.
  rewrite Z.shiftl_mul_pow2 by lia.
  pose proof (Z_div_mod (Zpos m * 2 ^ 53) (Zpos m) ltac:(lia)) as Hdm.
  destruct (Z.div_eucl (Zpos m * 2 ^ 53) (Zpos m)) as [q r].
  destruct Hdm as (Hq & Hr).
  assert (Er : r = 0).
  { assert (Hdiv : (Zpos m | r)).
    { exists (2 ^ 53 - q). lia. }
    destruct Hdiv as (k & Hk). assert (k = 0) by nia. subst k. lia. }
  subst r. assert (Eq : q = 2 ^ 53) by nia. subst q.
  replace (new_location (Zpos m) 0) with loc_Exact
    by (unfold new_location, new_location_even, new_location_odd;
        destruct (Z.even (Zpos m)); reflexivity).
  vm_compute. reflexivity.
Qed.

Lemma ratio_same (n : nat) :
  (1 <= n)%nat -> Z.of_nat n < 2 ^ 53 -> fdiv (ofNat n) (ofNat n) = unity.
Proof.
  intros Hn Hsize.
  destruct (@ofNat_normal n ltac:(lia)) as (m & e & E & Nb & _).
  rewrite E. apply fdiv_same. exact Nb.
Qed.

Lemma jaccard_same set1 :
  set1 <> [] -> Z.of_nat (length set1) < 2 ^ 53 -> jaccard set1 set1 = unity.
Proof.
  intros Hne Hsize. unfold jaccard.
  destruct (Nat.eqb_spec (length set1) 0) as [E|_];
    [destruct set1; [congruence|discriminate E]|].
  cbn [orb].
  assert (Hi : length (newSet (filter (has set1) set1)) = length (newSet set1)).
  { apply newSet_same; intros w Hw.
    - apply filter_In in Hw. tauto.
    - apply filter_In. split; [exact Hw|apply has_In; exact Hw]. }
  assert (Hu : length (newSet (set1 ++ set1)) = length (newSet set1)).
  { apply newSet_same; intros w Hw.
    - apply in_app_or in Hw. tauto.
    - apply in_or_app. tauto. }
  rewrite Hi, Hu. pose proof (newSet_length set1). pose proof (newSet_nonempty Hne).
  apply ratio_same; lia.
Qed.

Lemma newSet_nil_iff l : newSet l = [] <-> l = [].
Proof.
  split; [|intros ->; reflexivity].
  destruct l as [|w l]; [reflexivity|]. intros E.
  assert (Hw : In w (newSet (w :: l))) by (apply newSet_In; left; reflexivity).
  rewrite E in Hw. destruct Hw.
Qed.

Lemma unity_weighted :
  fadd (fmul unity (decimal 4 10)) (fmul unity (decimal 6 10)) = unity
  /\ fadd (fmul unity (decimal 35 100)) (fmul unity (decimal 65 100)) = unity.
Proof. split; vm_compute; reflexivity. Qed.

Section Same.

Variable toLowerCase : jstring -> jstring.

(** X10. Both similarity measures are symmetric in their two texts. *)
Theorem similarity_symmetric text1 text2 n :
  calculateTextSimilarity toLowerCase text1 text2
  = calculateTextSimilarity toLowerCase text2 text1
  /\ calculateNGramSimilarity toLowerCase text1 text2 n
     = calculateNGramSimilarity toLowerCase text2 text1 n.
Proof.
  unfold calculateTextSimilarity, calculateNGramSimilarity.
  split; apply jaccard_sym.
Qed.

Lemma getNGrams_shorter text :
  getNGrams toLowerCase 3 text <> [] -> getNGrams toLowerCase 2 text <> [].
Proof.
  unfold getNGrams. rewrite !newSet_nil_iff.
  set (words := filter _ _). intros H3 H2. apply H3.
  apply map_eq_nil in H2. apply (f_equal (@length nat)) in H2.
  rewrite length_seq in H2. simpl in H2.
  assert (E : (S (length words) - 3 = 0)%nat) by lia. rewrite E. reflexivity.
Qed.

(** X11. A repository clause whose text is the candidate text itself gets
    the score 1 from both matchers, as soon as the text has a word of more
    than two characters and at least three words. *)
Theorem identical_text_scores_one text c :
  isString (toLowerCase text) ->
  Repo.clause_text c = text ->
  similarityWords toLowerCase text <> [] ->
  getNGrams toLowerCase 3 text <> [] ->
  combinedScore toLowerCase text c = unity /\ typeScore toLowerCase text c = unity.
Proof.
  unfold isString. intros Hs Hc Hw Hg.
  pose proof (getNGrams_shorter text Hg) as Hg2.
  pose proof (similarityWords_count toLowerCase text) as Cw.
  pose proof (newSet_length (similarityWords toLowerCase text)) as Cn.
  assert (Hword : calculateTextSimilarity toLowerCase text text = unity).
  { unfold calculateTextSimilarity. apply jaccard_same.
    - rewrite newSet_nil_iff. exact Hw.
    - change (2 ^ 53) with 9007199254740992 in *. lia. }
  assert (Hgram : forall n, (2 <= n)%nat -> getNGrams toLowerCase n text <> [] ->
            calculateNGramSimilarity toLowerCase text text n = unity).
  { intros n Hn Hne. unfold calculateNGramSimilarity. apply jaccard_same; [exact Hne|].
    pose proof (getNGrams_count toLowerCase text Hn).
    change (2 ^ 53) with 9007199254740992 in *. lia. }
  unfold combinedScore, typeScore. rewrite Hc, Hword, !Hgram by (auto; lia).
  exact unity_weighted.
Qed.

End Same.

(** ** The order of the scores *)

Lemma below_positive_or_zero M E x : below M E x -> positive_or_zero x.
Proof.
  intros [->|(m & e & -> & _)]; [left; reflexivity|right; eauto].
Qed.

Lemma fge_refl x : positive_or_zero x -> fge x x = true.
Proof.
  intros [->|(m & e & ->)]; [reflexivity|].
  unfold fge, SFleb. cbn [SFcompare]. rewrite Z.compare_refl.
  fold (Pos.compare m m). rewrite Pos.compare_refl. reflexivity.
Qed.

Lemma fgt_false_fge x y :
  positive_or_zero x -> positive_or_zero y -> fgt x y = false -> fge y x = true.
Proof.
  intros [->|(m & e & ->)] [->|(m' & e' & ->)]; try reflexivity; try discriminate.
  unfold fgt, fge, SFltb, SFleb. cbn [SFcompare].
  destruct (Z.compare_spec e' e); destruct (Z.compare_spec e e'); try lia;
    try reflexivity; try discriminate.
  fold (Pos.compare m' m) (Pos.compare m m').
  rewrite (Pos.compare_antisym m' m).
  destruct (Pos.compare m' m); simpl; try reflexivity; discriminate.
Qed.

Lemma fgt_fge_trans s b c :
  positive_or_zero s -> positive_or_zero b -> positive_or_zero c ->
  fgt s b = true -> fge b c = true -> fge s c = true.
Proof.
  intros [->|(ms & es & ->)] [->|(mb & eb & ->)] [->|(mc & ec & ->)];
    try reflexivity; try discriminate.
  unfold fgt, fge, SFltb, SFleb. cbn [SFcompare].
  fold (Pos.compare mb ms) (Pos.compare mc mb) (Pos.compare mc ms).
  destruct (Z.compare_spec eb es); destruct (Z.compare_spec ec eb);
    destruct (Z.compare_spec ec es); try lia; try reflexivity; try discriminate.
  subst.
  destruct (Pos.compare_spec mb ms); destruct (Pos.compare_spec mc mb);
    destruct (Pos.compare_spec mc ms); try lia; try reflexivity; try discriminate.
Qed.

(** ** The matchers, further *)

Section Best.

Variable toLowerCase : jstring -> jstring.
Variable clauseText : jstring.
Variable repositoryClauses : list Repo.Clause.

Lemma matchStep_skips threshold best c :
  ~ eligible c -> matchStep toLowerCase clauseText threshold best c = best.
Proof.
  unfold eligible, matchStep. intros H.
  destruct (Nat.ltb_spec (length (Repo.clause_text c)) 50); [reflexivity|].
  destruct (isGenericType (Repo.clause_type c)); [reflexivity|]. exfalso. apply H. auto.
Qed.

Lemma matchStep_eligible threshold best c :
  eligible c ->
  matchStep toLowerCase clauseText threshold best c
  = let combined := combinedScore toLowerCase clauseText c in
    if fge combined threshold
       && match best with None => true | Some b => fgt combined (score b) end
    then Some {| clauseType := Repo.clause_type c; score := combined;
                 matchedClauseId := Repo.id c |}
    else best.
Proof.
  unfold eligible, matchStep. intros (H1 & H2).
  destruct (Nat.ltb_spec (length (Repo.clause_text c)) 50); [lia|].
  rewrite H2. reflexivity.
Qed.

(** X12. The match that [matchClauseFromRepository] returns is made of one
    repository clause: its type, its id and its combined score; that clause
    has a text of 50 characters or more, a type that is neither "General
    Clause" nor "Other", and a score that reaches the threshold. *)
Theorem matchClauseFromRepository_origin threshold m :
  matchClauseFromRepository toLowerCase clauseText repositoryClauses threshold = Some m ->
  exists c, In c repositoryClauses
            /\ clauseType m = Repo.clause_type c
            /\ matchedClauseId m = Repo.id c
            /\ score m = combinedScore toLowerCase clauseText c
            /\ (50 <= length (Repo.clause_text c))%nat
            /\ isGenericType (Repo.clause_type c) = false
            /\ fge (score m) threshold = true.
Proof.
  unfold matchClauseFromRepository.
  assert (H : forall b, fold_left (matchStep toLowerCase clauseText threshold)
                          repositoryClauses None = Some b ->
    exists c, In c repositoryClauses
            /\ clauseType b = Repo.clause_type c
            /\ matchedClauseId b = Repo.id c
            /\ score b = combinedScore toLowerCase clauseText c
            /\ (50 <= length (Repo.clause_text c))%nat
            /\ isGenericType (Repo.clause_type c) = false
            /\ fge (score b) threshold = true).
  { apply (@fold_left_invariant _ _ (fun best => forall b, best = Some b ->
      exists c, In c repositoryClauses
            /\ clauseType b = Repo.clause_type c
            /\ matchedClauseId b = Repo.id c
            /\ score b = combinedScore toLowerCase clauseText c
            /\ (50 <= length (Repo.clause_text c))%nat
            /\ isGenericType (Repo.clause_type c) = false
            /\ fge (score b) threshold = true)); [discriminate|].
    intros best c Hc Hbest b. unfold matchStep.
    destruct (Nat.ltb_spec (length (Repo.clause_text c)) 50); [apply Hbest|].
    destruct (isGenericType (Repo.clause_type c)) eqn:Hg; [apply Hbest|].
    cbv zeta.
    destruct (fge (combinedScore toLowerCase clauseText c) threshold) eqn:Hge;
      [|apply Hbest].
    cbn [andb]. destruct (match best with None => true | Some b0 => _ end); [|apply Hbest].
    intros E. inversion E; subst b. exists c. cbn [clauseType score matchedClauseId].
    repeat split; auto. }
  destruct repositoryClauses; [discriminate|apply H].
Qed.

Hypothesis text_string : isString (toLowerCase clauseText).
Hypothesis repository_strings :
  forall c, In c repositoryClauses -> isString (toLowerCase (Repo.clause_text c)).

Lemma combinedScore_positive_or_zero c :
  In c repositoryClauses -> positive_or_zero (combinedScore toLowerCase clauseText c).
Proof.
  intros Hc. eapply below_positive_or_zero.
  apply (combinedScore_atMostOne toLowerCase clauseText repositoryClauses); auto.
Qed.

(** X13. [matchClauseFromRepository] returns the best: for every repository
    clause that is not skipped and whose combined score reaches the
    threshold, a match is returned and its score is at least that score. *)
Theorem matchClauseFromRepository_best threshold c :
  In c repositoryClauses ->
  (50 <= length (Repo.clause_text c))%nat ->
  isGenericType (Repo.clause_type c) = false ->
  fge (combinedScore toLowerCase clauseText c) threshold = true ->
  exists m,
    matchClauseFromRepository toLowerCase clauseText repositoryClauses threshold = Some m
    /\ fge (score m) (combinedScore toLowerCase clauseText c) = true.
Proof.
  intros Hin Hlen Hgen Hreach. unfold matchClauseFromRepository.
  assert (H : forall l best done,
    incl (done ++ l) repositoryClauses ->
    (forall b, best = Some b -> positive_or_zero (score b)) ->
    (forall d, In d done -> eligible d ->
       fge (combinedScore toLowerCase clauseText d) threshold = true ->
       exists b, best = Some b
                 /\ fge (score b) (combinedScore toLowerCase clauseText d) = true) ->
    forall d, In d (done ++ l) -> eligible d ->
      fge (combinedScore toLowerCase clauseText d) threshold = true ->
      exists b, fold_left (matchStep toLowerCase clauseText threshold) l best = Some b
                /\ fge (score b) (combinedScore toLowerCase clauseText d) = true).
  { induction l as [|c0 l IH]; intros best done Hincl Hpos Hdone.
    - rewrite app_nil_r. exact Hdone.
    - cbn [fold_left]. replace (done ++ c0 :: l) with ((done ++ [c0]) ++ l) in *
        by (rewrite <- app_assoc; reflexivity).
      assert (Hc0 : In c0 repositoryClauses).
      { apply Hincl. apply in_or_app. left. apply in_or_app. right. left. reflexivity. }
      pose proof (combinedScore_positive_or_zero c0 Hc0) as P0.
      apply IH; [exact Hincl| |].
      + intros b. unfold matchStep.
        destruct (Nat.ltb (length (Repo.clause_text c0)) 50); [apply Hpos|].
        destruct (isGenericType (Repo.clause_type c0)); [apply Hpos|]. cbv zeta.
        match goal with |- (if ?t then _ else _) = _ -> _ => destruct t end; [|apply Hpos].
        intros E. inversion E. exact P0.
      + intros d Hd Hel Hr. apply in_app_or in Hd.
        destruct (Nat.ltb_spec (length (Repo.clause_text c0)) 50) as [Hshort|Hlong].
        { rewrite matchStep_skips by (unfold eligible; lia).
          destruct Hd as [Hd|[<-|[]]]; [apply Hdone; assumption|].
          destruct Hel as (Hel & _). lia. }
        destruct (isGenericType (Repo.clause_type c0)) eqn:Hg0.
        { rewrite matchStep_skips by (unfold eligible; rewrite Hg0; intros (_ & E); discriminate).
          destruct Hd as [Hd|[<-|[]]]; [apply Hdone; assumption|].
          destruct Hel as (_ & Hel). congruence. }
        rewrite matchStep_eligible by (split; assumption). cbv zeta.
        destruct (fge (combinedScore toLowerCase clauseText c0) threshold) eqn:Hge0.
        * cbn [andb]. destruct best as [b|].
          -- pose proof (Hpos b eq_refl) as Pb.
             destruct (fgt (combinedScore toLowerCase clauseText c0) (score b)) eqn:Hgt.
             ++ eexists. split; [reflexivity|]. cbn [score].
                destruct Hd as [Hd|[<-|[]]]; [|apply fge_refl; exact P0].
                destruct (Hdone d Hd Hel Hr) as (b' & E & Hb'). inversion E; subst b'.
                assert (Pd : positive_or_zero (combinedScore toLowerCase clauseText d)).
                { apply combinedScore_positive_or_zero. apply Hincl.
                  apply in_or_app. left. apply in_or_app. left. exact Hd. }
                apply (@fgt_fge_trans _ _ _ P0 Pb Pd Hgt Hb').
             ++ exists b. split; [reflexivity|].
                destruct Hd as [Hd|[<-|[]]].
                ** destruct (Hdone d Hd Hel Hr) as (b' & E & Hb'). inversion E; subst b'.
                   exact Hb'.
                ** apply (@fgt_false_fge _ _ P0 Pb Hgt).
          -- eexists. split; [reflexivity|]. cbn [score].
             destruct Hd as [Hd|[<-|[]]]; [|apply fge_refl; exact P0].
             destruct (Hdone d Hd Hel Hr) as (b' & E & _). discriminate E.
        * cbn [andb]. destruct Hd as [Hd|[<-|[]]]; [apply Hdone; assumption|].
          congruence. }
  assert (Hres : exists b,
    fold_left (matchStep toLowerCase clauseText threshold) repositoryClauses None = Some b
    /\ fge (score b) (combinedScore toLowerCase clauseText c) = true).
  { apply (H repositoryClauses None []); auto.
    - intros x Hx. exact Hx.
    - discriminate.
    - intros d [].
    - split; assumption. }
  destruct repositoryClauses; [destruct Hin|exact Hres].
Qed.

End Best.

(** ** The groups of the repository *)

Lemma jstring_eqb_refl a : jstring_eqb a a = true.
Proof. apply jstring_eqb_eq. reflexivity. Qed.

Lemma jstring_eqb_neq a b : a <> b -> jstring_eqb a b = false.
Proof.
  intros H. destruct (jstring_eqb a b) eqn:E; [|reflexivity].
  apply jstring_eqb_eq in E. contradiction.
Qed.

Lemma groupInsert_keys c : forall grouped,
  map fst (groupInsert c grouped)
  = if has (map fst grouped) (Repo.clause_type c) then map fst grouped
    else map fst grouped ++ [Repo.clause_type c].
Proof.
  induction grouped as [|(t, existing) grouped IH]; [reflexivity|].
  cbn [groupInsert map fst has existsb].
  change (existsb (jstring_eqb (Repo.clause_type c)) (map fst grouped))
    with (has (map fst grouped) (Repo.clause_type c)).
  destruct (jstring_eqb t (Repo.clause_type c)) eqn:E.
  - apply jstring_eqb_eq in E. subst t. rewrite jstring_eqb_refl. reflexivity.
  - assert (E' : jstring_eqb (Repo.clause_type c) t = false).
    { apply jstring_eqb_neq. intros H. rewrite H, jstring_eqb_refl in E. discriminate. }
    rewrite E'. cbn [orb map fst]. rewrite IH.
    destruct (has (map fst grouped) (Repo.clause_type c)); reflexivity.
Qed.

Lemma groupInsert_In c : forall grouped t cs,
  NoDup (map fst grouped) ->
  In (t, cs) (groupInsert c grouped) ->
  (t <> Repo.clause_type c /\ In (t, cs) grouped)
  \/ (t = Repo.clause_type c
      /\ ((exists old, In (t, old) grouped /\ cs = old ++ [c])
          \/ (~ In t (map fst grouped) /\ cs = [c]))).
Proof.
  induction grouped as [|(t0, existing) grouped IH]; intros t cs Hnd Hin.
  - destruct Hin as [E|[]]. inversion E; subst. right. split; [reflexivity|].
    right. split; [intros []|reflexivity].
  - cbn [groupInsert] in Hin. inversion Hnd as [|? ? Hnot Hnd']; subst.
    destruct (jstring_eqb t0 (Repo.clause_type c)) eqn:E.
    + apply jstring_eqb_eq in E. subst t0.
      destruct Hin as [E|Hin].
      * inversion E; subst. right. split; [reflexivity|]. left.
        exists existing. split; [left; reflexivity|reflexivity].
      * left. split; [|right; exact Hin].
        intros ->. apply Hnot. apply (in_map fst) in Hin. exact Hin.
    + assert (Hne : t0 <> Repo.clause_type c).
      { intros ->. rewrite jstring_eqb_refl in E. discriminate. }
      destruct Hin as [E'|Hin].
      * inversion E'; subst. left. split; [exact Hne|left; reflexivity].
      * destruct (IH t cs Hnd' Hin) as [(H1 & H2)|(-> & [(old & H1 & H2)|(H1 & H2)])].
        -- left. split; [exact H1|right; exact H2].
        -- right. split; [reflexivity|]. left. exists old. split; [right; exact H1|exact H2].
        -- right. split; [reflexivity|]. right. split; [|exact H2].
           intros [E'|H']; [simpl in E'; congruence|contradiction].
Qed.

Lemma filter_none {A : Type} (f : A -> bool) l :
  (forall x, In x l -> f x = false) -> filter f l = [].
Proof.
  induction l as [|a l IH]; intros H; [reflexivity|]. simpl.
  rewrite (H a) by (left; reflexivity). apply IH. intros x Hx. apply H. right. exact Hx.
Qed.

Lemma ofType_snoc t done c :
  ofType t (done ++ [c])
  = ofType t done ++ (if jstring_eqb t (Repo.clause_type c) then [c] else []).
Proof. unfold ofType. rewrite filter_app. reflexivity. Qed.

Lemma groups_invariant : forall clauses grouped done,
  NoDup (map fst grouped) ->
  (forall t cs, In (t, cs) grouped -> cs <> [] /\ cs = ofType t done) ->
  (forall c, In c done -> In (Repo.clause_type c) (map fst grouped)) ->
  let result := fold_left (fun grouped clause => groupInsert clause grouped) clauses grouped in
  NoDup (map fst result)
  /\ (forall t cs, In (t, cs) result -> cs <> [] /\ cs = ofType t (done ++ clauses))
  /\ (forall c, In c (done ++ clauses) -> In (Repo.clause_type c) (map fst result)).
Proof.
  induction clauses as [|c clauses IH]; intros grouped done Hnd Hgroups Hkeys.
  - cbn [fold_left]. rewrite app_nil_r. auto.
  - cbn [fold_left]. replace (done ++ c :: clauses) with ((done ++ [c]) ++ clauses)
      by (rewrite <- app_assoc; reflexivity).
    apply IH.
    + rewrite groupInsert_keys.
      destruct (has (map fst grouped) (Repo.clause_type c)) eqn:Hhas; [exact Hnd|].
      apply NoDup_app; [exact Hnd|repeat constructor; simpl; tauto|].
      intros x Hx [<-|[]]. apply has_In in Hx. congruence.
    + intros t cs Hin. rewrite ofType_snoc.
      destruct (groupInsert_In _ _ _ _ Hnd Hin)
        as [(Hne & Hold)|(-> & [(old & Hold & ->)|(Hnew & ->)])].
      * rewrite (jstring_eqb_neq Hne), app_nil_r. apply Hgroups. exact Hold.
      * rewrite jstring_eqb_refl. destruct (Hgroups _ _ Hold) as (Hne & ->).
        split; [|reflexivity]. destruct (ofType (Repo.clause_type c) done); discriminate.
      * rewrite jstring_eqb_refl. split; [discriminate|].
        assert (E : ofType (Repo.clause_type c) done = []).
        { unfold ofType. apply filter_none. intros x Hx.
          apply jstring_eqb_neq. intros Ex. apply Hnew. rewrite Ex.
          apply Hkeys. exact Hx. }
        rewrite E. reflexivity.
    + intros c' Hc'. rewrite groupInsert_keys. apply in_app_or in Hc'.
      destruct (has (map fst grouped) (Repo.clause_type c)) eqn:Hhas.
      * destruct Hc' as [Hc'|[<-|[]]]; [apply Hkeys; exact Hc'|apply has_In; exact Hhas].
      * apply in_or_app. destruct Hc' as [Hc'|[<-|[]]]; [left; apply Hkeys; exact Hc'|].
        right. left. reflexivity.
Qed.

Lemma groupClausesByType_spec clauses :
  let grouped := groupClausesByType clauses in
  NoDup (map fst grouped)
  /\ (forall t cs, In (t, cs) grouped -> cs <> [] /\ cs = ofType t clauses)
  /\ (forall c, In c clauses -> In (Repo.clause_type c) (map fst grouped)).
Proof.
  unfold groupClausesByType.
  apply (@groups_invariant clauses [] []).
  - constructor.
  - intros t cs [].
  - intros c [].
Qed.

(** X14. [groupClausesByType] makes one group per type: the keys are
    pairwise different, the group of a key holds exactly the clauses of that
    type, in the order of the repository, and is not empty, and the type of
    every clause is a key. *)
Theorem groupClausesByType_groups clauses :
  let grouped := groupClausesByType clauses in
  NoDup (map fst grouped)
  /\ (forall t cs, In (t, cs) grouped -> cs <> [] /\ cs = ofType t clauses)
  /\ (forall c, In c clauses -> In (Repo.clause_type c) (map fst grouped)).
Proof. apply groupClausesByType_spec. Qed.

Lemma ofType_In t clauses c :
  In c (ofType t clauses) <-> In c clauses /\ Repo.clause_type c = t.
Proof.
  unfold ofType. rewrite filter_In, jstring_eqb_eq. intuition congruence.
Qed.

Section Groups.

Variable toLowerCase : jstring -> jstring.
Variable clauseText : jstring.
Variable repositoryClauses : list Repo.Clause.

(** The inner loop of [findBestClauseTypeMatch] ends on zero and the empty
    id, or on the score and the id of a clause that it did not skip. *)
Lemma typeScoreStep_origin clauses :
  let best := fold_left (typeScoreStep toLowerCase clauseText) clauses (zero, []) in
  best = (zero, [])
  \/ exists c, In c clauses /\ (30 <= length (Repo.clause_text c))%nat
               /\ best = (typeScore toLowerCase clauseText c, Repo.id c).
Proof.
  apply (@fold_left_invariant _ _ (fun acc : number * jstring =>
    acc = (zero, [])
    \/ exists c, In c clauses /\ (30 <= length (Repo.clause_text c))%nat
                 /\ acc = (typeScore toLowerCase clauseText c, Repo.id c)));
    [left; reflexivity|].
  intros acc c Hc Hacc. unfold typeScoreStep.
  destruct (Nat.ltb_spec (length (Repo.clause_text c)) 30); [exact Hacc|]. cbv zeta.
  destruct (fgt _ (fst acc)); [|exact Hacc].
  right. exists c. auto.
Qed.

(** X15. The match that [findBestClauseTypeMatch] returns has a type that
    is neither "General Clause" nor "Other" and is the type of a repository
    clause, and a score that reaches the threshold. The score and the id are
    those of one repository clause of that type with a text of 30 characters
    or more, or else the score is 0 and the id is empty. *)
Theorem findBestClauseTypeMatch_origin threshold m :
  findBestClauseTypeMatch toLowerCase clauseText repositoryClauses threshold = Some m ->
  isGenericType (clauseType m) = false
  /\ fge (score m) threshold = true
  /\ (exists c, In c repositoryClauses /\ Repo.clause_type c = clauseType m)
  /\ ((score m = zero /\ matchedClauseId m = [])
      \/ exists c, In c repositoryClauses /\ Repo.clause_type c = clauseType m
                   /\ (30 <= length (Repo.clause_text c))%nat
                   /\ score m = typeScore toLowerCase clauseText c
                   /\ matchedClauseId m = Repo.id c).
Proof.
  unfold findBestClauseTypeMatch. revert m.
  destruct (groupClausesByType_spec repositoryClauses) as (_ & Hgroups & _).
  apply (@fold_left_invariant _ _ (fun best => forall m, best = Some m ->
    isGenericType (clauseType m) = false
    /\ fge (score m) threshold = true
    /\ (exists c, In c repositoryClauses /\ Repo.clause_type c = clauseType m)
    /\ ((score m = zero /\ matchedClauseId m = [])
        \/ exists c, In c repositoryClauses /\ Repo.clause_type c = clauseType m
                     /\ (30 <= length (Repo.clause_text c))%nat
                     /\ score m = typeScore toLowerCase clauseText c
                     /\ matchedClauseId m = Repo.id c))); [discriminate|].
  intros best (t, clauses) Hin Hbest m. unfold typeMatchStep.
  destruct (isGenericType t) eqn:Hgen; [apply Hbest|].
  pose proof (typeScoreStep_origin clauses) as Hmax. cbv zeta in Hmax.
  destruct (fold_left (typeScoreStep toLowerCase clauseText) clauses (zero, []))
    as [maxScore bestClauseId].
  destruct (fge maxScore threshold) eqn:Hge; [|apply Hbest].
  cbn [andb]. destruct (match best with None => true | Some b => _ end); [|apply Hbest].
  intros E. inversion E; subst m. cbn [clauseType score matchedClauseId].
  destruct (Hgroups _ _ Hin) as (Hne & Hcs).
  split; [exact Hgen|]. split; [exact Hge|]. split.
  - destruct clauses as [|c0 rest]; [congruence|]. exists c0.
    apply ofType_In. rewrite <- Hcs. left. reflexivity.
  - destruct Hmax as [Hz|(c & Hc & Hlen & Hs)].
    + left. inversion Hz. auto.
    + right. exists c. rewrite Hcs in Hc. apply ofType_In in Hc. inversion Hs. tauto.
Qed.

End Groups.

(** ** The schema detector, further *)

(** The loop of the detector keeps the first candidate with the highest
    count among those read so far, once a count is positive. *)
Lemma detect_fold_first_max text : forall l done acc,
  ((snd acc = 0%nat /\ forall q, In q done -> countMatches q text = 0%nat)
   \/ exists l1 l2, done = l1 ++ fst acc :: l2
        /\ countMatches (fst acc) text = snd acc /\ (0 < snd acc)%nat
        /\ (forall q, In q l1 -> (countMatches q text < snd acc)%nat)
        /\ (forall q, In q l2 -> (countMatches q text <= snd acc)%nat)) ->
  let res := fold_left (detectStep text) l acc in
  (snd res = 0%nat /\ forall q, In q (done ++ l) -> countMatches q text = 0%nat)
  \/ exists l1 l2, done ++ l = l1 ++ fst res :: l2
       /\ countMatches (fst res) text = snd res /\ (0 < snd res)%nat
       /\ (forall q, In q l1 -> (countMatches q text < snd res)%nat)
       /\ (forall q, In q l2 -> (countMatches q text <= snd res)%nat).
Proof.
  induction l as [|p l IH]; intros done acc Hacc.
  - cbn [fold_left]. rewrite app_nil_r. exact Hacc.
  - cbn [fold_left]. replace (done ++ p :: l) with ((done ++ [p]) ++ l)
      by (rewrite <- app_assoc; reflexivity).
    apply IH. unfold detectStep.
    destruct (Nat.ltb_spec (snd acc) (countMatches p text)) as [Hlt|Hge]; cbn [fst snd].
    + right. exists done, []. repeat split; auto; try lia.
      * intros q Hq. destruct Hacc as [(Hz & Hall)|(l1 & l2 & -> & Hc & Hp & H1 & H2)].
        -- rewrite (Hall q Hq). lia.
        -- apply in_app_or in Hq. destruct Hq as [Hq|[<-|Hq]].
           ++ specialize (H1 q Hq). lia.
           ++ lia.
           ++ specialize (H2 q Hq). lia.
      * intros q [].
    + destruct Hacc as [(Hz & Hall)|(l1 & l2 & -> & Hc & Hp & H1 & H2)].
      * left. split; [exact Hz|]. intros q Hq. apply in_app_or in Hq.
        destruct Hq as [Hq|[<-|[]]]; [apply Hall; exact Hq|lia].
      * right. exists l1, (l2 ++ [p]). rewrite <- app_assoc. repeat split; auto.
        intros q Hq. apply in_app_or in Hq.
        destruct Hq as [Hq|[<-|[]]]; [apply H2; exact Hq|lia].
Qed.

(** X16. When some candidate pattern of the detector occurs at least twice,
    the detector returns the split pattern and the type of the candidate
    that occurs most often, the first of them in the order of the source:
    the candidates before it occur less often, those after it not more
    often. *)
Theorem detectNumberingSchema_most_frequent text :
  (exists q, In q patterns /\ (2 <= countMatches q text)%nat) ->
  exists l1 p l2,
    patterns = l1 ++ p :: l2
    /\ detectNumberingSchema text = (cand_splitRegex p, cand_type p)
    /\ (2 <= countMatches p text)%nat
    /\ (forall q, In q l1 -> (countMatches q text < countMatches p text)%nat)
    /\ (forall q, In q l2 -> (countMatches q text <= countMatches p text)%nat).
Proof.
  intros (q & Hq & Hq2). unfold detectNumberingSchema.
  pose proof (@detect_fold_first_max text patterns [] (firstPattern, 0%nat)) as H.
  cbv zeta in H. cbn [app] in H.
  destruct (fold_left (detectStep text) patterns (firstPattern, 0%nat)) as [best maxCount].
  cbn [fst snd] in H.
  destruct H as [(_ & Hall)|(l1 & l2 & E & Hc & Hp & H1 & H2)].
  - left. split; [reflexivity|]. intros x [].
  - rewrite (Hall q Hq) in Hq2. lia.
  - assert (Hmax : (countMatches q text <= maxCount)%nat).
    { rewrite E in Hq. apply in_app_or in Hq. destruct Hq as [Hq|[<-|Hq]].
      - specialize (H1 q Hq). lia.
      - lia.
      - apply H2. exact Hq. }
    destruct (Nat.ltb_spec maxCount 2); [lia|].
    exists l1, best, l2. rewrite Hc. repeat split; auto; lia.
Qed.

(** ** The keyword scans and the titles *)

Lemma common_type (t : string) :
  has (map js commonClauseTypes) (js t) = true -> In (js t) (map js commonClauseTypes).
Proof. apply has_In. Qed.

Section Keywords.

Variable toLowerCase : jstring -> jstring.

(** X17. A type that [detectClauseType] returns is one of the entries of
    [commonClauseTypes]. *)
Theorem detectClauseType_vocabulary text t :
  detectClauseType toLowerCase text = Some t -> In t (map js commonClauseTypes).
Proof.
  unfold detectClauseType.
  repeat match goal with
         | |- (if ?c then Some ?v else _) = Some _ -> _ =>
             destruct c;
             [intros E; inversion E; apply common_type; vm_compute; reflexivity|]
         end.
  destruct (Nat.ltb (length text) 1500); [|discriminate].
  destruct (find _ commonClauseTypes) as [x|] eqn:Hfind; [|discriminate].
  intros E. inversion E. apply in_map. apply find_some in Hfind. tauto.
Qed.

(** X18. A type that [detectMiscellaneousSubclauseType] returns is one of
    the entries of [commonClauseTypes]. *)
Theorem detectMiscellaneousSubclauseType_vocabulary text t :
  detectMiscellaneousSubclauseType toLowerCase text = Some t ->
  In t (map js commonClauseTypes).
Proof.
  unfold detectMiscellaneousSubclauseType.
  repeat match goal with
         | |- (if ?c then Some ?v else _) = Some _ -> _ =>
             destruct c;
             [intros E; inversion E; apply common_type; vm_compute; reflexivity|]
         end.
  discriminate.
Qed.

Lemma cleanTitle_bound title :
  (length (cleanTitle toLowerCase title) <= 50)%nat.
Proof.
  unfold cleanTitle.
  destruct (Nat.ltb_spec 50 (length (trim title))) as [Hlong|Hshort].
  - rewrite length_app. unfold substring. rewrite length_firstn.
    assert (E : length (js "...") = 3%nat) by reflexivity. rewrite E. lia.
  - destruct (find _ mappings) as [(k, v)|] eqn:Hfind; [|exact Hshort].
    apply find_some in Hfind. destruct Hfind as (Hin & _).
    assert (Hall : forallb (fun kv => Nat.leb (length (js (snd kv))) 50) mappings = true)
      by (vm_compute; reflexivity).
    rewrite forallb_forall in Hall. specialize (Hall _ Hin).
    apply Nat.leb_le in Hall. exact Hall.
Qed.

(** X19. A title that [cleanTitle] returns has at most 50 characters. *)
Theorem cleanTitle_length title :
  (length (cleanTitle toLowerCase title) <= 50)%nat.
Proof. apply cleanTitle_bound. Qed.

(** X20. A title that [parseHeader] finds has at most 50 characters. *)
Theorem parseHeader_title_length block title :
  parseHeader toLowerCase block = Some title -> (length title <= 50)%nat.
Proof.
  unfold parseHeader, simpleNumberedTitle, sectionTitle, allCapsTitle.
  repeat match goal with
         | |- match (match ?x with _ => _ end) with _ => _ end = _ -> _ => destruct x
         | |- match (if ?x then _ else _) with _ => _ end = _ -> _ => destruct x
         | |- match ?x with _ => _ end = _ -> _ => destruct x
         end;
    try discriminate; intros E; inversion E; apply cleanTitle_bound.
Qed.

End Keywords.

(** X21. For a block that is not blank, the body text that
    [parseClauseNumber] returns is not blank either, and it is trimmed. *)
Theorem parseClauseNumber_body_text block :
  trim block <> [] ->
  let body_text := snd (parseClauseNumber block) in
  body_text <> [] /\ allWhite body_text = false /\ trim body_text = body_text.
Proof.
  intros Hne. cbv zeta.
  pose proof (parseClauseNumber_body block Hne) as Hsolid.
  split; [intros E; rewrite E in Hsolid; discriminate|]. split; [exact Hsolid|].
  clear. unfold parseClauseNumber.
  repeat match goal with
         | |- context [match ?x with Some _ => _ | None => _ end] => destruct x
         | |- context [if ?x then _ else _] => destruct x
         end; cbn [snd]; apply trim_idem.
Qed.

(** ** The results of the clause analysis *)

Section AnalyzerProperties.

Variable toLowerCase : jstring -> jstring.

(** X22. For the action "analyze" the result is a list of risks that is
    never empty and has at most five lines. *)
Theorem analyze_risks_bounds clauseText :
  exists risks,
    analyzeClauseRuleBased toLowerCase clauseText (js "analyze") = Risks risks
    /\ (1 <= length risks <= 5)%nat.
Proof.
  unfold analyzeClauseRuleBased. rewrite jstring_eqb_refl. cbv zeta.
  eexists. split; [reflexivity|]. unfold pushIf.
  repeat match goal with
         | |- context [if ?c then _ ++ [_] else _] => destruct c
         end; simpl; lia.
Qed.

End AnalyzerProperties.

(** ** Texts without a common word *)

Lemma ratio_zero (u : nat) :
  (1 <= u)%nat -> Z.of_nat u < 2 ^ 53 -> fdiv (ofNat 0) (ofNat u) = zero.
Proof.
  intros Hu Hsize.
  destruct (@ofNat_normal u ltac:(lia)) as (m & e & E & _).
  rewrite E. reflexivity.
Qed.

Lemma jaccard_disjoint set1 set2 :
  Z.of_nat (length set1 + length set2) < 2 ^ 53 ->
  (forall w, In w set1 -> ~ In w set2) ->
  jaccard set1 set2 = zero.
Proof.
  intros Hsize Hdis. unfold jaccard.
  destruct (Nat.eqb_spec (length set1) 0) as [|H1]; [reflexivity|].
  destruct (Nat.eqb_spec (length set2) 0) as [|H2]; [reflexivity|].
  cbn [orb].
  assert (E : filter (has set2) set1 = []).
  { apply filter_none. intros w Hw. destruct (has set2 w) eqn:Hh; [|reflexivity].
    apply has_In in Hh. destruct (Hdis w Hw Hh). }
  rewrite E. change (length (newSet [])) with 0%nat.
  apply ratio_zero.
  - apply newSet_nonempty. destruct set1; [simpl in H1; lia|discriminate].
  - pose proof (newSet_length (set1 ++ set2)) as Hl. rewrite length_app in Hl. lia.
Qed.

Section Disjoint.

Variable toLowerCase : jstring -> jstring.

(** X23. Two texts that share no word of more than two characters have the
    word similarity 0. *)
Theorem no_common_word_no_similarity text1 text2 :
  isString (toLowerCase text1) -> isString (toLowerCase text2) ->
  (forall w, In w (similarityWords toLowerCase text1) ->
             ~ In w (similarityWords toLowerCase text2)) ->
  calculateTextSimilarity toLowerCase text1 text2 = zero.
Proof.
  unfold isString. intros H1 H2 Hdis. unfold calculateTextSimilarity.
  apply jaccard_disjoint.
  - pose proof (similarityWords_count toLowerCase text1).
    pose proof (similarityWords_count toLowerCase text2).
    assert (Hset : forall l : list jstring, (4 * length (newSet l) <= 4 * length l)%nat).
    { intros l. apply Nat.mul_le_mono_l, newSet_length. }
    apply (@sizes_arith 4 _ _ (length (toLowerCase text1)) (length (toLowerCase text2)));
      auto; try lia; (eapply Nat.le_trans; [apply Hset|assumption]).
  - intros w Hw Hw'. apply (proj1 (newSet_In _ _)) in Hw.
    apply (proj1 (newSet_In _ _)) in Hw'. exact (Hdis w Hw Hw').
Qed.

End Disjoint.

(** ** Splits at a lookahead *)

Lemma look_width ic fwd ah positive a x y :
  sem ic fwd (Look ah positive a) x y -> before y = before x /\ after y = after x.
Proof.
  simpl. destruct positive.
  - intros (z & _ & ->). split; reflexivity.
  - intros (_ & ->). split; reflexivity.
Qed.

Lemma matchAt_look R ah positive a pre suf y :
  source R = Look ah positive a -> matchAt R pre suf = Some y -> matchLen pre y = 0%nat.
Proof.
  intros Hs Hm. apply matchAt_sound in Hm. rewrite Hs in Hm.
  apply look_width in Hm. destruct Hm as (Hb & _). simpl in Hb.
  unfold matchLen, pos. rewrite Hb. lia.
Qed.

(** A split at the places where a pattern matches the empty text only, the
    pattern having no group, loses no character. *)
Lemma splitLoop_zero_width R :
  (forall pre suf y, matchAt R pre suf = Some y -> matchLen pre y = 0%nat) ->
  groups (source R) = [] ->
  forall suf cur pre, concat (texts (splitLoop R 0 cur pre suf)) = rev cur ++ suf.
Proof.
  intros Hzero Hg. induction suf as [|c suf IH]; intros cur pre.
  - simpl. rewrite !app_nil_r. reflexivity.
  - cbn [splitLoop]. destruct (matchAt R pre (c :: suf)) as [y|] eqn:Hm.
    + rewrite (Hzero _ _ _ Hm). destruct cur as [|d cur].
      * rewrite IH. reflexivity.
      * rewrite Hg. cbn [map app texts flat_map].
        change (flat_map _ ?l) with (texts l).
        cbn [concat]. rewrite IH. reflexivity.
    + rewrite IH. cbn [rev]. rewrite <- app_assoc. reflexivity.
Qed.

Lemma splitText_zero_width R s :
  (forall pre suf y, matchAt R pre suf = Some y -> matchLen pre y = 0%nat) ->
  groups (source R) = [] ->
  concat (splitText R s) = s.
Proof.
  intros Hzero Hg. unfold splitText. fold (texts (splitRe R s)). unfold splitRe.
  destruct s as [|c s].
  - destruct (matchAt R [] []); reflexivity.
  - apply (@splitLoop_zero_width R Hzero Hg (c :: s) [] []).
Qed.

(** X24. The two first splits of the expander, before "Section N.M" and
    before "(a)", cut the block and drop nothing: the pieces put together
    again are the block text. *)
Theorem expander_splits_lose_nothing blockText :
  concat (splitText reSectionDecimal blockText) = blockText
  /\ concat (splitText reParen blockText) = blockText.
Proof.
  split; apply splitText_zero_width; try reflexivity;
    intros pre suf y; eapply matchAt_look; reflexivity.
Qed.

(** ** The blocks *)

Lemma hd_splitChar_app b x :
  hd [] (splitChar LF (b ++ LF :: x)) = hd [] (splitChar LF b).
Proof.
  induction b as [|c b IH].
  - simpl. reflexivity.
  - cbn [app splitChar]. destruct (N.eqb c LF); [reflexivity|].
    pose proof (@splitChar_nonempty LF (b ++ LF :: x)) as H1.
    pose proof (@splitChar_nonempty LF b) as H2.
    destruct (splitChar LF (b ++ LF :: x)) as [|l ls]; [congruence|].
    destruct (splitChar LF b) as [|l' ls']; [congruence|].
    simpl in IH. subst l'. reflexivity.
Qed.

Lemma firstLineOf_app b x : firstLineOf (b ++ nlnl ++ x) = firstLineOf b.
Proof. unfold firstLineOf, nlnl. apply hd_splitChar_app. Qed.

Lemma appendToLast_Forall (P : jstring -> Prop) more : forall blocks,
  (forall b, P b -> P (b ++ more)) -> Forall P blocks ->
  Forall P (appendToLast blocks more).
Proof.
  induction blocks as [|b blocks IH]; intros Hp H; [constructor|].
  inversion H as [|? ? Hb Hrest]; subst. cbn [appendToLast].
  destruct blocks as [|b' blocks'].
  - constructor; [apply Hp; exact Hb|constructor].
  - constructor; [exact Hb|]. apply IH; assumption.
Qed.

Lemma appendToLast_tl_Forall (P : jstring -> Prop) more blocks :
  (forall b, P b -> P (b ++ more)) -> Forall P (tl blocks) ->
  Forall P (tl (appendToLast blocks more)).
Proof.
  intros Hp H. destruct blocks as [|b [|b' blocks]]; [constructor|constructor|].
  change (tl (appendToLast (b :: b' :: blocks) more))
    with (appendToLast (b' :: blocks) more).
  apply appendToLast_Forall; assumption.
Qed.

(** X25. In the list of blocks that the extraction builds from the pieces,
    every block has 10 characters or more, and every block but the first
    starts with a line that matches the main header pattern. *)
Theorem merged_blocks_start_with_headers mainHeaderRegex initialBlocks blocks :
  mergeBlocks mainHeaderRegex initialBlocks [] = Returned blocks ->
  Forall (fun b => (10 <= length b)%nat) blocks
  /\ Forall (fun b => test mainHeaderRegex (firstLineOf b) = true) (tl blocks).
Proof.
  assert (H : forall l acc merged,
    Forall (fun b => (10 <= length b)%nat) acc ->
    Forall (fun b => test mainHeaderRegex (firstLineOf b) = true) (tl acc) ->
    mergeBlocks mainHeaderRegex l acc = Returned merged ->
    Forall (fun b => (10 <= length b)%nat) merged
    /\ Forall (fun b => test mainHeaderRegex (firstLineOf b) = true) (tl merged)).
  { induction l as [|[block|] l IH]; intros acc merged Hlen Hhead; cbn [mergeBlocks].
    - intros E. inversion E; subst. auto.
    - destruct (Nat.ltb_spec (length (trim block)) 10) as [Hshort|Hlong]; [apply IH; assumption|].
      destruct (test mainHeaderRegex (firstLineOf (trim block))) eqn:Htest.
      + cbn [orb]. apply IH.
        * apply Forall_app. split; [exact Hlen|]. constructor; [exact Hlong|constructor].
        * destruct acc as [|a acc]; [constructor|]. cbn [app tl] in *.
          apply Forall_app. split; [exact Hhead|]. constructor; [exact Htest|constructor].
      + cbn [orb].
        match goal with |- context [Nat.eqb ?a 0] =>
          destruct (Nat.eqb_spec a 0) as [Hz|Hnz] end.
        * destruct acc; [|discriminate Hz]. apply IH.
          -- constructor; [exact Hlong|constructor].
          -- constructor.
        * apply IH.
          -- apply appendToLast_Forall; [|exact Hlen].
             intros b Hb. rewrite length_app. lia.
          -- apply appendToLast_tl_Forall; [|exact Hhead].
             intros b Hb. rewrite firstLineOf_app. exact Hb.
    - discriminate. }
  intros E. apply (H initialBlocks [] blocks); auto; constructor.
Qed.

(** ** The properties at work *)

Lemma identical_text_scores_one_witness :
  isString (asciiToLowerCase paymentText)
  /\ Repo.clause_text sameTextClause = paymentText
  /\ similarityWords asciiToLowerCase paymentText <> []
  /\ getNGrams asciiToLowerCase 3 paymentText <> []
  /\ combinedScore asciiToLowerCase paymentText sameTextClause = unity
  /\ typeScore asciiToLowerCase paymentText sameTextClause = unity.
Proof.
  assert (H1 : isString (asciiToLowerCase paymentText)) by (vm_compute; reflexivity).
  assert (H2 : Repo.clause_text sameTextClause = paymentText) by reflexivity.
  assert (H3 : similarityWords asciiToLowerCase paymentText <> [])
    by (vm_compute; discriminate).
  assert (H4 : getNGrams asciiToLowerCase 3 paymentText <> [])
    by (vm_compute; discriminate).
  repeat (split; [assumption|]).
  exact (@identical_text_scores_one asciiToLowerCase paymentText sameTextClause H1 H2 H3 H4).
Defined.

Lemma matchClauseFromRepository_origin_witness :
  exists m,
    matchClauseFromRepository asciiToLowerCase paymentText paymentRepository
      (decimal 15 100) = Some m
    /\ exists c, In c paymentRepository
         /\ clauseType m = Repo.clause_type c
         /\ matchedClauseId m = Repo.id c
         /\ score m = combinedScore asciiToLowerCase paymentText c
         /\ (50 <= length (Repo.clause_text c))%nat
         /\ isGenericType (Repo.clause_type c) = false
         /\ fge (score m) (decimal 15 100) = true.
Proof.
  assert (E : exists m,
    matchClauseFromRepository asciiToLowerCase paymentText paymentRepository
      (decimal 15 100) = Some m) by (vm_compute; eexists; reflexivity).
  destruct E as (m & E). exists m. split; [exact E|].
  exact (@matchClauseFromRepository_origin asciiToLowerCase paymentText paymentRepository
           (decimal 15 100) m E).
Defined.

Lemma matchClauseFromRepository_best_witness :
  isString (asciiToLowerCase paymentText)
  /\ (forall c, In c paymentRepository ->
                isString (asciiToLowerCase (Repo.clause_text c)))
  /\ In paymentClause paymentRepository
  /\ (50 <= length (Repo.clause_text paymentClause))%nat
  /\ isGenericType (Repo.clause_type paymentClause) = false
  /\ fge (combinedScore asciiToLowerCase paymentText paymentClause) (decimal 15 100) = true
  /\ exists m,
       matchClauseFromRepository asciiToLowerCase paymentText paymentRepository
         (decimal 15 100) = Some m
       /\ fge (score m) (combinedScore asciiToLowerCase paymentText paymentClause) = true.
Proof.
  assert (H1 : isString (asciiToLowerCase paymentText)) by (vm_compute; reflexivity).
  assert (H2 : forall c, In c paymentRepository ->
                         isString (asciiToLowerCase (Repo.clause_text c)))
    by (intros c [<-|[]]; vm_compute; reflexivity).
  assert (H3 : In paymentClause paymentRepository) by (left; reflexivity).
  assert (H4 : (50 <= length (Repo.clause_text paymentClause))%nat)
    by (apply Nat.leb_le; vm_compute; reflexivity).
  assert (H5 : isGenericType (Repo.clause_type paymentClause) = false)
    by (vm_compute; reflexivity).
  assert (H6 : fge (combinedScore asciiToLowerCase paymentText paymentClause)
                   (decimal 15 100) = true) by (vm_compute; reflexivity).
  repeat (split; [assumption|]).
  exact (@matchClauseFromRepository_best asciiToLowerCase paymentText paymentRepository
           H1 H2 (decimal 15 100) paymentClause H3 H4 H5 H6).
Defined.

Lemma findBestClauseTypeMatch_origin_witness :
  exists m,
    findBestClauseTypeMatch asciiToLowerCase paymentText paymentRepository
      (decimal 12 100) = Some m
    /\ isGenericType (clauseType m) = false
    /\ fge (score m) (decimal 12 100) = true
    /\ (exists c, In c paymentRepository /\ Repo.clause_type c = clauseType m)
    /\ ((score m = zero /\ matchedClauseId m = [])
        \/ exists c, In c paymentRepository /\ Repo.clause_type c = clauseType m
                     /\ (30 <= length (Repo.clause_text c))%nat
                     /\ score m = typeScore asciiToLowerCase paymentText c
                     /\ matchedClauseId m = Repo.id c).
Proof.
  assert (E : exists m,
    findBestClauseTypeMatch asciiToLowerCase paymentText paymentRepository
      (decimal 12 100) = Some m) by (vm_compute; eexists; reflexivity).
  destruct E as (m & E). exists m. split; [exact E|].
  exact (@findBestClauseTypeMatch_origin asciiToLowerCase paymentText paymentRepository
           (decimal 12 100) m E).
Defined.

Lemma detectNumberingSchema_most_frequent_witness :
  (exists q, In q patterns /\ (2 <= countMatches q twoSections)%nat)
  /\ exists l1 p l2,
       patterns = l1 ++ p :: l2
       /\ detectNumberingSchema twoSections = (cand_splitRegex p, cand_type p)
       /\ (2 <= countMatches p twoSections)%nat
       /\ (forall q, In q l1 -> (countMatches q twoSections < countMatches p twoSections)%nat)
       /\ (forall q, In q l2 -> (countMatches q twoSections <= countMatches p twoSections)%nat).
Proof.
  assert (H : exists q, In q patterns /\ (2 <= countMatches q twoSections)%nat).
  { exists (nth 1 patterns firstPattern). split; [right; left; reflexivity|].
    apply Nat.leb_le. vm_compute. reflexivity. }
  split; [exact H|]. exact (@detectNumberingSchema_most_frequent twoSections H).
Defined.

Lemma detectClauseType_vocabulary_witness :
  detectClauseType asciiToLowerCase (js "Each party keeps the terms confidential.")
  = Some (js "Confidentiality")
  /\ In (js "Confidentiality") (map js commonClauseTypes).
Proof.
  assert (H : detectClauseType asciiToLowerCase
                (js "Each party keeps the terms confidential.")
              = Some (js "Confidentiality")) by (vm_compute; reflexivity).
  split; [exact H|]. exact (@detectClauseType_vocabulary asciiToLowerCase _ _ H).
Defined.

Lemma detectMiscellaneousSubclauseType_vocabulary_witness :
  detectMiscellaneousSubclauseType asciiToLowerCase
    (js "This Agreement may be executed in counterparts.")
  = Some (js "Counterparts")
  /\ In (js "Counterparts") (map js commonClauseTypes).
Proof.
  assert (H : detectMiscellaneousSubclauseType asciiToLowerCase
                (js "This Agreement may be executed in counterparts.")
              = Some (js "Counterparts")) by (vm_compute; reflexivity).
  split; [exact H|].
  exact (@detectMiscellaneousSubclauseType_vocabulary asciiToLowerCase _ _ H).
Defined.

Lemma parseHeader_title_length_witness :
  exists title,
    parseHeader asciiToLowerCase (js "1. INDEMNITY. Each party shall indemnify the other.")
    = Some title
    /\ (length title <= 50)%nat.
Proof.
  assert (E : exists title,
    parseHeader asciiToLowerCase (js "1. INDEMNITY. Each party shall indemnify the other.")
    = Some title) by (vm_compute; eexists; reflexivity).
  destruct E as (title & E). exists title. split; [exact E|].
  exact (@parseHeader_title_length asciiToLowerCase _ _ E).
Defined.

Lemma parseClauseNumber_body_text_witness :
  trim (js "2. TERM. This agreement lasts one year.") <> []
  /\ snd (parseClauseNumber (js "2. TERM. This agreement lasts one year.")) <> []
  /\ allWhite (snd (parseClauseNumber (js "2. TERM. This agreement lasts one year."))) = false
  /\ trim (snd (parseClauseNumber (js "2. TERM. This agreement lasts one year.")))
     = snd (parseClauseNumber (js "2. TERM. This agreement lasts one year.")).
Proof.
  assert (H : trim (js "2. TERM. This agreement lasts one year.") <> [])
    by (vm_compute; discriminate).
  split; [exact H|].
  exact (@parseClauseNumber_body_text (js "2. TERM. This agreement lasts one year.") H).
Defined.

Lemma no_common_word_no_similarity_witness :
  isString (asciiToLowerCase (js "alpha beta"))
  /\ isString (asciiToLowerCase (js "gamma delta"))
  /\ (forall w, In w (similarityWords asciiToLowerCase (js "alpha beta")) ->
                ~ In w (similarityWords asciiToLowerCase (js "gamma delta")))
  /\ calculateTextSimilarity asciiToLowerCase (js "alpha beta") (js "gamma delta") = zero.
Proof.
  assert (H1 : isString (asciiToLowerCase (js "alpha beta"))) by (vm_compute; reflexivity).
  assert (H2 : isString (asciiToLowerCase (js "gamma delta"))) by (vm_compute; reflexivity).
  assert (H3 : forall w, In w (similarityWords asciiToLowerCase (js "alpha beta")) ->
                         ~ In w (similarityWords asciiToLowerCase (js "gamma delta"))).
  { intros w Hw Hw'. vm_compute in Hw, Hw'.
    destruct Hw as [<-|[<-|[]]]; destruct Hw' as [E|[E|[]]]; discriminate E. }
  repeat (split; [assumption|]).
  exact (@no_common_word_no_similarity asciiToLowerCase _ _ H1 H2 H3).
Defined.

Lemma merged_blocks_start_with_headers_witness :
  exists blocks,
    mergeBlocks numericHeader numberedPieces [] = Returned blocks
    /\ Forall (fun b => (10 <= length b)%nat) blocks
    /\ Forall (fun b => test numericHeader (firstLineOf b) = true) (tl blocks).
Proof.
  assert (E : exists blocks, mergeBlocks numericHeader numberedPieces [] = Returned blocks)
    by (vm_compute; eexists; reflexivity).
  destruct E as (blocks & E). exists blocks. split; [exact E|].
  exact (@merged_blocks_start_with_headers numericHeader numberedPieces blocks E).
Defined.
